(** * ner-data-generator: the noise engine and the template assembler

    A shallow embedding of [generate_id_ner_faker.py] (class
    [FakerIDGenerator]) and the properties of its noise engine, weighted
    choice, value synthesizers and the two template assemblers, then of
    its batch orchestrator, of the loading of its configuration, and of
    the verifier [verify_positions.py].

    Conventions of the embedding.
    - A Python [str] is a list of Unicode code points ([len] is [length],
      [+] is [++], [text[s:e]] is [slice]); [lit] reads a literal.
    - A Python [float] is the rational it denotes; comparisons are exact.
      The one rounded operation the program uses, binary64 addition, is the
      field [fadd] of [Runtime], so nothing below depends on how a sum is
      rounded unless a hypothesis says so.
    - [random] and the Faker providers are an oracle: a tape of raw draws
      consumed left to right. [random.random()] is a multiple of 2^-53 in
      [0,1), [random.choice] and [random.randint] reduce a raw draw modulo
      the size of their range.
    - A Python exception is [None]: [IndexError] in the generator,
      [AttributeError] in the loops of [__init__].
    - The tables of the generator are typed as the routines use them:
      numbers for probabilities and weights, strings for replacements,
      substitutes and variants.  [__init__] stores whatever the
      configuration holds; a value of another type raises [TypeError] where
      a routine uses it, and a generator holding one is outside the
      embedding.  [probabilities_loaded] says of the tables [__init__]
      extracts that they hold numbers only. *)

From Stdlib Require Import String Ascii.
From Stdlib Require Import List NArith ZArith QArith Lia Bool Arith.
From Stdlib Require Import DecimalString.
From Stdlib Require DecimalFacts DecimalPos DecimalN.
Import ListNotations.
Open Scope nat_scope.

Set Implicit Arguments.
Unset Strict Implicit.

(* ------------------------------------------------------------------ *)
(** ** Python strings *)

Definition char := N.
Definition str := list char.

(** One byte of a UTF-8 text folded into the code points read so far
    (most recent first): a continuation byte extends the last one. *)
Definition utf8_step (acc : list char) (b : N) : list char :=
  (if b <? 128 then b :: acc
   else if b <? 192 then
     match acc with
     | c :: acc' => (c * 64 + (b - 128)) :: acc'
     | [] => []
     end
   else if b <? 224 then (b - 192) :: acc
   else if b <? 240 then (b - 224) :: acc
   else (b - 240) :: acc)%N.

(** A string literal of the source: the code points of its UTF-8 text. *)
Definition lit (s : string) : str :=
  rev (fold_left utf8_step (map N_of_ascii (list_ascii_of_string s)) []).

Fixpoint str_eqb (a b : str) : bool :=
  match a, b with
  | [], [] => true
  | x :: a', y :: b' => N.eqb x y && str_eqb a' b'
  | _, _ => false
  end.

(** [s.startswith(p)] *)
Fixpoint starts_with (p s : str) : bool :=
  match p, s with
  | [], _ => true
  | x :: p', y :: s' => N.eqb x y && starts_with p' s'
  | _ :: _, [] => false
  end.

(** [sub in s] *)
Fixpoint contains (sub s : str) : bool :=
  starts_with sub s ||
  match s with
  | [] => false
  | _ :: s' => contains sub s'
  end.

(** [s.replace(old, new)] for a non-empty [old]: scan left to right; at a
    match emit [new] and skip the matched characters.  [skip] counts the
    characters of the current match still to pass over. *)
Fixpoint replace_scan (old new : str) (skip : nat) (s : str) : str :=
  match s with
  | [] => []
  | c :: s' =>
      match skip with
      | S k => replace_scan old new k s'
      | O => if starts_with old s
             then new ++ replace_scan old new (length old - 1) s'
             else c :: replace_scan old new 0 s'
      end
  end.

(** [s.replace(old, new)]; an empty [old] matches before every character
    and at the end. *)
Definition replace (s old new : str) : str :=
  match old with
  | [] => new ++ flat_map (fun c => c :: new) s
  | _ :: _ => replace_scan old new 0 s
  end.

(** [str.isspace] on one code point: the characters [str.strip()] removes. *)
Definition isspace (c : char) : bool :=
  ((9 <=? c) && (c <=? 13) || (28 <=? c) && (c <=? 32)
   || (c =? 133) || (c =? 160) || (c =? 5760)
   || (8192 <=? c) && (c <=? 8202)
   || (c =? 8232) || (c =? 8233) || (c =? 8239) || (c =? 8287)
   || (c =? 12288))%N.

Fixpoint lstrip (s : str) : str :=
  match s with
  | c :: s' => if isspace c then lstrip s' else s
  | [] => []
  end.

Definition rstrip (s : str) : str := rev (lstrip (rev s)).

(** [s.strip()] *)
Definition strip (s : str) : str := rstrip (lstrip s).

(** [text[s:e]] for non-negative indices. *)
Definition slice (text : str) (s e : nat) : str := firstn (e - s) (skipn s text).

(** ["".join(parts)] *)
Definition join (parts : list str) : str := concat parts.

(** [str(n)] for a non-negative integer. *)
Definition str_of_int (n : N) : str := lit (NilEmpty.string_of_uint (N.to_uint n)).

(** [f"{n:02d}"] for a non-negative integer. *)
Definition fmt_02d (n : N) : str :=
  let s := str_of_int n in
  if length s <? 2 then lit "0" ++ s else s.

(* ------------------------------------------------------------------ *)
(** ** Python dictionaries, in insertion order *)

Definition dict (V : Type) := list (str * V).

Fixpoint dict_lookup {V} (d : dict V) (k : str) : option V :=
  match d with
  | [] => None
  | (k', v) :: d' => if str_eqb k' k then Some v else dict_lookup d' k
  end.

(** [d.get(k, default)] *)
Definition dict_get {V} (d : dict V) (k : str) (default : V) : V :=
  match dict_lookup d k with Some v => v | None => default end.

Definition keys {V} (d : dict V) : list str := map fst d.

(* ------------------------------------------------------------------ *)
(** ** The parts of the Python runtime that are taken as given *)

Class Runtime := {
  (** binary64 [+]: the rational the rounded sum denotes *)
  fadd : Q -> Q -> Q;
  (** [str.upper()] *)
  str_upper : str -> str
}.

(** [a < b] and [a <= b] on floats. *)
Definition fle (a b : Q) : bool := Qle_bool a b.
Definition flt (a b : Q) : bool := negb (Qle_bool b a).

(* ------------------------------------------------------------------ *)
(** ** A state and error monad *)

Definition M (S A : Type) : Type := S -> option (A * S).

Definition ret {S A} (a : A) : M S A := fun s => Some (a, s).

Definition bind {S A B} (m : M S A) (k : A -> M S B) : M S B :=
  fun s => match m s with
           | Some (a, s') => k a s'
           | None => None
           end.

(** [raise IndexError] *)
Definition raise {S A} : M S A := fun _ => None.

Notation "x <- m ;; k" := (bind m (fun x => k))
  (at level 61, m at next level, right associativity).
Notation "m ;;; k" := (bind m (fun _ => k))
  (at level 61, right associativity).

Definition when {S} (b : bool) (m : M S unit) : M S unit :=
  if b then m else ret tt.

(* ------------------------------------------------------------------ *)
(** ** The random source *)

(** The tape of raw draws still to come. *)
Definition rng := nat -> N.

Definition shift (r : rng) : rng := fun i => r (S i).

Definition Rand (A : Type) := M rng A.

Definition next_raw : Rand N := fun r => Some (r 0, shift r).

Definition two53 : positive := 9007199254740992.

(** The float a raw draw stands for: a multiple of 2^-53 in [0,1). *)
Definition uniform (k : N) : Q := Z.of_N (k mod Npos two53) # two53.

(** [random.random()] *)
Definition random_random : Rand Q :=
  k <- next_raw ;; ret (uniform k).

(** [random.choice(seq)]; [IndexError] on an empty sequence. *)
Definition choice {A} (seq : list A) : Rand A :=
  match seq with
  | [] => raise
  | _ :: _ =>
      k <- next_raw ;;
      match nth_error seq (N.to_nat (k mod N.of_nat (length seq))) with
      | Some a => ret a
      | None => raise
      end
  end.

(** [random.randint(a, b)] for [a <= b] *)
Definition randint (a b : N) : Rand N :=
  k <- next_raw ;; ret (a + k mod (b - a + 1))%N.

(** [[m() for _ in range(n)]], [n] the number of rounds. *)
Fixpoint repeatM {A} (n : nat) (m : Rand A) : Rand (list A) :=
  match n with
  | O => ret []
  | S n' => a <- m ;; l <- repeatM n' m ;; ret (a :: l)
  end.

(** [seq[-1]]; [IndexError] on an empty list. *)
Fixpoint py_last {A} (seq : list A) : option A :=
  match seq with
  | [] => None
  | [a] => Some a
  | _ :: seq' => py_last seq'
  end.

(* ------------------------------------------------------------------ *)
(** ** The generator object *)

Record date := { day : N; month : N; year : N }.

(** One Faker instance: what it returns on a raw draw of its own. *)
Record Faker := {
  last_name : N -> str;
  first_name : N -> str;
  city : N -> str;
  date_of_birth : N -> N -> N -> date
}.

(** The attributes of [self] that generation reads. *)
Record FakerIDGenerator := {
  noise_enabled : bool;
  global_prob : Q;
  word_noise_prob : Q;
  spacing_noise_prob : Q;
  char_sub_prob : Q;
  extra_char_prob : Q;
  missing_char_prob : Q;
  double_char_prob : Q;
  fakers : list Faker;
  word_replacements : dict (list str);
  spacing_errors : dict (list str);
  char_subs : dict str;
  extra_chars : list str;
  field_typos : dict (list str);
  simple_probs : dict Q;
  bilingual_probs : dict Q;
  signature_noise : dict (dict Q)
}.

(** The binary64 values of the decimal literals of the source. *)
Definition f_0_1 : Q := 3602879701896397 # 36028797018963968.
Definition f_0_2 : Q := 3602879701896397 # 18014398509481984.
Definition f_0_3 : Q := 5404319552844595 # 18014398509481984.
Definition f_0_4 : Q := 3602879701896397 # 9007199254740992.
Definition f_0_5 : Q := 1 # 2.
Definition f_0_6 : Q := 5404319552844595 # 9007199254740992.
Definition f_0_8 : Q := 3602879701896397 # 4503599627370496.
Definition f_0_9 : Q := 8106479329266893 # 9007199254740992.

(** [_set_zero_noise]: "Disable all noise." *)
Definition _set_zero_noise (self : FakerIDGenerator) : FakerIDGenerator :=
  {| noise_enabled := false;
     global_prob := 0;
     word_noise_prob := 0;
     spacing_noise_prob := 0;
     char_sub_prob := 0;
     extra_char_prob := 0;
     missing_char_prob := 0;
     double_char_prob := 0;
     fakers := fakers self;
     word_replacements := word_replacements self;
     spacing_errors := spacing_errors self;
     char_subs := char_subs self;
     extra_chars := extra_chars self;
     field_typos := field_typos self;
     simple_probs := simple_probs self;
     bilingual_probs := bilingual_probs self;
     signature_noise := signature_noise self |}.

Section Engine.
Context {RT : Runtime}.

(* ------------------------------------------------------------------ *)
(** ** Weighted choice *)

(** The loop of [_weighted_choice]: [Some choice] when it returns from
    inside the loop, [None] when the loop runs to its end. *)
Fixpoint weighted_scan (rand_val cumulative : Q) (items : dict Q) : option str :=
  match items with
  | [] => None
  | (choice, weight) :: rest =>
      let cumulative := fadd cumulative weight in
      if fle rand_val cumulative then Some choice
      else weighted_scan rand_val cumulative rest
  end.

Definition _weighted_choice (choices_dict : dict Q) : Rand str :=
  rand_val <- random_random ;;
  match weighted_scan rand_val 0 choices_dict with
  | Some choice => ret choice
  | None =>
      (* Fallback to last choice if rounding errors *)
      match py_last (keys choices_dict) with
      | Some k => ret k
      | None => raise
      end
  end.

(* ------------------------------------------------------------------ *)
(** ** The noise engine *)

(** [for original, variants in table.items():
       if original in text: text = text.replace(original, random.choice(variants))] *)
Fixpoint apply_replacements (table : dict (list str)) (text : str) : Rand str :=
  match table with
  | [] => ret text
  | (original, variants) :: rest =>
      if contains original text
      then v <- choice variants ;;
           apply_replacements rest (replace text original v)
      else apply_replacements rest text
  end.

(** The body of the loop of [_apply_character_noise] for one character:
    the strings it appends to [result]. *)
Definition char_noise_step (self : FakerIDGenerator) (char : char) : Rand (list str) :=
  u <- random_random ;;
  (* Skip character (missing) *)
  if flt u (missing_char_prob self) then ret []
  else
    (* Character substitution *)
    substituted <-
      match dict_lookup (char_subs self) [char] with
      | Some _ => u <- random_random ;; ret (flt u (char_sub_prob self))
      | None => ret false
      end ;;
    let result :=
      if substituted then [dict_get (char_subs self) [char] [char]] else [[char]] in
    (* Duplicate character *)
    u <- random_random ;;
    let result := if flt u (double_char_prob self) then result ++ [[char]] else result in
    (* Insert extra character *)
    u <- random_random ;;
    if flt u (extra_char_prob self)
    then x <- choice (extra_chars self) ;; ret (result ++ [x])
    else ret result.

Fixpoint char_noise_loop (self : FakerIDGenerator) (text : str) (result : list str)
  : Rand (list str) :=
  match text with
  | [] => ret result
  | char :: rest =>
      appended <- char_noise_step self char ;;
      char_noise_loop self rest (result ++ appended)
  end.

Definition _apply_character_noise (self : FakerIDGenerator) (text : str) : Rand str :=
  result <- char_noise_loop self text [] ;;
  ret (join result).

(** The condition of the first [if] of [apply_noise], with Python's
    short-circuit [or]: the gate draw is made only when noise is enabled
    and allowed. *)
Definition noise_gate (self : FakerIDGenerator) (allow_noise : bool) : Rand bool :=
  if negb (noise_enabled self) then ret true
  else if negb allow_noise then ret true
  else u <- random_random ;; ret (flt (global_prob self) u).

Definition apply_noise (self : FakerIDGenerator) (text : str) (allow_noise : bool)
  : Rand str :=
  skip <- noise_gate self allow_noise ;;
  if skip then ret text
  else
    (* Word-level replacements *)
    u <- random_random ;;
    text <- (if flt u (word_noise_prob self)
             then apply_replacements (word_replacements self) text
             else ret text) ;;
    (* Spacing errors *)
    u <- random_random ;;
    text <- (if flt u (spacing_noise_prob self)
             then apply_replacements (spacing_errors self) text
             else ret text) ;;
    (* Character-level noise *)
    u <- random_random ;;
    text <- (if flt u (fadd (fadd (char_sub_prob self) (extra_char_prob self))
                            (missing_char_prob self))
             then _apply_character_noise self text
             else ret text) ;;
    ret text.

Definition apply_field_typo (self : FakerIDGenerator) (field_text : str) : Rand str :=
  (* Check if this exact field has typo variants *)
  match dict_lookup (field_typos self) field_text with
  | Some variants => choice variants
  | None =>
      (* Check for partial matches *)
      match find (fun item => contains (fst item) field_text) (field_typos self) with
      | Some (original, variants) =>
          v <- choice variants ;; ret (replace field_text original v)
      | None =>
          (* If no specific typo defined, apply general noise *)
          apply_noise self field_text true
      end
  end.

(* ------------------------------------------------------------------ *)
(** ** Value synthesizers *)

Definition generate_name (self : FakerIDGenerator) : Rand str :=
  faker <- choice (fakers self) ;;
  raw <- next_raw ;;
  ret (str_upper (last_name faker raw)).

Definition generate_given_names (self : FakerIDGenerator) (count : option N)
  : Rand (list str) :=
  count <- match count with
           | None => randint 1 3
           | Some c => ret c
           end ;;
  repeatM (N.to_nat count)
    (faker <- choice (fakers self) ;;
     raw <- next_raw ;;
     ret (str_upper (first_name faker raw))).

(** The clean-up of [generate_city] on the upper-cased provider name. *)
Definition clean_city (city : str) : str :=
  strip (replace (replace (replace city (lit "VILLE") []) (lit "CITY") [])
                 (lit "SAN ") []).

Definition generate_city (self : FakerIDGenerator) : Rand str :=
  faker <- choice (fakers self) ;;
  raw <- next_raw ;;
  let city := str_upper (city faker raw) in
  let city := clean_city city in
  ret (firstn 20 city).

Definition letters : list str := map (fun c => [c]) (lit "ABCDEFGHIJKLMNOPQRSTUVWXYZ").
Definition nums : list str := map (fun c => [c]) (lit "0123456789").

(** [[str(random.randint(0, 9)) for _ in range(n)]] *)
Definition random_digits (n : nat) : Rand (list str) :=
  repeatM n (d <- randint 0 9 ;; ret (str_of_int d)).

Definition generate_id_number : Rand str :=
  format_type <- choice [lit "numeric"; lit "date_based"; lit "alphanumeric"] ;;
  if str_eqb format_type (lit "numeric") then
    ds <- random_digits 12 ;; ret (join ds)
  else if str_eqb format_type (lit "date_based") then
    year <- randint 50 99 ;;
    month <- randint 1 12 ;;
    day <- randint 1 28 ;;
    ds <- random_digits 5 ;;
    let suffix := join ds in
    ret (fmt_02d year ++ fmt_02d month ++ fmt_02d day ++ lit "T" ++ suffix)
  else
    a <- choice letters ;;
    b <- choice nums ;;
    c <- repeatM 3 (choice letters) ;;
    d <- repeatM 2 (choice nums) ;;
    e <- choice letters ;;
    f <- choice nums ;;
    ret (a ++ b ++ join c ++ join d ++ e ++ f).

Definition generate_date (self : FakerIDGenerator) : Rand str :=
  faker <- choice (fakers self) ;;
  raw <- next_raw ;;
  let date := date_of_birth faker 18 80 raw in
  format_type <- choice [lit "dots"; lit "spaces"] ;;
  if str_eqb format_type (lit "dots")
  then ret (fmt_02d (day date) ++ lit "." ++ fmt_02d (month date) ++ lit "."
            ++ str_of_int (year date))
  else ret (fmt_02d (day date) ++ lit " " ++ fmt_02d (month date) ++ lit " "
            ++ str_of_int (year date)).

Definition generate_height : Rand str :=
  meters <- randint 1 2 ;;
  cm <- randint 50 99 ;;
  separator <- choice [lit " "; []] ;;
  unit <- choice [lit "m"; lit "M"] ;;
  ret (str_of_int meters ++ separator ++ str_of_int cm ++ unit).

Definition generate_support_number : Rand str :=
  n <- randint 100000 999999 ;; ret (str_of_int n).

Definition generate_expiry_date (birth_year : N) : Rand str :=
  k <- randint 18 50 ;;
  let issue_year := (birth_year + k)%N in
  let expiry_year := (issue_year + 15)%N in
  month <- randint 1 12 ;;
  day <- randint 1 28 ;;
  ret (fmt_02d day ++ lit " " ++ fmt_02d month ++ lit " " ++ str_of_int expiry_year).

End Engine.

(* ------------------------------------------------------------------ *)
(** ** The template assembler *)

(** An entity [[start, end, label, value]]. *)
Record entity := Entity {
  e_start : nat;
  e_end : nat;
  e_label : str;
  e_value : str
}.

(** The local variables of a format routine that the statements update. *)
Record locals := {
  parts : list str;
  entities : list entity;
  pos : nat
}.

Definition Gen (A : Type) := M (rng * locals) A.

(** A call that only draws from the random source. *)
Definition rand {A} (m : Rand A) : Gen A :=
  fun s => match m (fst s) with
           | Some (a, r') => Some (a, (r', snd s))
           | None => None
           end.

(** Reading [pos]. *)
Definition get_pos : Gen nat := fun s => Some (pos (snd s), s).

(** [parts.append(x)] *)
Definition parts_append (x : str) : Gen unit :=
  fun s => Some (tt, (fst s, {| parts := parts (snd s) ++ [x];
                                entities := entities (snd s);
                                pos := pos (snd s) |})).

(** [pos += n] *)
Definition pos_add (n : nat) : Gen unit :=
  fun s => Some (tt, (fst s, {| parts := parts (snd s);
                                entities := entities (snd s);
                                pos := pos (snd s) + n |})).

(** [entities.append([start, end, label, value])] *)
Definition entities_append (e : entity) : Gen unit :=
  fun s => Some (tt, (fst s, {| parts := parts (snd s);
                                entities := entities (snd s) ++ [e];
                                pos := pos (snd s) |})).

(** [text = "".join(parts); return text, entities] *)
Definition return_sample : Gen (str * list entity) :=
  fun s => Some ((join (parts (snd s)), entities (snd s)), s).

(** A call of a format routine: it starts from
    [parts = []; entities = []; pos = 0] and its locals die with it. *)
Definition call {A} (body : Gen A) : Rand A :=
  fun r => match body (r, {| parts := []; entities := []; pos := 0 |}) with
           | Some (a, s') => Some (a, fst s')
           | None => None
           end.

Section Assembler.
Context {RT : Runtime}.

Definition header_variants : list str :=
  [ lit "RÉPUBLIQUE FRANÇAISE";
    lit "FRANÇAISE RÉPUBLIQUE";
    lit "RÉPUBLIQUEFRANÇAISE" ].

(** [for i, gname in enumerate(given_names_list): ...], the loop both
    format routines run over the given names; [i] is the index of the
    head of the list. *)
Fixpoint given_names_loop (i : N) (given_names_list : list str) : Gen unit :=
  match given_names_list with
  | [] => ret tt
  | gname :: rest =>
      when (0 <? i)%N (parts_append (lit ", ") ;;; pos_add 2) ;;;
      gname_start <- get_pos ;;
      parts_append gname ;;;
      pos_add (length gname) ;;;
      p <- get_pos ;;
      entities_append (Entity gname_start p (lit "Surname_" ++ str_of_int (i + 1)) gname) ;;;
      given_names_loop (i + 1) rest
  end.

Definition generate_simple_format_body (self : FakerIDGenerator)
  : Gen (str * list entity) :=
  (* Header variations with Country entity *)
  header <- rand (choice header_variants) ;;
  header_noisy <- rand (apply_noise self header true) ;;
  country_start <- get_pos ;;
  parts_append (header_noisy ++ lit " ") ;;;
  pos_add (length header_noisy + 1) ;;;
  entities_append (Entity country_start (country_start + length header_noisy)
                          (lit "Country") header_noisy) ;;;
  (* Document type *)
  let doc_type := lit "CARTE NATIONALE D'IDENTITÉ" in
  doc_type_noisy <- rand (apply_noise self doc_type true) ;;
  doc_start <- get_pos ;;
  parts_append doc_type_noisy ;;;
  pos_add (length doc_type_noisy) ;;;
  p <- get_pos ;;
  entities_append (Entity doc_start p (lit "DOC_TYPE") doc_type_noisy) ;;;
  (* ID Number *)
  let id_label := lit " N° : " in
  id_label_noisy <- rand (apply_noise self id_label true) ;;
  parts_append id_label_noisy ;;;
  pos_add (length id_label_noisy) ;;;
  id_num <- rand generate_id_number ;;
  id_start <- get_pos ;;
  parts_append id_num ;;;
  pos_add (length id_num) ;;;
  p <- get_pos ;;
  entities_append (Entity id_start p (lit "DNI") id_num) ;;;
  (* Nationality (label) *)
  let nat_label := lit " Nationalité " in
  nat_label_noisy <- rand (apply_field_typo self nat_label) ;;
  parts_append nat_label_noisy ;;;
  pos_add (length nat_label_noisy) ;;;
  (* Nationality value (annotated entity) *)
  let nationality := lit "Française" in
  nat_start <- get_pos ;;
  parts_append (nationality ++ lit " ") ;;;
  pos_add (length nationality + 1) ;;;
  p <- get_pos ;;
  entities_append (Entity nat_start (p - 1) (lit "Nationality") nationality) ;;;
  (* Pre-generate names to calculate 2-letter code *)
  surname <- rand (generate_name self) ;;
  given_names_list <- rand (generate_given_names self None) ;;
  (* Dynamic 2-letter code based on first letters of surname and first given name *)
  let code_prob := dict_get (simple_probs self) (lit "two_letter_code") f_0_5 in
  u <- rand random_random ;;
  when (flt u code_prob)
    (let first_letter_surname :=
       match surname with c :: _ => [c] | [] => lit "A" end in
     first_letter_given <-
       match given_names_list with
       | [] => ret (lit "A")
       | g :: _ => match g with c :: _ => ret [c] | [] => raise end
       end ;;
     let code := first_letter_surname ++ first_letter_given in
     parts_append (code ++ lit " ") ;;;
     pos_add (length (code ++ lit " "))) ;;;
  (* Signature noise (before NOM like in bilingual format) *)
  let noise_prob := dict_get (simple_probs self) (lit "signature_noise_before_nom") f_0_2 in
  u <- rand random_random ;;
  when (flt u noise_prob)
    (let simple_noise_patterns :=
       dict_get (signature_noise self) (lit "simple_format")
         [ (lit "RF ", f_0_3); (lit "3F ", f_0_2); (lit "RERE ", f_0_1);
           (lit "none", f_0_4) ] in
     chosen_noise <- rand (_weighted_choice simple_noise_patterns) ;;
     when (negb (str_eqb chosen_noise (lit "none")))
       (parts_append chosen_noise ;;;
        pos_add (length chosen_noise))) ;;;
  (* Name (using Faker) *)
  let name_label := lit "Nom : " in
  name_label_noisy <- rand (apply_noise self name_label true) ;;
  parts_append name_label_noisy ;;;
  pos_add (length name_label_noisy) ;;;
  name_start <- get_pos ;;
  parts_append surname ;;;
  pos_add (length surname) ;;;
  p <- get_pos ;;
  entities_append (Entity name_start p (lit "Name") surname) ;;;
  (* Optional social status fields (Epouse, Veuve, Nom d'usage) *)
  let social_status_prob := dict_get (simple_probs self) (lit "social_status_fields") f_0_3 in
  u <- rand random_random ;;
  when (flt u social_status_prob)
    (let social_status_types := [ lit "Epouse: "; lit "Veuve: "; lit "Nom d'usage: " ] in
     social_label <- rand (choice social_status_types) ;;
     social_label_noisy <- rand (apply_field_typo self social_label) ;;
     parts_append (lit " " ++ social_label_noisy) ;;;
     pos_add (length (lit " " ++ social_label_noisy)) ;;;
     alt_name <- rand (generate_name self) ;;
     alt_start <- get_pos ;;
     (* Handle hyphenated names like "BERTAU- PETE" *)
     let hyphen_prob := dict_get (simple_probs self) (lit "hyphenated_alt_names") f_0_3 in
     u <- rand random_random ;;
     alt_name <- (if flt u hyphen_prob
                  then second <- rand (generate_name self) ;;
                       ret (alt_name ++ lit "- " ++ second)
                  else ret alt_name) ;;
     parts_append alt_name ;;;
     pos_add (length alt_name) ;;;
     p <- get_pos ;;
     entities_append (Entity alt_start p (lit "Alt_name") alt_name)) ;;;
  (* Given names (using pre-generated list) *)
  let prenom_label := lit "Prénom(s)" in
  prenom_label_noisy <- rand (apply_field_typo self prenom_label) ;;
  let prenom_full := lit " " ++ prenom_label_noisy ++ lit ": " in
  parts_append prenom_full ;;;
  pos_add (length prenom_full) ;;;
  given_names_loop 0 given_names_list ;;;
  (* Gender *)
  let sex_label := lit " Sexe : " in
  sex_label_noisy <- rand (apply_field_typo self sex_label) ;;
  parts_append sex_label_noisy ;;;
  pos_add (length sex_label_noisy) ;;;
  gender <- rand (choice [lit "M"; lit "F"]) ;;
  gender_start <- get_pos ;;
  parts_append gender ;;;
  pos_add 1 ;;;
  p <- get_pos ;;
  entities_append (Entity gender_start p (lit "Gender") gender) ;;;
  (* Birth date (using Faker) *)
  let ne_label := lit "Né(e)" in
  ne_label_noisy <- rand (apply_field_typo self ne_label) ;;
  let ne_full := lit " " ++ ne_label_noisy ++ lit " le : " in
  parts_append ne_full ;;;
  pos_add (length ne_full) ;;;
  birth_date <- rand (generate_date self) ;;
  birth_date_start <- get_pos ;;
  parts_append birth_date ;;;
  pos_add (length birth_date) ;;;
  p <- get_pos ;;
  entities_append (Entity birth_date_start p (lit "Date of birthday") birth_date) ;;;
  (* Birth place (using Faker) *)
  let birth_place_prob := dict_get (simple_probs self) (lit "birth_place") f_0_8 in
  u <- rand random_random ;;
  when (flt u birth_place_prob)
    (let a_label := lit " à " in
     parts_append a_label ;;;
     pos_add (length a_label) ;;;
     city <- rand (generate_city self) ;;
     city_start <- get_pos ;;
     parts_append city ;;;
     pos_add (length city) ;;;
     p <- get_pos ;;
     entities_append (Entity city_start p (lit "Birth_place") city)) ;;;
  (* Height *)
  let height_prob := dict_get (simple_probs self) (lit "height") f_0_6 in
  u <- rand random_random ;;
  when (flt u height_prob)
    (let taille_label := lit "Taille" in
     taille_label_noisy <- rand (apply_noise self taille_label true) ;;
     let taille_full := lit " " ++ taille_label_noisy ++ lit " : " in
     parts_append taille_full ;;;
     pos_add (length taille_full) ;;;
     height <- rand generate_height ;;
     height_start <- get_pos ;;
     parts_append height ;;;
     pos_add (length height) ;;;
     p <- get_pos ;;
     entities_append (Entity height_start p (lit "Height") height)) ;;;
  (* Optional signature *)
  let signature_prob := dict_get (simple_probs self) (lit "optional_signature") f_0_4 in
  u <- rand random_random ;;
  when (flt u signature_prob)
    (let sig_label := lit "Signature du titulaire" in
     sig_label_noisy <- rand (apply_noise self sig_label true) ;;
     let sig_full := lit " " ++ sig_label_noisy ++ lit " :" in
     parts_append sig_full ;;;
     pos_add (length sig_full)) ;;;
  return_sample.

Definition generate_simple_format (self : FakerIDGenerator) : Rand (str * list entity) :=
  call (generate_simple_format_body self).

Definition generate_bilingual_format_body (self : FakerIDGenerator)
  : Gen (str * list entity) :=
  (* Header with Country entity - with variations like simple format *)
  header <- rand (choice header_variants) ;;
  header_noisy <- rand (apply_noise self header true) ;;
  country_start <- get_pos ;;
  parts_append header_noisy ;;;
  pos_add (length header_noisy) ;;;
  p <- get_pos ;;
  entities_append (Entity country_start p (lit "Country") header_noisy) ;;;
  (* Add " FR " after country *)
  parts_append (lit " FR ") ;;;
  pos_add 4 ;;;
  (* Document type *)
  let doc_type := lit "CARTE NATIONALE D'IDENTITÉ / IDENTITY CARD" in
  doc_type_noisy <- rand (apply_noise self doc_type true) ;;
  doc_start <- get_pos ;;
  parts_append doc_type_noisy ;;;
  pos_add (length doc_type_noisy) ;;;
  p <- get_pos ;;
  entities_append (Entity doc_start p (lit "DOC_TYPE") doc_type_noisy) ;;;
  (* Name (using Faker) - default to "Sumame" (most common OCR error) *)
  field_label <- rand (apply_field_typo self (lit " NOM/Sumame ")) ;;
  parts_append field_label ;;;
  pos_add (length field_label) ;;;
  surname <- rand (generate_name self) ;;
  name_start <- get_pos ;;
  parts_append surname ;;;
  pos_add (length surname) ;;;
  p <- get_pos ;;
  entities_append (Entity name_start p (lit "Name") surname) ;;;
  (* Given names *)
  given_label <- rand (apply_field_typo self (lit " Prénoms / Given names ")) ;;
  parts_append given_label ;;;
  pos_add (length given_label) ;;;
  count <- rand (randint 1 2) ;;
  given_names_list <- rand (generate_given_names self (Some count)) ;;
  given_names_loop 0 given_names_list ;;;
  (* Gender label (without value - value comes after birth date) *)
  gender_label <- rand (apply_field_typo self (lit " SEXE /Sex ")) ;;
  parts_append gender_label ;;;
  pos_add (length gender_label) ;;;
  (* Nationality label (but value comes later after date) *)
  nat_label <- rand (apply_field_typo self (lit " NATIONALITÉ / Nationality ")) ;;
  parts_append nat_label ;;;
  pos_add (length nat_label) ;;;
  (* Birth date label *)
  let date_label := lit "DATE DE NAISS. / Date of birth " in
  parts_append date_label ;;;
  pos_add (length date_label) ;;;
  (* Gender value (appears before nationality value) *)
  gender <- rand (choice [lit "M"; lit "F"]) ;;
  gender_start <- get_pos ;;
  parts_append (gender ++ lit " ") ;;;
  pos_add 2 ;;;
  entities_append (Entity gender_start (gender_start + 1) (lit "Gender") gender) ;;;
  (* Nationality value (appears after gender, before the date) *)
  nationality <- rand (choice [lit "FRA"; lit "ESP"; lit "PRT"; lit "ITA";
                               lit "BEL"; lit "MAR"; lit "TUN"; lit "DZA"]) ;;
  nat_start <- get_pos ;;
  parts_append (nationality ++ lit " ") ;;;
  pos_add (length nationality + 1) ;;;
  p <- get_pos ;;
  entities_append (Entity nat_start (p - 1) (lit "Nationality") nationality) ;;;
  (* Birth date value *)
  birth_date <- rand (generate_date self) ;;
  birth_date_start <- get_pos ;;
  parts_append birth_date ;;;
  pos_add (length birth_date) ;;;
  p <- get_pos ;;
  entities_append (Entity birth_date_start p (lit "Date of birthday") birth_date) ;;;
  (* Birth place (using Faker) *)
  let birth_place_prob := dict_get (bilingual_probs self) (lit "birth_place") f_0_9 in
  u <- rand random_random ;;
  when (flt u birth_place_prob)
    (let birth_place_label := lit " LIEU DE NAISSANCE / Place of birth " in
     parts_append birth_place_label ;;;
     pos_add (length birth_place_label) ;;;
     city <- rand (generate_city self) ;;
     city_start <- get_pos ;;
     parts_append city ;;;
     pos_add (length city) ;;;
     p <- get_pos ;;
     entities_append (Entity city_start p (lit "Birth_place") city)) ;;;
  (* Guardian name (married name) - appears randomly for married individuals *)
  let alt_name_prob := dict_get (bilingual_probs self) (lit "alt_name_married") f_0_3 in
  u <- rand random_random ;;
  when (flt u alt_name_prob)
    (let guardian_label := lit " NOM D'USAGE / Alternate name ép. " in
     guardian_label_noisy <- rand (apply_field_typo self guardian_label) ;;
     parts_append guardian_label_noisy ;;;
     pos_add (length guardian_label_noisy) ;;;
     guardian_name <- rand (generate_name self) ;;
     guardian_start <- get_pos ;;
     parts_append guardian_name ;;;
     pos_add (length guardian_name) ;;;
     p <- get_pos ;;
     entities_append (Entity guardian_start p (lit "Alt_name") guardian_name)) ;;;
  (* Document number *)
  let doc_num_label := lit " N° DU DOCUMENT / Document No " in
  parts_append doc_num_label ;;;
  pos_add (length doc_num_label) ;;;
  id_num <- rand generate_id_number ;;
  id_start <- get_pos ;;
  parts_append id_num ;;;
  pos_add (length id_num) ;;;
  p <- get_pos ;;
  entities_append (Entity id_start p (lit "DNI") id_num) ;;;
  (* Expiry date *)
  let expiry_prob := dict_get (bilingual_probs self) (lit "expiry_date") f_0_8 in
  u <- rand random_random ;;
  when (flt u expiry_prob)
    (let expiry_label := lit " DATE D'EXPIR. / Expiry date " in
     parts_append expiry_label ;;;
     pos_add (length expiry_label) ;;;
     expiry <- rand (generate_expiry_date 1980) ;;
     expiry_start <- get_pos ;;
     parts_append expiry ;;;
     pos_add (length expiry) ;;;
     p <- get_pos ;;
     entities_append (Entity expiry_start p (lit "Validity_date") expiry)) ;;;
  (* Support number with optional signature noise *)
  let support_prob := dict_get (bilingual_probs self) (lit "support_number") f_0_4 in
  u <- rand random_random ;;
  when (flt u support_prob)
    (parts_append (lit " ") ;;;
     pos_add 1 ;;;
     (* Random signature noise (sometimes appears before support number) *)
     let bilingual_noise_patterns :=
       dict_get (signature_noise self) (lit "bilingual_format")
         [ (lit "MA ", f_0_3); (lit "random_2letter", f_0_2);
           (lit "random_digits", f_0_1); (lit "none", f_0_4) ] in
     chosen_noise <- rand (_weighted_choice bilingual_noise_patterns) ;;
     (if str_eqb chosen_noise (lit "MA ") then
        parts_append (lit "MA ") ;;;
        pos_add 3
      else if str_eqb chosen_noise (lit "random_2letter") then
        noise <- rand (choice [lit "AB "; lit "BA "; lit "CA "; lit "DA ";
                               lit "KA "; lit "RA "; lit "SA "]) ;;
        parts_append noise ;;;
        pos_add 3
      else if str_eqb chosen_noise (lit "random_digits") then
        noise_len <- rand (choice [2; 3]) ;;
        ds <- rand (random_digits noise_len) ;;
        let noise := join ds ++ lit " " in
        parts_append noise ;;;
        pos_add (length noise)
      else ret tt (* no noise (none option) *)) ;;;
     support <- rand generate_support_number ;;
     support_start <- get_pos ;;
     parts_append support ;;;
     pos_add (length support) ;;;
     p <- get_pos ;;
     entities_append (Entity support_start p (lit "Support_number") support)) ;;;
  return_sample.

Definition generate_bilingual_format (self : FakerIDGenerator)
  : Rand (str * list entity) :=
  call (generate_bilingual_format_body self).

End Assembler.

(** The given names a call of [generate_simple_format] generates: the
    calls the routine makes before it pre-generates the names, in its
    order, each on the draws the call before it has left, then
    [generate_given_names()]. *)
Definition given_names_of_run `{Runtime} (self : FakerIDGenerator) : Rand (list str) :=
  header <- choice header_variants ;;
  apply_noise self header true ;;;
  apply_noise self (lit "CARTE NATIONALE D'IDENTITÉ") true ;;;
  apply_noise self (lit " N° : ") true ;;;
  generate_id_number ;;;
  apply_field_typo self (lit " Nationalité ") ;;;
  generate_name self ;;;
  generate_given_names self None.

(* ------------------------------------------------------------------ *)
(** ** Vocabulary of the properties *)

(** The mass the loop of [_weighted_choice] has accumulated after [n]
    options, started from [c]; [cumulative] is the loop's own start, 0. *)
Definition cumulative_from `{Runtime} (c : Q) (items : dict Q) (n : nat) : Q :=
  fold_left fadd (map snd (firstn n items)) c.

Definition cumulative `{Runtime} (table : dict Q) (n : nat) : Q :=
  cumulative_from 0 table n.

(** Weakest precondition of a computation, for a postcondition on the
    results it returns (a raised exception returns none). *)
Definition wp {S A} (m : M S A) (Q : A -> S -> Prop) (s : S) : Prop :=
  match m s with
  | Some (a, s') => Q a s'
  | None => True
  end.

(** An entity bounds its value in [text]. *)
Definition entity_ok (text : str) (e : entity) : Prop :=
  e_start e <= e_end e /\ e_end e <= length text /\
  slice text (e_start e) (e_end e) = e_value e.

(** The entities lie left to right between [lo] and [hi] without overlap. *)
Fixpoint chain (lo : nat) (es : list entity) (hi : nat) : Prop :=
  match es with
  | [] => lo <= hi
  | e :: es' => lo <= e_start e /\ e_start e <= e_end e /\ chain (e_end e) es' hi
  end.

(** What holds of the locals of a format routine between two groups of
    statements: the cursor is the length of the text so far, every entity
    bounds its value in it, and the entities are in text order, all before
    the cursor. *)
Definition Inv (l : locals) : Prop :=
  pos l = length (join (parts l)) /\
  Forall (entity_ok (join (parts l))) (entities l) /\
  chain 0 (entities l) (pos l).

(** An entity of the given-names loop: its label begins [Surname_]. *)
Definition is_given_name (e : entity) : bool :=
  starts_with (lit "Surname_") (e_label e).

Definition no_given_name (es : list entity) : Prop :=
  Forall (fun e => is_given_name e = false) es.

(** The entities the given-names loop records over [names] from the cursor
    [p], when the first of them has index [i]. *)
Fixpoint surname_entities (i : N) (p : nat) (names : list str) : list entity :=
  match names with
  | [] => []
  | gname :: rest =>
      let s := if (0 <? i)%N then p + 2 else p in
      Entity s (s + length gname) (lit "Surname_" ++ str_of_int (i + 1)) gname
      :: surname_entities (i + 1) (s + length gname) rest
  end.

(** The text the given-names loop appends. *)
Fixpoint names_text (i : N) (names : list str) : str :=
  match names with
  | [] => []
  | gname :: rest =>
      (if (0 <? i)%N then lit ", " else []) ++ gname ++ names_text (i + 1) rest
  end.

(** [Inv] together with a property of the entities that survives recording
    an entity that is not a given name, and a property of the text that
    survives appending. *)
Definition InvE (P : list entity -> Prop) (T : str -> Prop) (l : locals) : Prop :=
  Inv l /\ P (entities l) /\ T (join (parts l)).

Definition stable (P : list entity -> Prop) (T : str -> Prop) : Prop :=
  (forall es e, P es -> is_given_name e = false -> P (es ++ [e])) /\
  (forall t x, T t -> T (t ++ x)).

(** The postcondition of a group of statements that restores [I]. *)
Definition keeps (I : locals -> Prop) {A} : A -> rng * locals -> Prop :=
  fun _ s' => I (snd s').

(** After the loop: the entities are [pre], then the loop's, then entities
    that are not given names; the text is [before], then the loop's, then
    more. *)
Definition names_recorded (pre given es : list entity) : Prop :=
  exists post, es = pre ++ given ++ post /\ no_given_name post.

Definition names_written (before written text : str) : Prop :=
  exists after, text = before ++ written ++ after.

(** What a sample shows of the given names it was built from. *)
Definition shows_given_names (names : list str) (text : str) (ents : list entity)
  : Prop :=
  exists pre post before after,
    ents = pre ++ surname_entities 0 (length before) names ++ post /\
    no_given_name pre /\ no_given_name post /\
    text = before ++ names_text 0 names ++ after.

(** No condition on the entities, none on the text. *)
Definition any_entities : list entity -> Prop := fun _ => True.
Definition any_text : str -> Prop := fun _ => True.

(** The first character of a string is not whitespace. *)
Definition no_leading_space (s : str) : Prop :=
  match s with
  | c :: _ => isspace c = false
  | [] => True
  end.

(** The last character of a string is not whitespace. *)
Definition no_trailing_space (s : str) : Prop := no_leading_space (rev s).

(** The start, end and label of the entities of a sample, when one is
    returned. *)
Definition spans (sample : option (str * list entity * rng))
  : option (list (nat * nat * str)) :=
  option_map (fun x => map (fun e => (e_start e, e_end e, e_label e)) (snd (fst x)))
             sample.

(** The text of a sample, when one is returned. *)
Definition text_of (sample : option (str * list entity * rng)) : option str :=
  option_map (fun x => fst (fst x)) sample.

(** *** City names *)

(** The characters of [s] at the positions [keep] marks. *)
Fixpoint select (keep : list bool) (s : str) : str :=
  match keep, s with
  | b :: keep', c :: s' => if b then c :: select keep' s' else select keep' s'
  | _, _ => []
  end.

(** The substrings [generate_city] deletes from the provider's name. *)
Definition city_affixes : list str := [lit "VILLE"; lit "CITY"; lit "SAN "].

(** [keep] marks no character of the occurrence of [old] that follows
    [a]. *)
Definition deleted (keep : list bool) (a old : str) : Prop :=
  exists ka kb, keep = ka ++ repeat false (length old) ++ kb /\ length ka = length a.

(** [keep] marks every character of the occurrence of [q] between [a] and
    [b]. *)
Definition intact (keep : list bool) (a q b : str) : Prop :=
  exists ka kb, keep = ka ++ repeat true (length q) ++ kb /\
                length ka = length a /\ length kb = length b.

(** The positions [s.replace(old, "")] keeps, for a non-empty [old]:
    [replace_scan] with a mark for each character. *)
Fixpoint replace_mask (old : str) (skip : nat) (s : str) : list bool :=
  match s with
  | [] => []
  | c :: s' =>
      match skip with
      | S k => false :: replace_mask old k s'
      | O => if starts_with old s
             then false :: replace_mask old (length old - 1) s'
             else true :: replace_mask old 0 s'
      end
  end.

(** The marks [k2], given for the characters [k1] keeps, as marks of all
    the characters. *)
Fixpoint compose (k1 k2 : list bool) : list bool :=
  match k1 with
  | [] => []
  | true :: k1' =>
      match k2 with
      | b :: k2' => b :: compose k1' k2'
      | [] => false :: compose k1' []
      end
  | false :: k1' => false :: compose k1' k2
  end.

(** The marks after one more pass of [replace] over what [keep] keeps of
    [s]. *)
Definition pass (old : str) (keep : list bool) (s : str) : list bool :=
  compose keep (replace_mask old 0 (select keep s)).

Definition count_true (keep : list bool) : nat := length (filter (fun b => b) keep).

(** No occurrence of [old] starts before an occurrence of [q] and runs
    into it. *)
Definition no_overlap (old q : str) : Prop :=
  forall x y, x <> [] -> length x < length old -> starts_with old (x ++ q ++ y) = false.

(** No occurrence of [old] starts inside an occurrence of [q]. *)
Definition no_start_inside (old q : str) : Prop :=
  forall d y, d < length q -> starts_with old (skipn d q ++ y) = false.

(** What is claimed of a city name [generate_city] returns: at most 20
    characters, no leading whitespace, no trailing whitespace unless the
    name was cut at 20 characters; and it is made of characters of the
    upper-cased name of a provider, in their order, none of them a
    character of an occurrence in that name of one of the three
    substrings. *)
Definition cleaned_city `{Runtime} (self : FakerIDGenerator) (result : str) : Prop :=
  length result <= 20 /\
  no_leading_space result /\
  (length result < 20 -> no_trailing_space result) /\
  exists faker raw keep,
    In faker (fakers self) /\
    let name := str_upper (city faker raw) in
    length keep = length name /\
    result = select keep name /\
    forall a old b, In old city_affixes -> name = a ++ old ++ b -> deleted keep a old.

(** The value of [e], if [e] is a birth place, is a city [generate_city]
    returns. *)
Definition from_city `{Runtime} (self : FakerIDGenerator) (e : entity) : Prop :=
  e_label e = lit "Birth_place" ->
  exists r1 r2, generate_city self r1 = Some (e_value e, r2).

(* ------------------------------------------------------------------ *)
(** ** Inputs of the examples *)

(** [str.upper()] on text whose only cased characters are ASCII. *)
Definition ascii_upper (s : str) : str :=
  map (fun c => if (97 <=? c)%N && (c <=? 122)%N then (c - 32)%N else c) s.

(** A runtime whose float addition is exact.  It is binary64 addition on
    every sum the examples evaluate: their probabilities are dyadic. *)
Definition exact_sums : Runtime := {| fadd := Qplus; str_upper := ascii_upper |}.

(** The tape whose every raw draw is zero: [random.random()] returns 0.0,
    [random.choice] the first element, [random.randint(a, b)] returns [a]. *)
Definition zero_tape : rng := fun _ => 0%N.

(** A tape given by its first draws, zero afterwards. *)
Definition tape_of (draws : list N) : rng := fun i => nth i draws 0%N.

(** The raw draw for which [random.random()] returns [n/8]. *)
Definition eighths (n : N) : N := (n * 1125899906842624)%N.

(** A provider with two surnames, two given names and one city. *)
Definition demo_faker : Faker :=
  {| last_name := fun k => if N.even k then lit "Martin" else lit "Durand";
     first_name := fun k => if N.even k then lit "Anne" else lit "Luc";
     city := fun _ => lit "Smithville";
     date_of_birth := fun _ _ _ => {| day := 3; month := 11; year := 1990 |} |}.

(** A provider whose city name lets a deletion join two pieces. *)
Definition joining_faker : Faker :=
  {| last_name := fun _ => lit "Martin";
     first_name := fun _ => lit "Anne";
     city := fun _ => lit "Vilvillele";
     date_of_birth := fun _ _ _ => {| day := 3; month := 11; year := 1990 |} |}.

(** A generator over one provider with the given noise switch, the seven
    probabilities in the order of [_set_zero_noise], a character table and
    a field-typo table; the other tables are empty, the filler pool is the
    default one, the field probabilities are the routine's defaults and the
    signature-noise tables have dyadic weights. *)
Definition demo_generator (faker : Faker) (enabled : bool)
    (p_global p_word p_spacing p_sub p_extra p_missing p_double : Q)
    (subs : dict str) (typos : dict (list str)) : FakerIDGenerator :=
  {| noise_enabled := enabled;
     global_prob := p_global;
     word_noise_prob := p_word;
     spacing_noise_prob := p_spacing;
     char_sub_prob := p_sub;
     extra_char_prob := p_extra;
     missing_char_prob := p_missing;
     double_char_prob := p_double;
     fakers := [faker];
     word_replacements := [];
     spacing_errors := [];
     char_subs := subs;
     extra_chars := [lit " "; lit "."; lit ","; lit "-"];
     field_typos := typos;
     simple_probs := [];
     bilingual_probs := [];
     signature_noise :=
       [ (lit "simple_format", [(lit "RF ", 1 # 4); (lit "none", 3 # 4)]);
         (lit "bilingual_format", [(lit "MA ", 1 # 4); (lit "none", 3 # 4)]) ] |}.

(** Every character substituted and duplicated, none dropped, none inserted. *)
Definition substitute_and_double : FakerIDGenerator :=
  demo_generator demo_faker true 1 0 0 1 0 0 1 [(lit "O", lit "0")] [].

(** Noise nominally enabled, every probability zero. *)
Definition enabled_but_zero : FakerIDGenerator :=
  demo_generator demo_faker true 0 0 0 0 0 0 0 [(lit "O", lit "0")] [].

(** A field-typo table in which the key [Sex] occurs inside the key
    [ SEXE /Sex ]. *)
Definition overlapping_typos : dict (list str) :=
  [ (lit "Sex", [lit "5ex"]);
    (lit " SEXE /Sex ", [lit " SEXE /Sex "; lit " SEXE/Sex "; lit " 5EXE /Sex "]) ].

Definition typo_generator : FakerIDGenerator :=
  demo_generator demo_faker true (1 # 8) (1 # 8) (1 # 16) (1 # 16) (1 # 64) (1 # 64) (1 # 64)
    [] overlapping_typos.

(** Dyadic probabilities close to the source's default (medium) ones. *)
Definition medium_like : FakerIDGenerator :=
  demo_generator demo_faker true
    (1 # 8) (1 # 8) (1 # 16) (1 # 16) (1 # 64) (1 # 64) (1 # 64) [] [].

(** The clean preset over a configuration that lists a typo for a label. *)
Definition clean_with_typos : FakerIDGenerator :=
  _set_zero_noise
    (demo_generator demo_faker true
       (1 # 8) (1 # 8) (1 # 16) (1 # 16) (1 # 64) (1 # 64) (1 # 64) []
       [(lit "Prénom(s)", [lit "Prenom(s)"])]).

(** Noise disabled. *)
Definition quiet : FakerIDGenerator :=
  demo_generator demo_faker false 0 0 0 0 0 0 0 [] [].

Definition joining_generator : FakerIDGenerator :=
  demo_generator joining_faker false 0 0 0 0 0 0 0 [] [].

(** A tape that repeats the given draws. *)
Definition cycle_tape (draws : list N) : rng :=
  fun i => nth (i mod length draws) draws 0%N.

(** The sample [generate_simple_format] builds for [quiet] on the tape
    that repeats the draws 2, 5, 8. *)
Definition three_names_text : str :=
  lit "RÉPUBLIQUEFRANÇAISE CARTE NATIONALE D'IDENTITÉ N° : I2FIC58C5 Nationalité Française MA RF Nom : MARTIN Nom d'usage: MARTIN- MARTIN Prénom(s): ANNE, ANNE, LUC Sexe : M Né(e) le : 03.11.1990 à SMITH Taille : 152m Signature du titulaire :".

Definition three_names_entities : list entity :=
  [ Entity 0 19 (lit "Country") (lit "RÉPUBLIQUEFRANÇAISE");
    Entity 20 46 (lit "DOC_TYPE") (lit "CARTE NATIONALE D'IDENTITÉ");
    Entity 52 61 (lit "DNI") (lit "I2FIC58C5");
    Entity 74 83 (lit "Nationality") (lit "Française");
    Entity 96 102 (lit "Name") (lit "MARTIN");
    Entity 116 130 (lit "Alt_name") (lit "MARTIN- MARTIN");
    Entity 142 146 (lit "Surname_1") (lit "ANNE");
    Entity 148 152 (lit "Surname_2") (lit "ANNE");
    Entity 154 157 (lit "Surname_3") (lit "LUC");
    Entity 165 166 (lit "Gender") (lit "M");
    Entity 178 188 (lit "Date of birthday") (lit "03.11.1990");
    Entity 191 196 (lit "Birth_place") (lit "SMITH");
    Entity 206 210 (lit "Height") (lit "152m") ].

(* ------------------------------------------------------------------ *)
(** ** The batch orchestrator *)

Definition f_0_7 : Q := 3152519739159347 # 4503599627370496.

Section Batch.
Context {RT : Runtime}.

(** [generate_one]; the dictionary [{"text": text, "entities": entities}]
    is the pair. *)
Definition generate_one (self : FakerIDGenerator) : Rand (str * list entity) :=
  u <- random_random ;;
  if flt u f_0_7
  then generate_simple_format self
  else generate_bilingual_format self.

(** [generate_batch]: [[self.generate_one() for _ in range(count)]]; a
    negative [count] gives an empty range. *)
Definition generate_batch (self : FakerIDGenerator) (count : Z)
  : Rand (list (str * list entity)) :=
  repeatM (Z.to_nat count) (generate_one self).

End Batch.

(* ------------------------------------------------------------------ *)
(** ** The verifier, [verify_positions.py] *)

(** An entity as the verifier reads it from JSON: its offsets are any
    integers. *)
Definition json_entity : Type := Z * Z * str * str.

(** One sample as the verifier reads it: [item["text"]], [item["entities"]]. *)
Definition json_item : Type := str * list json_entity.

(** A slice bound adjusted as Python does for a sequence of length [n]: a
    negative bound counts from the end, and the result is clipped to
    [0..n]. *)
Definition adjust_bound (n i : Z) : Z :=
  if (i <? 0)%Z then Z.max 0 (i + n) else Z.min i n.

(** [text[start:end]] for any integers. *)
Definition py_slice (text : str) (start stop : Z) : str :=
  let n := Z.of_nat (length text) in
  slice text (Z.to_nat (adjust_bound n start)) (Z.to_nat (adjust_bound n stop)).

(** The inner loop: for each entity, [total += 1] and, when
    [text[start:end] != expected], [errors += 1].  The counters are
    [(errors, total)]. *)
Fixpoint verify_entities (text : str) (entities : list json_entity)
    (counters : nat * nat) : nat * nat :=
  match entities with
  | [] => counters
  | (start, stop, label, expected) :: rest =>
      let '(errors, total) := counters in
      let total := total + 1 in
      let actual := py_slice text start stop in
      let errors := if str_eqb actual expected then errors else errors + 1 in
      verify_entities text rest (errors, total)
  end.

(** The outer loop over the items of the file. *)
Fixpoint verify_items (data : list json_item) (counters : nat * nat) : nat * nat :=
  match data with
  | [] => counters
  | (text, entities) :: rest =>
      verify_items rest (verify_entities text entities counters)
  end.

(** The script from [errors = 0; total = 0] on: the final counters. *)
Definition verify_positions (data : list json_item) : nat * nat :=
  verify_items data (0, 0).

(** The final message is the "PERFECT" one. *)
Definition verdict_perfect (data : list json_item) : bool :=
  fst (verify_positions data) =? 0.

(** What [json.dump] writes for a sample of the generator and [json.load]
    reads back: the offsets as integers, the strings as they are. *)
Definition to_json_item (sample : str * list entity) : json_item :=
  (fst sample,
   map (fun e => (Z.of_nat (e_start e), Z.of_nat (e_end e), e_label e, e_value e))
       (snd sample)).

(* ------------------------------------------------------------------ *)
(** ** Loading the noise settings *)

(** The binary64 values of the default (medium) probabilities. *)
Definition f_0_15 : Q := 5404319552844595 # 36028797018963968.
Definition f_0_08 : Q := 5764607523034235 # 72057594037927936.
Definition f_0_05 : Q := 3602879701896397 # 72057594037927936.
Definition f_0_02 : Q := 5764607523034235 # 288230376151711744.
Definition f_0_015 : Q := 1080863910568919 # 72057594037927936.

(** [d.get(key, default)] for a key that is a field of a typed record. *)
Definition opt_get {A} (o : option A) (default : A) : A :=
  match o with Some a => a | None => default end.

(** The configuration is read as it is meant to be written: [enabled] and
    [use_custom] are JSON booleans, the probabilities are numbers. *)

(** One entry of [noise_presets]; a field is [None] when its key is absent.
    The keys are [enabled], [global_probability], [word_noise],
    [spacing_noise], [char_substitution], [char_extra], [char_missing],
    [char_double]. *)
Record Preset := {
  ps_enabled : option bool;
  ps_global_probability : option Q;
  ps_word_noise : option Q;
  ps_spacing_noise : option Q;
  ps_char_substitution : option Q;
  ps_char_extra : option Q;
  ps_char_missing : option Q;
  ps_char_double : option Q
}.

(** [custom_settings]; the keys are [use_custom], [global_probability],
    [word_noise_probability], [spacing_noise_probability],
    [character_substitution_probability], [extra_char_probability],
    [missing_char_probability], [double_char_probability]. *)
Record Custom := {
  cs_use_custom : option bool;
  cs_global_probability : option Q;
  cs_word_noise_probability : option Q;
  cs_spacing_noise_probability : option Q;
  cs_character_substitution_probability : option Q;
  cs_extra_char_probability : option Q;
  cs_missing_char_probability : option Q;
  cs_double_char_probability : option Q
}.

(** The part of [self.config] the noise loaders read; [None] is a missing
    key. *)
Record Config := {
  noise_presets : option (dict Preset);
  custom_settings : option Custom
}.

Definition empty_custom : Custom :=
  {| cs_use_custom := None;
     cs_global_probability := None;
     cs_word_noise_probability := None;
     cs_spacing_noise_probability := None;
     cs_character_substitution_probability := None;
     cs_extra_char_probability := None;
     cs_missing_char_probability := None;
     cs_double_char_probability := None |}.

(** Assigning the eight noise attributes of [self]. *)
Definition set_noise (self : FakerIDGenerator) (enabled : bool)
    (p_global p_word p_spacing p_sub p_extra p_missing p_double : Q)
  : FakerIDGenerator :=
  {| noise_enabled := enabled;
     global_prob := p_global;
     word_noise_prob := p_word;
     spacing_noise_prob := p_spacing;
     char_sub_prob := p_sub;
     extra_char_prob := p_extra;
     missing_char_prob := p_missing;
     double_char_prob := p_double;
     fakers := fakers self;
     word_replacements := word_replacements self;
     spacing_errors := spacing_errors self;
     char_subs := char_subs self;
     extra_chars := extra_chars self;
     field_typos := field_typos self;
     simple_probs := simple_probs self;
     bilingual_probs := bilingual_probs self;
     signature_noise := signature_noise self |}.

(** The seven assignments from a preset, with the defaults of the source. *)
Definition set_from_preset (self : FakerIDGenerator) (enabled : bool)
    (settings : Preset) : FakerIDGenerator :=
  set_noise self enabled
    (opt_get (ps_global_probability settings) f_0_15)
    (opt_get (ps_word_noise settings) f_0_1)
    (opt_get (ps_spacing_noise settings) f_0_08)
    (opt_get (ps_char_substitution settings) f_0_05)
    (opt_get (ps_char_extra settings) f_0_02)
    (opt_get (ps_char_missing settings) f_0_015)
    (opt_get (ps_char_double settings) f_0_02).

(** The loop of [_load_from_config] over the presets: the first preset
    whose [enabled] is true decides; [None] when the loop ends without a
    [return]. *)
Fixpoint first_enabled_preset (self : FakerIDGenerator) (presets : dict Preset)
  : option FakerIDGenerator :=
  match presets with
  | [] => None
  | (name, settings) :: rest =>
      if opt_get (ps_enabled settings) false
      then Some (if str_eqb name (lit "clean")
                 then _set_zero_noise self
                 else set_from_preset self true settings)
      else first_enabled_preset self rest
  end.

Definition _load_from_config (config : Config) (self : FakerIDGenerator)
  : FakerIDGenerator :=
  let custom := opt_get (custom_settings config) empty_custom in
  if opt_get (cs_use_custom custom) false then
    set_noise self true
      (opt_get (cs_global_probability custom) f_0_15)
      (opt_get (cs_word_noise_probability custom) f_0_1)
      (opt_get (cs_spacing_noise_probability custom) f_0_08)
      (opt_get (cs_character_substitution_probability custom) f_0_05)
      (opt_get (cs_extra_char_probability custom) f_0_02)
      (opt_get (cs_missing_char_probability custom) f_0_015)
      (opt_get (cs_double_char_probability custom) f_0_02)
  else
    let presets := opt_get (noise_presets config) [] in
    match first_enabled_preset self presets with
    | Some self' => self'
    | None =>
        (* Default to medium *)
        set_noise self true f_0_15 f_0_1 f_0_08 f_0_05 f_0_02 f_0_015 f_0_02
    end.

(** [noise_level and noise_level != "config"] *)
Definition names_a_preset (noise_level : option str) : bool :=
  match noise_level with
  | None => false
  | Some [] => false
  | Some level => negb (str_eqb level (lit "config"))
  end.

Definition _load_noise_settings (config : Config) (noise_level : option str)
    (self : FakerIDGenerator) : FakerIDGenerator :=
  if names_a_preset noise_level then
    let level := opt_get noise_level [] in
    let presets := opt_get (noise_presets config) [] in
    match dict_lookup presets level with
    | Some settings =>
        let enabled := if negb (str_eqb level (lit "clean"))
                       then opt_get (ps_enabled settings) true
                       else false in
        if str_eqb level (lit "clean")
        then _set_zero_noise (set_noise self enabled
                                (global_prob self) (word_noise_prob self)
                                (spacing_noise_prob self) (char_sub_prob self)
                                (extra_char_prob self) (missing_char_prob self)
                                (double_char_prob self))
        else set_from_preset self enabled settings
    | None => _load_from_config config self
    end
  else _load_from_config config self.

(* ------------------------------------------------------------------ *)
(** ** [__init__]: locales and probability tables *)

(** [d[k] = v]: a key keeps its place, a new key goes last. *)
Fixpoint dict_set {V} (d : dict V) (k : str) (v : V) : dict V :=
  match d with
  | [] => [(k, v)]
  | (k', v') :: d' =>
      if str_eqb k' k then (k', v) :: d' else (k', v') :: dict_set d' k v
  end.

Definition default_locales : list str :=
  [lit "fr_FR"; lit "ar_EG"; lit "pt_PT"; lit "zh_CN"; lit "es_ES"].

(** [self.locales = locales or [...]]: [None] and the empty list are false. *)
Definition init_locales (locales : option (list str)) : list str :=
  match locales with
  | None => default_locales
  | Some [] => default_locales
  | Some l => l
  end.

(** [self.fakers = {locale: Faker(locale) for locale in self.locales}], for
    a constructor [Faker_] of providers. *)
Definition init_fakers (Faker_ : str -> Faker) (locales : list str) : dict Faker :=
  fold_left (fun d locale => dict_set d locale (Faker_ locale)) locales [].

(** [list(self.fakers.values())] *)
Definition values {V} (d : dict V) : list V := map snd d.

(** A JSON value of the probability tables: a number, a string, or an
    object. *)
#[warnings="-register-all"]
Inductive jvalue :=
| JNum (q : Q)
| JStr (s : str)
| JObj (fields : list (str * jvalue)).

(** [value[field] if isinstance(value, dict) and field in value else value] *)
Definition extract_entry (field : str) (value : jvalue) : jvalue :=
  match value with
  | JObj fields =>
      match dict_lookup fields field with
      | Some v => v
      | None => value
      end
  | _ => value
  end.

(** The loop that fills [self.simple_probs] (and [self.bilingual_probs],
    and with [weight] one table of [self.signature_noise]) from [acc]:
    [comment] keys are passed over, the other values are extracted. *)
Fixpoint extract_table (field : str) (table : dict jvalue) (acc : dict jvalue)
  : dict jvalue :=
  match table with
  | [] => acc
  | (key, value) :: rest =>
      if str_eqb key (lit "comment")
      then extract_table field rest acc
      else extract_table field rest (dict_set acc key (extract_entry field value))
  end.

(** The loop that fills [self.signature_noise]; the patterns of a format
    must be an object ([AttributeError] otherwise, [None] here). *)
Fixpoint extract_signature_noise (signature_patterns : dict jvalue)
    (acc : dict (dict jvalue)) : option (dict (dict jvalue)) :=
  match signature_patterns with
  | [] => Some acc
  | (format_type, patterns) :: rest =>
      if str_eqb format_type (lit "comment")
      then extract_signature_noise rest acc
      else match patterns with
           | JObj items =>
               extract_signature_noise rest
                 (dict_set acc format_type (extract_table (lit "weight") items []))
           | _ => None
           end
  end.




(* ------------------------------------------------------------------ *)
(** ** Vocabulary of the further properties *)

(** A computation returns, and its result and final state satisfy [Q]. *)
Definition twp {S A} (m : M S A) (Q : A -> S -> Prop) (s : S) : Prop :=
  match m s with
  | Some (a, s') => Q a s'
  | None => False
  end.

(** From every state (for a random computation: on every tape) a
    computation returns a result that satisfies [P]. *)
Definition returns {S A} (m : M S A) (P : A -> Prop) : Prop :=
  forall s, twp m (fun a _ => P a) s.

(** The code points of the digits of a decimal numeral. *)
Fixpoint uint_codes (d : Decimal.uint) : str :=
  match d with
  | Decimal.Nil => []
  | Decimal.D0 d => 48%N :: uint_codes d
  | Decimal.D1 d => 49%N :: uint_codes d
  | Decimal.D2 d => 50%N :: uint_codes d
  | Decimal.D3 d => 51%N :: uint_codes d
  | Decimal.D4 d => 52%N :: uint_codes d
  | Decimal.D5 d => 53%N :: uint_codes d
  | Decimal.D6 d => 54%N :: uint_codes d
  | Decimal.D7 d => 55%N :: uint_codes d
  | Decimal.D8 d => 56%N :: uint_codes d
  | Decimal.D9 d => 57%N :: uint_codes d
  end.

(** Character classes of the shapes: [0-9], [A-Z], one given character,
    one of several. *)
Definition is_digit (c : char) : bool := ((48 <=? c) && (c <=? 57))%N.
Definition is_upper (c : char) : bool := ((65 <=? c) && (c <=? 90))%N.
Definition is_char (x : string) (c : char) : bool := str_eqb (lit x) [c].
Definition one_of (x : string) (c : char) : bool :=
  existsb (N.eqb c) (lit x).

(** A string has exactly the characters a shape lists, class by class. *)
Fixpoint matches (shape : list (char -> bool)) (s : str) : bool :=
  match shape, s with
  | [], [] => true
  | p :: shape', c :: s' => p c && matches shape' s'
  | _, _ => false
  end.

(** The three shapes of an identity number: twelve digits; six digits, [T]
    and five digits; and letters and digits in the pattern [A1AAA11A1]. *)
Definition numeric_shape : list (char -> bool) := repeat is_digit 12.
Definition date_based_shape : list (char -> bool) :=
  repeat is_digit 6 ++ [is_char "T"] ++ repeat is_digit 5.
Definition alphanumeric_shape : list (char -> bool) :=
  [is_upper; is_digit; is_upper; is_upper; is_upper; is_digit; is_digit;
   is_upper; is_digit].

(** The shapes of a height: [1] or [2], the centimetres, [m] or [M], with
    or without a space after the metres. *)
Definition height_shapes : list (list (char -> bool)) :=
  [ [one_of "12"; is_char " "; is_digit; is_digit; one_of "mM"];
    [one_of "12"; is_digit; is_digit; one_of "mM"] ].

(** [DD MM YYYY] with the given separator. *)
Definition date_shape (sep : string) : list (char -> bool) :=
  [is_digit; is_digit; is_char sep; is_digit; is_digit; is_char sep;
   is_digit; is_digit; is_digit; is_digit].

(** A date a provider may return: a day and a month of two digits at most,
    a year of four digits. *)
Definition plausible_date (d : date) : Prop :=
  (day d < 100 /\ month d < 100 /\ 1000 <= year d < 10000)%N.




(** What is checked of a sample: every entity bounds its value in the text,
    and the entities lie in text order without overlap. *)
Definition valid_sample (sample : str * list entity) : Prop :=
  Forall (entity_ok (fst sample)) (snd sample) /\
  chain 0 (snd sample) (length (fst sample)).

(** The labels of a sample, in the order of the routine.  An optional
    field contributes its label or nothing. *)
Definition optional (b : bool) (label : string) : list str :=
  if b then [lit label] else [].

(** [Surname_(i+1)], ..., [Surname_(i+n)] *)
Fixpoint surname_labels (i : N) (n : nat) : list str :=
  match n with
  | O => []
  | S n' => (lit "Surname_" ++ str_of_int (i + 1)) :: surname_labels (i + 1) n'
  end.

Definition simple_labels (alt_name : bool) (n : nat) (birth_place height : bool)
  : list str :=
  [lit "Country"; lit "DOC_TYPE"; lit "DNI"; lit "Nationality"; lit "Name"]
  ++ optional alt_name "Alt_name"
  ++ surname_labels 0 n
  ++ [lit "Gender"; lit "Date of birthday"]
  ++ optional birth_place "Birth_place"
  ++ optional height "Height".

Definition bilingual_labels (n : nat)
    (birth_place alt_name validity_date support_number : bool) : list str :=
  [lit "Country"; lit "DOC_TYPE"; lit "Name"]
  ++ surname_labels 0 n
  ++ [lit "Gender"; lit "Nationality"; lit "Date of birthday"]
  ++ optional birth_place "Birth_place"
  ++ optional alt_name "Alt_name"
  ++ [lit "DNI"]
  ++ optional validity_date "Validity_date"
  ++ optional support_number "Support_number".

(** The values the routines write for a nationality. *)
Definition nationalities : list str :=
  [ lit "Française"; lit "FRA"; lit "ESP"; lit "PRT"; lit "ITA"; lit "BEL";
    lit "MAR"; lit "TUN"; lit "DZA" ].

(** What the label of an entity says of its value, for the labels whose
    values do not come from a provider and are not passed through noise. *)
Definition value_ok (label value : str) : Prop :=
  if str_eqb label (lit "Gender") then In value [lit "M"; lit "F"]
  else if str_eqb label (lit "Nationality") then In value nationalities
  else if str_eqb label (lit "DNI") then
    matches numeric_shape value || matches date_based_shape value
    || matches alphanumeric_shape value = true
  else if str_eqb label (lit "Height") then
    existsb (fun shape => matches shape value) height_shapes = true
  else if str_eqb label (lit "Validity_date") then
    matches (date_shape " ") value = true
  else if str_eqb label (lit "Support_number") then
    matches (repeat is_digit 6) value = true
  else True.

Definition typed (e : entity) : Prop := value_ok (e_label e) (e_value e).

(** The entities recorded so far have the labels [L], and their values are
    what their labels say. *)
Definition labelled (L : list str) (es : list entity) : Prop :=
  map e_label es = L /\ Forall typed es.


(** A generator whose field-typo table lists the nationality label with no
    variant. *)
Definition no_variant_generator : FakerIDGenerator :=
  demo_generator demo_faker false 0 0 0 0 0 0 0 [] [(lit " Nationalité ", [])].

(** [main]: [total_entities = sum(len(item["entities"]) for item in results)] *)
Definition total_entities {E} (results : list (str * list E)) : nat :=
  list_sum (map (fun item => length (snd item)) results).

(** The comparison of the verifier for one entity: [actual == expected]. *)
Definition entity_matches (text : str) (e : json_entity) : bool :=
  let '(start, stop, _, expected) := e in
  str_eqb (py_slice text start stop) expected.

(** The entities of an item that fail the comparison. *)
Definition mismatches (item : json_item) : list json_entity :=
  filter (fun e => negb (entity_matches (fst item) e)) (snd item).

(** Two generators differ at most in their eight noise settings. *)
Definition same_tables (a b : FakerIDGenerator) : Prop :=
  fakers a = fakers b /\
  word_replacements a = word_replacements b /\
  spacing_errors a = spacing_errors b /\
  char_subs a = char_subs b /\
  extra_chars a = extra_chars b /\
  field_typos a = field_typos b /\
  simple_probs a = simple_probs b /\
  bilingual_probs a = bilingual_probs b /\
  signature_noise a = signature_noise b.

(** [custom_settings.use_custom] is true. *)
Definition uses_custom (config : Config) : bool :=
  opt_get (cs_use_custom (opt_get (custom_settings config) empty_custom)) false.

(** The presets of a configuration, none when the key is missing. *)
Definition presets_of (config : Config) : dict Preset :=
  opt_get (noise_presets config) [].

(** The medium settings [_load_from_config] defaults to. *)
Definition default_medium (self : FakerIDGenerator) : FakerIDGenerator :=
  set_noise self true f_0_15 f_0_1 f_0_08 f_0_05 f_0_02 f_0_015 f_0_02.

(** A configuration with a light preset that is not enabled, and nothing
    else. *)
Definition light_only : Config :=
  {| noise_presets :=
       Some [ (lit "light",
               {| ps_enabled := Some false;
                  ps_global_probability := Some (1 # 16);
                  ps_word_noise := None;
                  ps_spacing_noise := None;
                  ps_char_substitution := None;
                  ps_char_extra := None;
                  ps_char_missing := None;
                  ps_char_double := None |}) ];
     custom_settings := None |}.

(** An entry of a probability table in the nested format: an object whose
    first key is [field], followed by other keys. *)
Definition nested (field : str) (others : list (str * jvalue)) (value : jvalue)
  : jvalue :=
  JObj ((field, value) :: others).

(** A flat entry: a number. *)
Definition is_number (value : jvalue) : Prop :=
  match value with
  | JNum _ => True
  | _ => False
  end.

(** The key is not [comment]. *)
Definition not_comment (item : str * jvalue) : bool :=
  negb (str_eqb (fst item) (lit "comment")).

(** A probability table with a comment, one nested and one flat entry. *)
Definition mixed_table : dict jvalue :=
  [ (lit "comment", JStr (lit "probabilities of the optional fields"));
    (lit "height", nested (lit "probability") [(lit "description", JStr (lit "Taille"))]
                          (JNum (3 # 5)));
    (lit "birth_place", JNum (4 # 5)) ].

Definition is_object (value : jvalue) : bool :=
  match value with
  | JObj _ => true
  | _ => false
  end.

(* ================================================================== *)
(** * Properties *)

Example lit_accents :
  lit "RÉPUBLIQUE FRANÇAISE"
  = [82; 201; 80; 85; 66; 76; 73; 81; 85; 69; 32; 70; 82; 65; 78; 199; 65; 73; 83; 69]%N.
Proof. reflexivity. Qed.

(** ** The random source *)

Lemma uniform_range (k : N) : (0 <= uniform k /\ uniform k < 1)%Q.
Proof.
  assert (H : (k mod N.pos two53 < N.pos two53)%N)
    by (apply N.mod_upper_bound; discriminate).
  apply N2Z.inj_lt in H. assert (H0 := N2Z.is_nonneg (k mod N.pos two53)).
  unfold uniform, Qle, Qlt. cbn [Qnum Qden].
  change (Z.of_N (N.pos two53)) with (Z.pos two53) in H.
  split; lia.
Qed.

Lemma random_random_eq (r : rng) : random_random r = Some (uniform (r 0), shift r).
Proof. reflexivity. Qed.

Lemma choice_In {A} (seq : list A) r a r' : choice seq r = Some (a, r') -> In a seq.
Proof.
  unfold choice. destruct seq as [|x seq']; [discriminate|].
  unfold bind, next_raw.
  destruct (nth_error _ _) as [y|] eqn:E; [|discriminate].
  intros H. injection H as <- _. eapply nth_error_In; eauto.
Qed.

Lemma fle_true a b : fle a b = true <-> (a <= b)%Q.
Proof. apply Qle_bool_iff. Qed.

Lemma fle_false a b : fle a b = false <-> (b < a)%Q.
Proof.
  unfold fle. split; intros H.
  - apply Qnot_le_lt. intros Hle. apply Qle_bool_iff in Hle. congruence.
  - destruct (Qle_bool a b) eqn:E; [|reflexivity].
    apply Qle_bool_iff in E. exfalso. apply (Qlt_not_le _ _ H E).
Qed.

Lemma flt_true a b : flt a b = true <-> (a < b)%Q.
Proof.
  unfold flt. rewrite negb_true_iff. apply (fle_false b a).
Qed.

Lemma flt_false a b : flt a b = false <-> (b <= a)%Q.
Proof.
  unfold flt. rewrite negb_false_iff. apply (fle_true b a).
Qed.

(** ** Weighted choice *)

Section WeightedChoice.
Context {RT : Runtime}.

Lemma cumulative_from_S c k w items n :
  cumulative_from c ((k, w) :: items) (S n) = cumulative_from (fadd c w) items n.
Proof. reflexivity. Qed.

Lemma weighted_scan_first u items : forall c i key,
  nth_error (keys items) i = Some key ->
  fle u (cumulative_from c items (S i)) = true ->
  (forall j, j < i -> fle u (cumulative_from c items (S j)) = false) ->
  weighted_scan u c items = Some key.
Proof.
  induction items as [|[k w] items IH]; intros c i key Hk Hi Hlt.
  - destruct i; discriminate.
  - destruct i as [|i]; simpl in *.
    + injection Hk as <-. unfold cumulative_from in Hi; simpl in Hi. now rewrite Hi.
    + assert (H0 := Hlt 0 (Nat.lt_0_succ _)).
      unfold cumulative_from in H0; simpl in H0. rewrite H0.
      apply (IH (fadd c w) i key Hk).
      * exact Hi.
      * intros j Hj. apply (Hlt (S j)). lia.
Qed.

Lemma weighted_scan_none u items : forall c,
  (forall j, j < length items -> fle u (cumulative_from c items (S j)) = false) ->
  weighted_scan u c items = None.
Proof.
  induction items as [|[k w] items IH]; intros c H; [reflexivity|].
  simpl. assert (H0 := H 0 (Nat.lt_0_succ _)).
  unfold cumulative_from in H0; simpl in H0. rewrite H0.
  apply IH. intros j Hj. apply (H (S j)). simpl. lia.
Qed.

Lemma weighted_scan_In u items : forall c key,
  weighted_scan u c items = Some key -> In key (keys items).
Proof.
  induction items as [|[k w] items IH]; intros c key H; [discriminate|].
  simpl in H. destruct (fle u (fadd c w)).
  - injection H as <-. now left.
  - right. eapply IH; eauto.
Qed.

(** The loop returns once the running mass reaches the draw; it does so at
    the last option at the latest when the total mass reaches it. *)
Lemma weighted_scan_total_reaches u items : forall c,
  items <> [] ->
  fle u (cumulative_from c items (length items)) = true ->
  exists key, weighted_scan u c items = Some key.
Proof.
  induction items as [|[k w] items IH]; intros c Hne H; [congruence|].
  simpl. destruct (fle u (fadd c w)) eqn:E; [eauto|].
  destruct items as [|kw items'].
  - unfold cumulative_from in H; simpl in H. congruence.
  - apply IH; [discriminate | exact H].
Qed.

Lemma py_last_In {A} (seq : list A) : seq <> [] -> exists a, py_last seq = Some a /\ In a seq.
Proof.
  induction seq as [|x seq IH]; intros Hne; [congruence|].
  destruct seq as [|y seq'].
  - exists x. split; [reflexivity | now left].
  - destruct IH as (a & Ha & Hin); [discriminate|].
    exists a. split; [exact Ha | now right].
Qed.

(** With addition that never decreases a sum by a non-negative weight, the
    running mass never exceeds the total. *)
Lemma cumulative_from_monotone items :
  (forall c w, (0 <= w)%Q -> (c <= fadd c w)%Q) ->
  Forall (fun kw => (0 <= snd kw)%Q) items ->
  forall c n, (cumulative_from c items n <= cumulative_from c items (length items))%Q.
Proof.
  intros Hadd. induction items as [|[k w] items IH]; intros Hw c n.
  - destruct n; apply Qle_refl.
  - inversion Hw as [|? ? Hw0 Hws]; subst. simpl in Hw0.
    destruct n as [|n].
    + change (cumulative_from c ((k, w) :: items) 0) with c.
      simpl length. rewrite cumulative_from_S.
      eapply Qle_trans; [apply (Hadd c w Hw0)|].
      apply (IH Hws (fadd c w) 0).
    + simpl length. rewrite !cumulative_from_S. apply (IH Hws).
Qed.

Lemma weighted_choice_key (table : dict Q) (r : rng) :
  table <> [] ->
  exists key, In key (keys table) /\ _weighted_choice table r = Some (key, shift r).
Proof.
  intros Hne. unfold _weighted_choice, bind. rewrite random_random_eq.
  destruct (weighted_scan (uniform (r 0)) 0 table) as [key|] eqn:E.
  - exists key. split; [eapply weighted_scan_In; eauto | reflexivity].
  - destruct (@py_last_In _ (keys table)) as (a & Ha & Hin).
    { destruct table; [congruence | discriminate]. }
    exists a. rewrite Ha. split; [exact Hin | reflexivity].
Qed.

End WeightedChoice.

Section WeightedChoiceClaims.
Context {RT : Runtime}.

(** C2. [_weighted_choice] on a non-empty table returns the first option, in
    table order, whose cumulative mass meets or exceeds the draw; when the
    masses sum to exactly 1 the draw is resolved inside the loop to a key of
    the table; when weights are non-negative and the draw lies beyond the
    total mass the last key of the table is returned; it never raises. *)
Theorem weighted_choice_first_reaching (table : dict Q) (r : rng) :
  table <> [] ->
  let u := uniform (r 0) in
  (forall i key,
      nth_error (keys table) i = Some key ->
      (u <= cumulative table (S i))%Q ->
      (forall j, j < i -> (cumulative table (S j) < u)%Q) ->
      _weighted_choice table r = Some (key, shift r)) /\
  ((cumulative table (length table) == 1)%Q ->
      exists key, In key (keys table) /\
                  weighted_scan u 0 table = Some key /\
                  _weighted_choice table r = Some (key, shift r)) /\
  ((forall c w, (0 <= w)%Q -> (c <= fadd c w)%Q) ->
   Forall (fun kw => (0 <= snd kw)%Q) table ->
   (cumulative table (length table) < u)%Q ->
      exists key, py_last (keys table) = Some key /\
                  _weighted_choice table r = Some (key, shift r)) /\
  (exists key, In key (keys table) /\ _weighted_choice table r = Some (key, shift r)).
Proof.
  intros Hne u. repeat split.
  - intros i key Hk Hi Hlt. unfold _weighted_choice, bind.
    rewrite random_random_eq. fold u.
    rewrite (@weighted_scan_first _ u table 0%Q i key Hk); [reflexivity| |].
    + apply fle_true. exact Hi.
    + intros j Hj. apply fle_false. now apply Hlt.
  - intros Hsum.
    destruct (@weighted_scan_total_reaches _ u table 0%Q Hne) as (key & Hkey).
    { apply fle_true. fold (cumulative table (length table)). rewrite Hsum.
      apply Qlt_le_weak, uniform_range. }
    exists key. split; [eapply weighted_scan_In; eauto|]. split; [exact Hkey|].
    unfold _weighted_choice, bind. rewrite random_random_eq. fold u.
    now rewrite Hkey.
  - intros Hadd Hw Hbeyond.
    destruct (@py_last_In _ (keys table)) as (a & Ha & Hin).
    { destruct table; [congruence | discriminate]. }
    exists a. split; [exact Ha|].
    unfold _weighted_choice, bind. rewrite random_random_eq. fold u.
    rewrite weighted_scan_none, Ha; [reflexivity|].
    intros j Hj. apply fle_false.
    eapply Qle_lt_trans; [|exact Hbeyond].
    apply (cumulative_from_monotone Hadd Hw).
  - apply weighted_choice_key. exact Hne.
Qed.

(** C10. On an empty table [_weighted_choice] raises (taking the last key
    of no keys); on a non-empty table it returns, and what it returns is a
    key of the table; so it returns exactly on non-empty tables. *)
Theorem weighted_choice_needs_nonempty (table : dict Q) (r : rng) :
  _weighted_choice [] r = None /\
  (table <> [] ->
     exists key, In key (keys table) /\ _weighted_choice table r = Some (key, shift r)) /\
  (forall key r', _weighted_choice table r = Some (key, r') ->
     table <> [] /\ In key (keys table)).
Proof.
  split; [reflexivity|]. split; [apply weighted_choice_key|].
  intros key r' H. destruct table as [|kw table'].
  - discriminate.
  - split; [discriminate|].
    destruct (@weighted_choice_key _ (kw :: table') r) as (k & Hin & Hk);
      [discriminate|].
    rewrite Hk in H. now injection H as <- _.
Qed.

End WeightedChoiceClaims.

Lemma weighted_choice_first_reaching_witness :
  _weighted_choice (RT := exact_sums)
     [(lit "RF ", 1 # 4); (lit "3F ", 1 # 4); (lit "none", 1 # 4)]%Q
     (tape_of [eighths 3])
  = Some (lit "3F ", shift (tape_of [eighths 3]))
  /\
  (exists key,
     weighted_scan (RT := exact_sums) (uniform (eighths 7)) 0
       [(lit "RF ", 1 # 4); (lit "3F ", 1 # 4); (lit "none", 1 # 2)]%Q = Some key /\
     _weighted_choice (RT := exact_sums)
       [(lit "RF ", 1 # 4); (lit "3F ", 1 # 4); (lit "none", 1 # 2)]%Q
       (tape_of [eighths 7])
     = Some (key, shift (tape_of [eighths 7])))
  /\
  (exists key,
     py_last (keys [(lit "RF ", 1 # 4); (lit "3F ", 1 # 4); (lit "none", 1 # 4)]%Q)
       = Some key /\
     _weighted_choice (RT := exact_sums)
       [(lit "RF ", 1 # 4); (lit "3F ", 1 # 4); (lit "none", 1 # 4)]%Q
       (tape_of [eighths 7])
     = Some (key, shift (tape_of [eighths 7]))).
Proof.
  split; [|split].
  - refine (proj1 (@weighted_choice_first_reaching exact_sums
             [(lit "RF ", 1 # 4); (lit "3F ", 1 # 4); (lit "none", 1 # 4)]%Q
             (tape_of [eighths 3]) _) 1 (lit "3F ") eq_refl _ _).
    + discriminate.
    + vm_compute. discriminate.
    + intros j Hj. assert (j = 0) by lia. subst j. vm_compute. reflexivity.
  - destruct (proj1 (proj2 (@weighted_choice_first_reaching exact_sums
             [(lit "RF ", 1 # 4); (lit "3F ", 1 # 4); (lit "none", 1 # 2)]%Q
             (tape_of [eighths 7]) ltac:(discriminate))) ltac:(reflexivity))
      as (key & _ & Hscan & Hret).
    exists key. split; [exact Hscan | exact Hret].
  - refine (proj1 (proj2 (proj2 (@weighted_choice_first_reaching exact_sums
             [(lit "RF ", 1 # 4); (lit "3F ", 1 # 4); (lit "none", 1 # 4)]%Q
             (tape_of [eighths 7]) _))) _ _ _).
    + discriminate.
    + intros c w Hw. simpl. rewrite <- (Qplus_0_r c) at 1.
      apply Qplus_le_compat; [apply Qle_refl | exact Hw].
    + repeat constructor; vm_compute; discriminate.
    + vm_compute. reflexivity.
Defined.

Lemma weighted_choice_needs_nonempty_witness :
  _weighted_choice (RT := exact_sums) [] zero_tape = None /\
  exists key, In key [lit "MA "; lit "none"] /\
    _weighted_choice (RT := exact_sums) [(lit "MA ", 1 # 2); (lit "none", 1 # 4)]%Q zero_tape
    = Some (key, shift zero_tape).
Proof.
  split.
  - exact (proj1 (@weighted_choice_needs_nonempty exact_sums [] zero_tape)).
  - apply (proj1 (proj2 (@weighted_choice_needs_nonempty exact_sums
             [(lit "MA ", 1 # 2); (lit "none", 1 # 4)]%Q zero_tape))).
    discriminate.
Defined.

(** ** The noise engine *)

Section NoiseEngine.
Context {RT : Runtime}.

Lemma char_noise_loop_acc self text : forall acc r,
  char_noise_loop self text acc r =
  match char_noise_loop self text [] r with
  | Some (out, r') => Some (acc ++ out, r')
  | None => None
  end.
Proof.
  induction text as [|c text IH]; intros acc r.
  - simpl. unfold ret. now rewrite app_nil_r.
  - simpl. unfold bind. destruct (char_noise_step self c r) as [[a r1]|]; [|reflexivity].
    rewrite IH. rewrite (IH ([] ++ a)).
    destruct (char_noise_loop self text [] r1) as [[out r2]|]; [|reflexivity].
    simpl. now rewrite app_assoc.
Qed.

Lemma apply_character_noise_cons self char rest r :
  _apply_character_noise self (char :: rest) r =
  match char_noise_step self char r with
  | Some (out, r1) =>
      match _apply_character_noise self rest r1 with
      | Some (t, r2) => Some (join out ++ t, r2)
      | None => None
      end
  | None => None
  end.
Proof.
  unfold _apply_character_noise, bind. simpl. unfold bind.
  destruct (char_noise_step self char r) as [[a r1]|]; [|reflexivity].
  rewrite char_noise_loop_acc.
  destruct (char_noise_loop self rest [] r1) as [[out r2]|]; [|reflexivity].
  unfold ret, join. simpl. now rewrite concat_app.
Qed.

(** C3, as the code has it.  For one character the decisions are taken in
    the order drop, substitute, emit, duplicate, insert, on consecutive
    draws; a drop ends the character after its one draw; the substitution
    draw is made only for a character of the table; the duplicate appended
    is the input character itself; the outputs of the characters are
    concatenated in text order. *)
Theorem char_noise_step_order (self : FakerIDGenerator) (char : char) (r : rng) :
  (flt (uniform (r 0)) (missing_char_prob self) = true ->
     char_noise_step self char r = Some ([], shift r)) /\
  (flt (uniform (r 0)) (missing_char_prob self) = false ->
     let in_table := match dict_lookup (char_subs self) [char] with
                     | Some _ => true
                     | None => false
                     end in
     let substituted := in_table && flt (uniform (r 1)) (char_sub_prob self) in
     let r1 := if in_table then shift (shift r) else shift r in
     let emitted := if substituted then dict_get (char_subs self) [char] [char]
                    else [char] in
     let duplicate := if flt (uniform (r1 0)) (double_char_prob self)
                      then [[char]] else [] in
     (flt (uniform (r1 1)) (extra_char_prob self) = false ->
        char_noise_step self char r = Some (emitted :: duplicate, shift (shift r1))) /\
     (flt (uniform (r1 1)) (extra_char_prob self) = true ->
        char_noise_step self char r =
        match choice (extra_chars self) (shift (shift r1)) with
        | Some (x, r2) => Some (emitted :: duplicate ++ [x], r2)
        | None => None
        end)) /\
  (forall rest,
     _apply_character_noise self (char :: rest) r =
     match char_noise_step self char r with
     | Some (out, r1) =>
         match _apply_character_noise self rest r1 with
         | Some (t, r2) => Some (join out ++ t, r2)
         | None => None
         end
     | None => None
     end).
Proof.
  split; [|split].
  - intros Hdrop. unfold char_noise_step, bind. rewrite random_random_eq.
    now rewrite Hdrop.
  - intros Hkeep. cbv zeta.
    unfold char_noise_step, random_random, next_raw, bind, ret.
    fold (@choice str). rewrite Hkeep.
    destruct (dict_lookup (char_subs self) [char]) as [s|]; cbn [andb];
      cbv beta delta [shift];
      repeat match goal with
             | |- context [if flt ?a ?b then _ else _] => destruct (flt a b)
             end;
      split; intros Hx; try discriminate Hx; try reflexivity;
      destruct (choice _ _) as [[x r2]|]; reflexivity.
  - intros rest. apply apply_character_noise_cons.
Qed.

End NoiseEngine.

(** C3, as stated, fails: with [O] substituted by [0] and every character
    doubled, the text [O] becomes [0O]; the character appended as the
    duplicate is the input [O], not the emitted [0]. *)
Lemma char_noise_duplicate_is_input :
  option_map fst (char_noise_step substitute_and_double 79%N zero_tape)
    = Some [lit "0"; lit "O"] /\
  option_map fst (_apply_character_noise substitute_and_double
                    (lit "O") zero_tape)
    = Some (lit "0O").
Proof. split; vm_compute; reflexivity. Qed.

Lemma flt_uniform_0 (k : N) : flt (uniform k) 0 = false.
Proof. apply flt_false. apply uniform_range. Qed.

Section NoiseIdentity.
Context {RT : Runtime}.

(** C4. [apply_noise] returns its input unchanged when every probability it
    reads is zero, whether or not noise is enabled (binary64 gives
    0.0 + 0.0 = 0.0); when noise is disabled; when noise is not allowed;
    when the gate draw exceeds the global probability; and after
    [_set_zero_noise]. *)
Theorem apply_noise_identity (self : FakerIDGenerator) (text : str) (r : rng) :
  (global_prob self = 0%Q -> word_noise_prob self = 0%Q ->
   spacing_noise_prob self = 0%Q -> char_sub_prob self = 0%Q ->
   extra_char_prob self = 0%Q -> missing_char_prob self = 0%Q ->
   double_char_prob self = 0%Q -> fadd 0%Q 0%Q = 0%Q ->
     exists r', apply_noise self text true r = Some (text, r')) /\
  (noise_enabled self = false ->
     forall allow_noise, apply_noise self text allow_noise r = Some (text, r)) /\
  apply_noise self text false r = Some (text, r) /\
  (noise_enabled self = true -> (global_prob self < uniform (r 0%nat))%Q ->
     apply_noise self text true r = Some (text, shift r)) /\
  (forall allow_noise,
     apply_noise (_set_zero_noise self) text allow_noise r = Some (text, r)).
Proof.
  split; [|split; [|split; [|split]]].
  - intros Hg Hw Hs Hc He Hm _ Hadd.
    unfold apply_noise, noise_gate, bind.
    rewrite Hg, Hw, Hs, Hc, He, Hm, !Hadd.
    destruct (noise_enabled self); cbn [negb]; [|eexists; reflexivity].
    rewrite random_random_eq.
    destruct (flt 0 (uniform (r 0))); unfold ret; [eexists; reflexivity|].
    repeat (rewrite random_random_eq, flt_uniform_0; cbv beta iota).
    eexists; reflexivity.
  - intros Hoff allow_noise. unfold apply_noise, noise_gate, bind.
    now rewrite Hoff.
  - unfold apply_noise, noise_gate, bind. now destruct (noise_enabled self).
  - intros Hon Hgate. unfold apply_noise, noise_gate, bind.
    rewrite Hon. cbn [negb]. rewrite random_random_eq.
    apply flt_true in Hgate. now rewrite Hgate.
  - intros allow_noise. reflexivity.
Qed.

End NoiseIdentity.

Lemma apply_noise_identity_witness :
  (exists r', apply_noise (RT := exact_sums) enabled_but_zero (lit "Nom : ") true zero_tape
              = Some (lit "Nom : ", r')) /\
  apply_noise (RT := exact_sums) typo_generator (lit "Nom : ") true (tape_of [eighths 7])
  = Some (lit "Nom : ", shift (tape_of [eighths 7])).
Proof.
  split.
  - apply (proj1 (@apply_noise_identity exact_sums enabled_but_zero (lit "Nom : ") zero_tape));
      reflexivity.
  - apply (proj1 (proj2 (proj2 (proj2
        (@apply_noise_identity exact_sums typo_generator (lit "Nom : ")
           (tape_of [eighths 7])))))).
    + reflexivity.
    + vm_compute. reflexivity.
Defined.

(** ** Python string operations *)

Lemma lstrip_no_leading (s : str) : no_leading_space (lstrip s).
Proof.
  induction s as [|c s IH]; simpl; [exact I|].
  destruct (isspace c) eqn:E; [exact IH | exact E].
Qed.

Lemma lstrip_suffix (s : str) : exists w, s = w ++ lstrip s.
Proof.
  induction s as [|c s (w & IH)]; simpl.
  - now exists [].
  - destruct (isspace c).
    + exists (c :: w). simpl. now f_equal.
    + now exists [].
Qed.

Lemma rstrip_prefix (s : str) : exists w, s = rstrip s ++ w.
Proof.
  unfold rstrip. destruct (lstrip_suffix (rev s)) as (w & Hw).
  exists (rev w). rewrite <- rev_app_distr, <- Hw. symmetry. apply rev_involutive.
Qed.

Lemma rstrip_no_trailing (s : str) : no_trailing_space (rstrip s).
Proof.
  unfold no_trailing_space, rstrip. rewrite rev_involutive. apply lstrip_no_leading.
Qed.

Lemma no_leading_prefix (p w : str) : no_leading_space (p ++ w) -> no_leading_space p.
Proof. destruct p; [intros; exact I | exact (fun H => H)]. Qed.

Lemma strip_no_leading (s : str) : no_leading_space (strip s).
Proof.
  unfold strip. destruct (rstrip_prefix (lstrip s)) as (w & Hw).
  apply (@no_leading_prefix _ w). rewrite <- Hw. apply lstrip_no_leading.
Qed.

Lemma firstn_no_leading (n : nat) (s : str) : no_leading_space s -> no_leading_space (firstn n s).
Proof.
  intros H. apply (@no_leading_prefix _ (skipn n s)). now rewrite firstn_skipn.
Qed.

Lemma starts_with_app (p s : str) : starts_with p (p ++ s) = true.
Proof.
  induction p as [|c p IH]; [reflexivity|]. simpl. now rewrite N.eqb_refl.
Qed.

(** ** Slices of a text that only grows *)

Lemma slice_app_stable (text seg : str) (s e : nat) :
  e <= length text -> slice (text ++ seg) s e = slice text s e.
Proof.
  intros He. unfold slice.
  destruct (Nat.le_gt_cases s e) as [Hse | Hse].
  - rewrite skipn_app, firstn_app, length_skipn.
    replace (e - s - (length text - s)) with 0 by lia.
    rewrite firstn_O, app_nil_r. reflexivity.
  - replace (e - s) with 0 by lia. reflexivity.
Qed.

Lemma slice_fresh (text v t : str) :
  slice (text ++ v ++ t) (length text) (length text + length v) = v.
Proof.
  unfold slice. rewrite skipn_app, Nat.sub_diag, skipn_all. simpl.
  replace (length text + length v - length text) with (length v) by lia.
  rewrite firstn_app, Nat.sub_diag, firstn_all. simpl. apply app_nil_r.
Qed.

Lemma join_snoc (ps : list str) (x : str) : join (ps ++ [x]) = join ps ++ x.
Proof. unfold join. rewrite concat_app. simpl. now rewrite app_nil_r. Qed.

(** ** Weakest preconditions for the monad (partial correctness) *)

Lemma wp_bind {S A B} (m : M S A) (k : A -> M S B) (Q : B -> S -> Prop) s :
  wp m (fun a s' => wp (k a) Q s') s -> wp (bind m k) Q s.
Proof. unfold wp, bind. destruct (m s) as [[a s']|]; auto. Qed.

Lemma wp_mono {S A} (m : M S A) (P Q : A -> S -> Prop) s :
  wp m P s -> (forall a s', P a s' -> Q a s') -> wp m Q s.
Proof. unfold wp. destruct (m s) as [[a s']|]; auto. Qed.

(** ** The assembler's invariant *)

Lemma chain_weaken lo es hi hi' : chain lo es hi -> hi <= hi' -> chain lo es hi'.
Proof.
  revert lo. induction es as [|e es IH]; simpl; intros lo H Hle.
  - lia.
  - destruct H as (H1 & H2 & H3). repeat split; auto.
Qed.

Lemma chain_snoc lo es hi e hi' :
  chain lo es hi -> hi <= e_start e -> e_start e <= e_end e -> e_end e <= hi' ->
  chain lo (es ++ [e]) hi'.
Proof.
  revert lo. induction es as [|x es IH]; simpl; intros lo H H1 H2 H3.
  - repeat split; lia.
  - destruct H as (Ha & Hb & Hc). repeat split; auto.
Qed.

Lemma entity_ok_app text seg e : entity_ok text e -> entity_ok (text ++ seg) e.
Proof.
  intros (H1 & H2 & H3). repeat split; auto.
  - rewrite length_app. lia.
  - now rewrite slice_app_stable.
Qed.

Lemma Inv_init : Inv {| parts := []; entities := []; pos := 0 |}.
Proof. repeat split; simpl; auto. Qed.

(** Appending a segment and advancing the cursor by its length. *)
Lemma Inv_segment l x n :
  Inv l -> n = length x ->
  Inv {| parts := parts l ++ [x]; entities := entities l; pos := pos l + n |}.
Proof.
  intros (Hp & Hok & Hch) ->. unfold Inv; simpl. rewrite join_snoc. repeat split.
  - rewrite length_app. lia.
  - eapply Forall_impl; [|exact Hok]. intros e. apply entity_ok_app.
  - eapply chain_weaken; [exact Hch|lia].
Qed.

(** Appending a segment that begins with an entity's value, advancing the
    cursor by the segment's length and recording the entity over the value. *)
Lemma Inv_entity l x n s e lab v :
  Inv l -> n = length x -> s = pos l -> e = pos l + length v ->
  firstn (length v) x = v -> length v <= length x ->
  Inv {| parts := parts l ++ [x];
         entities := entities l ++ [Entity s e lab v];
         pos := pos l + n |}.
Proof.
  intros (Hp & Hok & Hch) -> -> -> Hpre Hlen. unfold Inv; simpl.
  rewrite join_snoc. repeat split.
  - rewrite length_app. lia.
  - apply Forall_app. split.
    + eapply Forall_impl; [|exact Hok]. intros e. apply entity_ok_app.
    + constructor; [|constructor]. unfold entity_ok; simpl. rewrite Hp.
      repeat split; try lia.
      * rewrite length_app. lia.
      * rewrite <- (firstn_skipn (length v) x) at 1. rewrite Hpre.
        apply slice_fresh.
  - eapply chain_snoc; [exact Hch| | |]; simpl; lia.
Qed.

(** ** Stepping through a format routine *)

Lemma wp_bind_rand {A B} (m : Rand A) (k : A -> Gen B) Q r l :
  (forall a r', m r = Some (a, r') -> wp (k a) Q (r', l)) ->
  wp (bind (rand m) k) Q (r, l).
Proof.
  intros H. unfold wp, bind, rand. simpl.
  destruct (m r) as [[a r']|] eqn:E; auto. apply (H a r' eq_refl).
Qed.

Lemma wp_bind_get_pos {B} (k : nat -> Gen B) Q r l :
  wp (k (pos l)) Q (r, l) -> wp (bind get_pos k) Q (r, l).
Proof. exact (fun H => H). Qed.

Lemma wp_bind_parts_append {B} x (k : unit -> Gen B) Q r l :
  wp (k tt) Q (r, {| parts := parts l ++ [x]; entities := entities l; pos := pos l |}) ->
  wp (bind (parts_append x) k) Q (r, l).
Proof. exact (fun H => H). Qed.

Lemma wp_bind_pos_add {B} n (k : unit -> Gen B) Q r l :
  wp (k tt) Q (r, {| parts := parts l; entities := entities l; pos := pos l + n |}) ->
  wp (bind (pos_add n) k) Q (r, l).
Proof. exact (fun H => H). Qed.

Lemma wp_bind_entities_append {B} e (k : unit -> Gen B) Q r l :
  wp (k tt) Q (r, {| parts := parts l; entities := entities l ++ [e]; pos := pos l |}) ->
  wp (bind (entities_append e) k) Q (r, l).
Proof. exact (fun H => H). Qed.

Lemma wp_pos_add n (Q : unit -> rng * locals -> Prop) r l :
  Q tt (r, {| parts := parts l; entities := entities l; pos := pos l + n |}) ->
  wp (pos_add n) Q (r, l).
Proof. exact (fun H => H). Qed.

Lemma wp_entities_append e (Q : unit -> rng * locals -> Prop) r l :
  Q tt (r, {| parts := parts l; entities := entities l ++ [e]; pos := pos l |}) ->
  wp (entities_append e) Q (r, l).
Proof. exact (fun H => H). Qed.

Lemma wp_bind_ret {S A B} (a : A) (k : A -> M S B) Q s :
  wp (k a) Q s -> wp (bind (ret a) k) Q s.
Proof. exact (fun H => H). Qed.

Lemma wp_bind_raise {S A B} (k : A -> M S B) Q s : wp (bind raise k) Q s.
Proof. exact I. Qed.

Lemma wp_bind_assoc {S A B C} (m : M S A) (f : A -> M S B) (k : B -> M S C) Q s :
  wp (bind m (fun a => bind (f a) k)) Q s -> wp (bind (bind m f) k) Q s.
Proof. unfold wp, bind. destruct (m s) as [[a s']|]; auto. Qed.

(** A statement group that restores the invariant can be cut off from
    what follows it. *)
Lemma wp_bind_run {S A B} (m : M S A) (k : A -> M S B) Q s a s' :
  m s = Some (a, s') -> wp (k a) Q s' -> wp (bind m k) Q s.
Proof. unfold wp, bind. now intros ->. Qed.

(** A statement group that restores an invariant can be cut off from what
    follows it. *)
Lemma wp_bind_keeps (I : locals -> Prop) {A B} (m : Gen A) (k : A -> Gen B) Q s :
  wp m (keeps I) s ->
  (forall a r' l', I l' -> wp (k a) Q (r', l')) ->
  wp (bind m k) Q s.
Proof.
  intros Hm Hk. apply wp_bind. eapply wp_mono; [exact Hm|].
  intros a [r' l'] H. now apply Hk.
Qed.

Lemma wp_when_keeps (I : locals -> Prop) (b : bool) (m : Gen unit) r l :
  I l -> (b = true -> wp m (keeps I) (r, l)) ->
  wp (when b m) (keeps I) (r, l).
Proof. intros HI H. destruct b; [now apply H | exact HI]. Qed.

Lemma stable_any : stable any_entities any_text.
Proof. split; intros; exact I. Qed.

Lemma stable_before_names : stable no_given_name any_text.
Proof.
  split; [|intros; exact I].
  intros es e Hes He. apply Forall_app. split; [exact Hes|]. now constructor.
Qed.

Lemma stable_after_names pre given before written :
  stable (names_recorded pre given) (names_written before written).
Proof.
  split.
  - intros es e (post & -> & Hpost) He. exists (post ++ [e]). split.
    + now rewrite <- !app_assoc.
    + apply Forall_app. split; [exact Hpost|]. now constructor.
  - intros t x (after & ->). exists (after ++ x). now rewrite <- !app_assoc.
Qed.

Lemma InvE_segment P T l x n :
  stable P T -> InvE P T l -> n = length x ->
  InvE P T {| parts := parts l ++ [x]; entities := entities l; pos := pos l + n |}.
Proof.
  intros (_ & HT) (HI & HP & Ht) Hn. split; [now apply Inv_segment|].
  split; [exact HP|]. cbn [parts]. rewrite join_snoc. now apply HT.
Qed.

Lemma InvE_entity P T l x n s e lab v :
  stable P T -> InvE P T l ->
  n = length x -> s = pos l -> e = pos l + length v ->
  firstn (length v) x = v -> length v <= length x ->
  starts_with (lit "Surname_") lab = false ->
  InvE P T {| parts := parts l ++ [x];
              entities := entities l ++ [Entity s e lab v];
              pos := pos l + n |}.
Proof.
  intros (HPs & HT) (HI & HP & Ht) Hn Hs He Hpre Hlen Hlab.
  split; [now apply Inv_entity|].
  split; [now apply HPs|]. cbn [parts]. rewrite join_snoc. now apply HT.
Qed.

Ltac gstep :=
  cbn [pos parts entities fst snd];
  lazymatch goal with
  | |- wp (bind (rand _) _) _ _ => apply wp_bind_rand; intros ? ? ?
  | |- wp (bind get_pos _) _ _ => apply wp_bind_get_pos
  | |- wp (bind (parts_append _) _) _ _ => apply wp_bind_parts_append
  | |- wp (bind (pos_add _) _) _ _ => apply wp_bind_pos_add
  | |- wp (bind (entities_append _) _) _ _ => apply wp_bind_entities_append
  | |- wp (bind (ret _) _) _ _ => apply wp_bind_ret
  | |- wp (bind raise _) _ _ => apply wp_bind_raise
  | |- wp (bind (bind _ _) _) _ _ => apply wp_bind_assoc
  | |- wp (pos_add _) _ _ => apply wp_pos_add
  | |- wp (entities_append _) _ _ => apply wp_entities_append
  end.

(** Side conditions on lengths. *)
Ltac len :=
  cbn [pos parts entities fst snd];
  repeat rewrite length_app;
  try reflexivity;
  try (change (length (lit " ")) with 1; lia);
  try lia;
  try (simpl; lia).

(** Re-establish the invariant on the current locals and forget how they
    were built. *)
Ltac restore tac :=
  cbn [pos parts entities fst snd];
  lazymatch goal with
  | HI : InvE ?P ?T ?l |- wp _ _ (_, ?l') =>
      let H := fresh "HI" in
      assert (H : InvE P T l') by tac;
      revert H; generalize l'; clear HI; try clear l;
      let l2 := fresh "l" in intros l2 HI
  | HI : InvE ?P ?T ?l |- keeps _ _ _ =>
      unfold keeps; cbn [pos parts entities fst snd]; tac
  end.

Ltac seg :=
  gstep; gstep;
  restore ltac:(apply InvE_segment; [assumption | assumption | len]).

Ltac ent_side :=
  first [ reflexivity
        | apply firstn_all
        | rewrite firstn_app, Nat.sub_diag, firstn_all; simpl; apply app_nil_r
        | len ].

Ltac ent :=
  gstep; gstep; gstep;
  lazymatch goal with
  | |- wp (bind get_pos _) _ _ => gstep
  | _ => idtac
  end;
  gstep;
  restore ltac:(eapply InvE_entity;
                [ assumption | assumption | len | reflexivity | len | ent_side | len
                | vm_compute; reflexivity ]).

Tactic Notation "rnd" ident(x) :=
  cbn [pos parts entities fst snd];
  let x' := fresh x in
  let H := fresh "H" x in
  apply wp_bind_rand; intros x' ? H.

Ltac cases_of_choice H :=
  apply choice_In in H; simpl in H;
  repeat (destruct H as [<- | H]; [| ]); try contradiction.

(** Cut a statement group off: prove it restores the invariant, then go
    on from locals of which only the invariant is known. *)
Ltac cut_group :=
  lazymatch goal with
  | HI : InvE ?P ?T ?l |- _ =>
      apply (@wp_bind_keeps (InvE P T));
      [ | clear HI; try clear l; intros _;
          let r := fresh "r" in let l2 := fresh "l" in intros r l2 HI ]
  end.

Ltac guarded := apply wp_when_keeps; [assumption | intros _].

(** ** The given-names loop *)

Section AssemblerProofs.
Context {RT : Runtime}.

Lemma given_names_loop_cons (i : N) (gname : str) (rest : list str) r l :
  given_names_loop i (gname :: rest) (r, l) =
  let sep := (0 <? i)%N in
  let p := if sep then pos l + 2 else pos l in
  given_names_loop (i + 1) rest
    (r, {| parts := (if sep then parts l ++ [lit ", "] else parts l) ++ [gname];
           entities := entities l ++
                       [Entity p (p + length gname)
                               (lit "Surname_" ++ str_of_int (i + 1)) gname];
           pos := p + length gname |}).
Proof.
  cbv zeta. cbn [given_names_loop].
  destruct (0 <? i)%N; reflexivity.
Qed.

(** The loop returns, and what it leaves behind. *)
Lemma given_names_loop_run names : forall i r l,
  exists l',
    given_names_loop i names (r, l) = Some (tt, (r, l')) /\
    (Inv l -> Inv l') /\
    entities l' = entities l ++ surname_entities i (pos l) names /\
    join (parts l') = join (parts l) ++ names_text i names.
Proof.
  induction names as [|gname rest IH]; intros i r l.
  - exists l. split; [reflexivity|]. split; [auto|].
    cbn [surname_entities names_text]. now rewrite !app_nil_r.
  - rewrite given_names_loop_cons. cbv zeta.
    match goal with
    | |- exists l', given_names_loop _ _ (_, ?l1) = _ /\ _ =>
        destruct (IH (i + 1)%N r l1) as (l' & Hrun & HInv & Hents & Htext)
    end.
    exists l'. split; [exact Hrun|].
    cbn [parts entities pos] in HInv, Hents, Htext.
    split; [|split].
    + intros HI. apply HInv. destruct (0 <? i)%N.
      * apply (@Inv_entity
                 {| parts := parts l ++ [lit ", "]; entities := entities l;
                    pos := pos l + 2 |} gname (length gname));
          try reflexivity; [|apply firstn_all].
        apply Inv_segment; [exact HI | reflexivity].
      * apply Inv_entity; try reflexivity; [exact HI | apply firstn_all].
    + rewrite Hents, <- app_assoc. reflexivity.
    + rewrite Htext. cbn [names_text]. destruct (0 <? i)%N.
      * rewrite !join_snoc, <- !app_assoc. reflexivity.
      * rewrite join_snoc, <- !app_assoc. reflexivity.
Qed.

Lemma surname_entities_values names : forall i p,
  map e_value (surname_entities i p names) = names.
Proof.
  induction names as [|g rest IH]; intros i p; [reflexivity|].
  cbn [surname_entities map e_value]. now rewrite IH.
Qed.

Lemma surname_entities_filter names : forall i p,
  filter is_given_name (surname_entities i p names) = surname_entities i p names.
Proof.
  induction names as [|g rest IH]; intros i p; [reflexivity|].
  cbn [surname_entities filter]. unfold is_given_name at 1. cbn [e_label].
  rewrite starts_with_app. now rewrite IH.
Qed.

Lemma filter_no_given_name es : no_given_name es -> filter is_given_name es = [].
Proof.
  induction 1 as [|e es He _ IH]; [reflexivity|]. simpl. now rewrite He.
Qed.

(** ** The format routines *)

(** Run the given-names loop and go on from the locals it leaves. *)
Ltac run_loop l' Hrun HInv Hents Htext :=
  cbn [pos parts entities fst snd];
  lazymatch goal with
  | |- wp (bind (given_names_loop ?i ?names) _) _ (?r, ?l) =>
      destruct (given_names_loop_run names i r l) as (l' & Hrun & HInv & Hents & Htext);
      apply (wp_bind_run Hrun); clear Hrun
  end.

(** The invariant changes over the loop: from then on the entities
    recorded before it, and the text written before it, are fixed. *)
Lemma after_given_names names l l' :
  InvE no_given_name any_text l -> (Inv l -> Inv l') ->
  entities l' = entities l ++ surname_entities 0 (pos l) names ->
  join (parts l') = join (parts l) ++ names_text 0 names ->
  exists pre before,
    no_given_name pre /\
    stable (names_recorded pre (surname_entities 0 (length before) names))
           (names_written before (names_text 0 names)) /\
    InvE (names_recorded pre (surname_entities 0 (length before) names))
         (names_written before (names_text 0 names)) l'.
Proof.
  intros (HIl & Hpre & _) HInv Hents Htext.
  exists (entities l), (join (parts l)).
  split; [exact Hpre|]. split; [apply stable_after_names|].
  assert (Hpos : pos l = length (join (parts l))) by apply HIl.
  rewrite <- Hpos.
  split; [now apply HInv|]. split.
  - exists []. rewrite app_nil_r. split; [exact Hents | constructor].
  - exists []. now rewrite app_nil_r.
Qed.

Lemma generate_simple_format_body_spec self r l :
  Inv l -> no_given_name (entities l) ->
  wp (generate_simple_format_body self)
     (fun sample _ =>
        Forall (entity_ok (fst sample)) (snd sample) /\
        chain 0 (snd sample) (length (fst sample)) /\
        exists names r2,
          given_names_of_run self r = Some (names, r2) /\
          shows_given_names names (fst sample) (snd sample))
     (r, l).
Proof.
  intros HI0 Hnone.
  assert (Hst := stable_before_names).
  assert (HI : InvE no_given_name any_text l)
    by (split; [exact HI0 | split; [exact Hnone | exact I]]).
  clear HI0 Hnone.
  unfold generate_simple_format_body. cbv zeta.
  rnd header. rnd header_noisy. ent.             (* Country *)
  rnd doc_type_noisy. ent.                       (* DOC_TYPE *)
  rnd id_label_noisy. seg. rnd id_num. ent.      (* DNI *)
  rnd nat_label_noisy. seg. ent.                 (* Nationality *)
  rnd surname. rnd given_names_list.
  rnd u. cut_group.
  { guarded. destruct given_names_list as [|[|c g] rest]; gstep; seg. }
  rnd u. cut_group.
  { guarded. rnd chosen_noise. guarded. seg. }
  rnd name_label_noisy. seg. ent.                (* Name *)
  rnd u. cut_group.
  { guarded. rnd social_label. rnd social_label_noisy. seg.
    rnd alt_name. gstep. rnd u'.
    destruct (flt _ _); [gstep; rnd second; gstep | gstep]; ent. }
  rnd prenom_label_noisy. seg.
  (* Given names: from here on the entities recorded so far and the text
     written so far are fixed. *)
  run_loop l' Hrun HInv Hents Htext.
  destruct (after_given_names HI HInv Hents Htext) as (pre & before & Hpre & Hst2 & HI2).
  clear HI HInv Hents Htext Hst.
  rnd sex_label_noisy. seg.
  rnd gender.
  assert (Hlen : length gender = 1) by (cases_of_choice Hgender; reflexivity).
  ent.                                           (* Gender *)
  rnd ne_label_noisy. seg. rnd birth_date. ent.  (* Date of birthday *)
  rnd u. cut_group. { guarded. seg. rnd city. ent. }
  rnd u. cut_group. { guarded. rnd taille_label_noisy. seg. rnd height. ent. }
  rnd u. cut_group. { guarded. rnd sig_label_noisy. seg. }
  unfold wp, return_sample. cbn [fst snd].
  lazymatch goal with
  | H : InvE _ _ _ |- _ =>
      destruct H as ((Hp & Hok & Hch) & (post & Hents & Hpost) & (after & Htext))
  end.
  split; [exact Hok|]. split; [now rewrite <- Hp|].
  eexists given_names_list, _. split.
  { unfold given_names_of_run, bind.
    rewrite Hheader; cbv beta iota.
    rewrite Hheader_noisy; cbv beta iota.
    rewrite Hdoc_type_noisy; cbv beta iota.
    rewrite Hid_label_noisy; cbv beta iota.
    rewrite Hid_num; cbv beta iota.
    rewrite Hnat_label_noisy; cbv beta iota.
    rewrite Hsurname; cbv beta iota.
    exact Hgiven_names_list. }
  exists pre, post, before, after. repeat split; assumption.
Qed.

Lemma generate_bilingual_format_body_spec self r l :
  Inv l ->
  wp (generate_bilingual_format_body self)
     (fun sample _ =>
        Forall (entity_ok (fst sample)) (snd sample) /\
        chain 0 (snd sample) (length (fst sample)))
     (r, l).
Proof.
  intros HI0.
  assert (Hst := stable_any).
  assert (HI : InvE any_entities any_text l)
    by (split; [exact HI0 | split; exact I]).
  clear HI0.
  unfold generate_bilingual_format_body. cbv zeta.
  rnd header. rnd header_noisy. ent.             (* Country *)
  seg.
  rnd doc_type_noisy. ent.                       (* DOC_TYPE *)
  rnd field_label. seg. rnd surname. ent.        (* Name *)
  rnd given_label. seg.
  rnd count. rnd given_names_list.
  run_loop l' Hrun HInv Hents Htext.
  assert (HI' : InvE any_entities any_text l')
    by (split; [apply HInv, HI | split; exact I]).
  clear HI HInv Hents Htext.
  rnd gender_label. seg.
  rnd nat_label. seg.
  seg.
  rnd gender.
  assert (Hlen : length gender = 1) by (cases_of_choice Hgender; reflexivity).
  ent.                                           (* Gender *)
  rnd nationality. ent.                          (* Nationality *)
  rnd birth_date. ent.                           (* Date of birthday *)
  rnd u. cut_group. { guarded. seg. rnd city. ent. }
  rnd u. cut_group. { guarded. rnd guardian_label_noisy. seg. rnd guardian_name. ent. }
  seg. rnd id_num. ent.                          (* DNI *)
  rnd u. cut_group. { guarded. seg. rnd expiry. ent. }
  rnd u. cut_group.
  { guarded. seg. rnd chosen_noise.
    cut_group.
    { destruct (str_eqb chosen_noise (lit "MA ")); [seg|].
      destruct (str_eqb chosen_noise (lit "random_2letter")).
      { rnd noise.
        assert (Hlen3 : length noise = 3) by (cases_of_choice Hnoise; reflexivity).
        seg. }
      destruct (str_eqb chosen_noise (lit "random_digits")).
      { rnd noise_len. rnd ds. seg. }
      assumption. }
    rnd support. ent. }
  unfold wp, return_sample. cbn [fst snd].
  lazymatch goal with
  | H : InvE _ _ _ |- _ => destruct H as ((Hp & Hok & Hch) & _)
  end.
  split; [exact Hok | now rewrite <- Hp].
Qed.

End AssemblerProofs.
(** ** Samples *)

Section Samples.
Context {RT : Runtime}.

Lemma call_spec {A} (body : Gen A) (Q : A -> Prop) r a r' :
  wp body (fun x _ => Q x) (r, {| parts := []; entities := []; pos := 0 |}) ->
  call body r = Some (a, r') -> Q a.
Proof.
  unfold call, wp. destruct (body _) as [[x s']|]; [|discriminate].
  intros H E. now injection E as <- _.
Qed.

(** What both format routines guarantee of a sample they return. *)
Lemma sample_ok self r text ents r' :
  generate_simple_format self r = Some (text, ents, r') \/
  generate_bilingual_format self r = Some (text, ents, r') ->
  Forall (entity_ok text) ents /\ chain 0 ents (length text).
Proof.
  intros [H | H].
  - assert (Hb := @generate_simple_format_body_spec _ self r _ Inv_init (Forall_nil _)).
    apply (fun Hb => call_spec Hb H) in Hb. cbn [fst snd] in Hb.
    destruct Hb as (H1 & H2 & _). now split.
  - assert (Hb := @generate_bilingual_format_body_spec _ self r _ Inv_init).
    apply (fun Hb => call_spec Hb H) in Hb. exact Hb.
Qed.

Lemma chain_consecutive es : forall lo hi i a b,
  chain lo es hi ->
  nth_error es i = Some a -> nth_error es (S i) = Some b ->
  e_start a <= e_end a /\ e_end a <= e_start b.
Proof.
  induction es as [|x es IH]; intros lo hi i a b Hch Ha Hb.
  - destruct i; discriminate.
  - destruct Hch as (H1 & H2 & H3). destruct i as [|i].
    + simpl in Ha. injection Ha as <-.
      destruct es as [|y es']; [discriminate|].
      simpl in Hb. injection Hb as <-.
      destruct H3 as (H3 & _). split; assumption.
    + apply (IH _ _ i a b H3 Ha Hb).
Qed.

(** C1. In every sample either format routine returns, whatever the noise
    configuration, each entity's span holds its value in the final text,
    and lies inside a part of the text that no later append touches:
    whatever is appended to the text, the span still holds the value. *)
Theorem span_correctness (self : FakerIDGenerator) (r : rng)
    (text : str) (ents : list entity) (r' : rng) :
  generate_simple_format self r = Some (text, ents, r') \/
  generate_bilingual_format self r = Some (text, ents, r') ->
  Forall (fun e =>
            slice text (e_start e) (e_end e) = e_value e /\
            e_end e <= length text /\
            forall seg, slice (text ++ seg) (e_start e) (e_end e) = e_value e)
         ents.
Proof.
  intros H. destruct (sample_ok H) as (Hok & _).
  eapply Forall_impl; [|exact Hok].
  intros e (H1 & H2 & H3). repeat split; auto.
  intros seg. now rewrite slice_app_stable.
Qed.

(** C7, as the code has it.  In every sample either format routine returns,
    consecutive entities do not overlap and are in text order: each ends
    at or before the start of the next, so start offsets never decrease,
    and they increase past every entity whose value is not empty. *)
Theorem entities_in_text_order (self : FakerIDGenerator) (r : rng)
    (text : str) (ents : list entity) (r' : rng) :
  generate_simple_format self r = Some (text, ents, r') \/
  generate_bilingual_format self r = Some (text, ents, r') ->
  forall i a b,
    nth_error ents i = Some a -> nth_error ents (S i) = Some b ->
    e_start a <= e_end a /\ e_end a <= e_start b /\ e_start a <= e_start b /\
    (e_value a <> [] -> e_start a < e_start b).
Proof.
  intros H i a b Ha Hb. destruct (sample_ok H) as (Hok & Hch).
  destruct (chain_consecutive Hch Ha Hb) as (H1 & H2).
  repeat split; try lia.
  intros Hne.
  assert (Hlt : e_start a < e_end a).
  { destruct (Nat.eq_dec (e_start a) (e_end a)) as [E | E]; [|lia].
    exfalso. apply Hne.
    rewrite Forall_forall in Hok.
    destruct (Hok a (nth_error_In _ _ Ha)) as (_ & _ & Hs).
    rewrite <- Hs. unfold slice. rewrite E, Nat.sub_diag. reflexivity. }
  lia.
Qed.

End Samples.

Lemma span_correctness_witness :
  exists text ents r',
    generate_simple_format (RT := exact_sums) medium_like (tape_of [eighths 7])
      = Some (text, ents, r') /\
    Forall (fun e =>
              slice text (e_start e) (e_end e) = e_value e /\
              e_end e <= length text /\
              forall seg, slice (text ++ seg) (e_start e) (e_end e) = e_value e)
           ents.
Proof.
  assert (E : { s | generate_simple_format (RT := exact_sums) medium_like
                      (tape_of [eighths 7]) = Some s })
    by (eexists; vm_compute; reflexivity).
  destruct E as [[[text ents] r'] E].
  exists text, ents, r'. split; [exact E|].
  exact (@span_correctness exact_sums medium_like (tape_of [eighths 7])
           text ents r' (or_introl E)).
Defined.

Lemma entities_in_text_order_witness :
  exists text ents r',
    generate_bilingual_format (RT := exact_sums) medium_like (tape_of [eighths 7])
      = Some (text, ents, r') /\
    forall i a b,
      nth_error ents i = Some a -> nth_error ents (S i) = Some b ->
      e_start a <= e_end a /\ e_end a <= e_start b /\ e_start a <= e_start b /\
      (e_value a <> [] -> e_start a < e_start b).
Proof.
  assert (E : { s | generate_bilingual_format (RT := exact_sums) medium_like
                      (tape_of [eighths 7]) = Some s })
    by (eexists; vm_compute; reflexivity).
  destruct E as [[[text ents] r'] E].
  exists text, ents, r'. split; [exact E|].
  exact (@entities_in_text_order exact_sums medium_like (tape_of [eighths 7])
           text ents r' (or_intror E)).
Defined.

(** C7, as stated, fails: when the draws drop every character of the
    document type and of the label after it, the document type and the
    ID number start at the same offset. *)
Lemma starts_not_strictly_increasing :
  option_map (firstn 3) (spans (generate_simple_format (RT := exact_sums) medium_like zero_tape))
  = Some [ (0, 0, lit "Country"); (1, 1, lit "DOC_TYPE"); (1, 13, lit "DNI") ].
Proof. vm_compute. reflexivity. Qed.

(** ** Given names in the simple format *)

Lemma surname_label_1 : lit "Surname_" ++ str_of_int (0 + 1) = lit "Surname_1".
Proof. vm_compute. reflexivity. Qed.

Lemma surname_label_2 : lit "Surname_" ++ str_of_int (0 + 1 + 1) = lit "Surname_2".
Proof. vm_compute. reflexivity. Qed.

Lemma surname_label_3 : lit "Surname_" ++ str_of_int (0 + 1 + 1 + 1) = lit "Surname_3".
Proof. vm_compute. reflexivity. Qed.

Lemma surname_entities_three (p : nat) (a b c : str) :
  surname_entities 0 p [a; b; c] =
  [ Entity p (p + length a) (lit "Surname_1") a;
    Entity (p + length a + 2) (p + length a + 2 + length b) (lit "Surname_2") b;
    Entity (p + length a + 2 + length b + 2)
           (p + length a + 2 + length b + 2 + length c) (lit "Surname_3") c ].
Proof.
  cbn [surname_entities].
  change (0 <? 0)%N with false.
  change (0 <? 0 + 1)%N with true.
  change (0 <? 0 + 1 + 1)%N with true.
  cbv iota. now rewrite surname_label_1, surname_label_2, surname_label_3.
Qed.

Lemma names_text_three (a b c : str) :
  names_text 0 [a; b; c] = a ++ lit ", " ++ b ++ lit ", " ++ c.
Proof.
  cbn [names_text].
  change (0 <? 0)%N with false.
  change (0 <? 0 + 1)%N with true.
  change (0 <? 0 + 1 + 1)%N with true.
  cbv iota. rewrite app_nil_r. reflexivity.
Qed.

Section GivenNames.
Context {RT : Runtime}.

(** C8. A sample of the simple format records the given names generated in
    its run, all of them and in their order, as its entities labelled
    [Surname_...]; when exactly three names [a], [b], [c] are generated in
    the run, these are exactly three consecutive entities labelled
    [Surname_1], [Surname_2], [Surname_3], over [a], [b], [c] in that
    order, and the text from the start of the first to the end of the third
    is [a, b, c]. *)
Theorem simple_format_three_given_names (self : FakerIDGenerator) (r : rng)
    (text : str) (ents : list entity) (r' : rng) :
  generate_simple_format self r = Some (text, ents, r') ->
  (exists names r1,
     given_names_of_run self r = Some (names, r1) /\
     map e_value (filter is_given_name ents) = names) /\
  forall a b c r1,
    given_names_of_run self r = Some ([a; b; c], r1) ->
    exists pre post p,
      ents = pre ++
             [ Entity p (p + length a) (lit "Surname_1") a;
               Entity (p + length a + 2) (p + length a + 2 + length b)
                      (lit "Surname_2") b;
               Entity (p + length a + 2 + length b + 2)
                      (p + length a + 2 + length b + 2 + length c)
                      (lit "Surname_3") c ] ++ post /\
      filter is_given_name pre = [] /\
      filter is_given_name post = [] /\
      slice text p (p + length a + 2 + length b + 2 + length c)
      = a ++ lit ", " ++ b ++ lit ", " ++ c.
Proof.
  intros H.
  assert (Hb := @generate_simple_format_body_spec _ self r _ Inv_init (Forall_nil _)).
  apply (fun Hb => call_spec Hb H) in Hb. cbn [fst snd] in Hb.
  destruct Hb as (_ & _ & names & r2 & Hgen & pre & post & before & after
                  & Hents & Hpre & Hpost & Htext).
  assert (Hgiven : map e_value (filter is_given_name ents) = names).
  { rewrite Hents, !filter_app, (filter_no_given_name Hpre),
      (filter_no_given_name Hpost), surname_entities_filter, app_nil_r.
    apply surname_entities_values. }
  split; [now exists names, r2|].
  intros a b c r1 Hrun. rewrite Hgen in Hrun. injection Hrun as -> _.
  exists pre, post, (length before).
  rewrite surname_entities_three in Hents. rewrite names_text_three in Htext.
  split; [exact Hents|].
  split; [now apply filter_no_given_name|].
  split; [now apply filter_no_given_name|].
  rewrite Htext.
  replace (length before + length a + 2 + length b + 2 + length c)
    with (length before + length (a ++ lit ", " ++ b ++ lit ", " ++ c)).
  - apply slice_fresh.
  - rewrite !length_app. change (length (lit ", ")) with 2. lia.
Qed.

End GivenNames.

Lemma simple_format_three_given_names_witness :
  exists r' r1,
    generate_simple_format (RT := exact_sums) quiet (cycle_tape [2; 5; 8]%N)
      = Some (three_names_text, three_names_entities, r') /\
    given_names_of_run (H := exact_sums) quiet (cycle_tape [2; 5; 8]%N)
      = Some ([lit "ANNE"; lit "ANNE"; lit "LUC"], r1) /\
    exists pre post,
      three_names_entities =
        pre ++ [ Entity 142 146 (lit "Surname_1") (lit "ANNE");
                 Entity 148 152 (lit "Surname_2") (lit "ANNE");
                 Entity 154 157 (lit "Surname_3") (lit "LUC") ] ++ post /\
      slice three_names_text 142 157 = lit "ANNE, ANNE, LUC".
Proof.
  assert (E : { r' | generate_simple_format (RT := exact_sums) quiet
                       (cycle_tape [2; 5; 8]%N)
                     = Some (three_names_text, three_names_entities, r') })
    by (eexists; vm_compute; reflexivity).
  assert (G : { r1 | given_names_of_run (H := exact_sums) quiet
                       (cycle_tape [2; 5; 8]%N)
                     = Some ([lit "ANNE"; lit "ANNE"; lit "LUC"], r1) })
    by (eexists; vm_compute; reflexivity).
  destruct E as [r' E]. destruct G as [r1 G].
  exists r', r1. split; [exact E|]. split; [exact G|].
  destruct (proj2 (@simple_format_three_given_names exact_sums quiet
                     (cycle_tape [2; 5; 8]%N) three_names_text
                     three_names_entities r' E)
              (lit "ANNE") (lit "ANNE") (lit "LUC") r1 G)
    as (pre & post & p & Hents & Hpre & Hpost & Hslice).
  assert (Hp : p = 142).
  { apply (f_equal (fun es => map e_start (filter is_given_name es))) in Hents.
    rewrite !filter_app, Hpre, Hpost in Hents.
    vm_compute in Hents. now injection Hents as <-. }
  subst p. exists pre, post. split; [exact Hents | exact Hslice].
Defined.
(** ** Field typos under the clean preset *)

(** C5 fails on the code: under the clean preset (noise disabled, every
    probability zero) a label with an entry in the field-typo table is
    still replaced by a variant; the sample shows [Prenom(s)], not the
    label [Prénom(s)]. *)
Lemma clean_preset_still_applies_field_typos :
  noise_enabled clean_with_typos = false /\
  option_map fst (apply_field_typo (RT := exact_sums) clean_with_typos
                    (lit "Prénom(s)") zero_tape)
    = Some (lit "Prenom(s)") /\
  text_of (generate_simple_format (RT := exact_sums) clean_with_typos zero_tape)
    = Some (lit "RÉPUBLIQUE FRANÇAISE CARTE NATIONALE D'IDENTITÉ N° : 000000000000 Nationalité Française MA RF Nom : MARTIN Epouse: MARTIN- MARTIN Prenom(s): ANNE Sexe : M Né(e) le : 03.11.1990 à SMITH Taille : 1 50m Signature du titulaire :").
Proof. repeat split; vm_compute; reflexivity. Qed.

(* ================================================================== *)
(** * Further properties *)

(** ** Computations that return *)

Lemma twp_bind {S A B} (m : M S A) (k : A -> M S B) (Q : B -> S -> Prop) s :
  twp m (fun a s' => twp (k a) Q s') s -> twp (bind m k) Q s.
Proof. unfold twp, bind. destruct (m s) as [[a s']|]; auto. Qed.

Lemma twp_ret {S A} (a : A) (Q : A -> S -> Prop) s : Q a s -> twp (ret a) Q s.
Proof. auto. Qed.

Lemma twp_mono {S A} (m : M S A) (P Q : A -> S -> Prop) s :
  twp m P s -> (forall a s', P a s' -> Q a s') -> twp m Q s.
Proof. unfold twp. destruct (m s) as [[a s']|]; auto. Qed.

Lemma twp_run {S A} (m : M S A) (Q : A -> S -> Prop) s :
  twp m Q s -> exists a s', m s = Some (a, s') /\ Q a s'.
Proof. unfold twp. destruct (m s) as [[a s']|]; [eauto | contradiction]. Qed.

Lemma twp_wp {S A} (m : M S A) (P Q : A -> S -> Prop) s :
  twp m P s -> wp m Q s -> twp m (fun a s' => P a s' /\ Q a s') s.
Proof. unfold twp, wp. destruct (m s) as [[a s']|]; auto. Qed.

Lemma returns_bind {S A B} (m : M S A) (k : A -> M S B) (P : A -> Prop) (Q : B -> Prop) :
  returns m P -> (forall a, P a -> returns (k a) Q) -> returns (bind m k) Q.
Proof.
  intros Hm Hk r. apply twp_bind. eapply twp_mono; [apply Hm|].
  intros a r' Ha. now apply Hk.
Qed.

Lemma returns_ret {S A} (a : A) (P : A -> Prop) : P a -> returns (S := S) (ret a) P.
Proof. intros H r. exact H. Qed.

Lemma returns_mono {S A} (m : M S A) (P Q : A -> Prop) :
  returns m P -> (forall a, P a -> Q a) -> returns m Q.
Proof. intros Hm HPQ r. eapply twp_mono; [apply Hm | auto]. Qed.

Lemma returns_next_raw : returns next_raw (fun _ => True).
Proof. intros r. exact I. Qed.

Lemma returns_random_random :
  returns random_random (fun u => (0 <= u /\ u < 1)%Q).
Proof. intros r. unfold twp. rewrite random_random_eq. apply uniform_range. Qed.

Lemma returns_randint (a b : N) :
  (a <= b)%N -> returns (randint a b) (fun n => (a <= n <= b)%N).
Proof.
  intros Hab r. unfold twp, randint, bind, next_raw, ret.
  assert (H := N.mod_upper_bound (r 0) (b - a + 1) ltac:(lia)).
  set (x := (r 0%nat mod (b - a + 1))%N) in *. clearbody x. lia.
Qed.

Lemma returns_choice {A} (seq : list A) (P : A -> Prop) :
  seq <> [] -> Forall P seq -> returns (choice seq) P.
Proof.
  intros Hne HP r. unfold twp.
  destruct (choice seq r) as [[a r']|] eqn:E.
  - rewrite Forall_forall in HP. apply HP. eapply choice_In; eauto.
  - unfold choice in E. destruct seq as [|x xs]; [congruence|].
    unfold bind, next_raw in E.
    destruct (nth_error (x :: xs) _) eqn:En; [discriminate|].
    apply nth_error_None in En.
    assert (H := N.mod_upper_bound (r 0) (N.of_nat (length (x :: xs)))
                 ltac:(simpl; lia)).
    set (i := (r 0%nat mod N.of_nat (length (x :: xs)))%N) in *. clearbody i. lia.
Qed.

Lemma returns_repeatM {A} (n : nat) (m : Rand A) (P : A -> Prop) :
  returns m P -> returns (repeatM n m) (fun l => length l = n /\ Forall P l).
Proof.
  intros Hm. induction n as [|n IH].
  - apply returns_ret. split; [reflexivity | constructor].
  - cbn [repeatM]. eapply returns_bind; [exact Hm|]. intros a Ha.
    eapply returns_bind; [exact IH|]. intros l (Hl & HP).
    apply returns_ret. split; [simpl; congruence | now constructor].
Qed.

(** ** Decimal numerals *)

Lemma str_eqb_refl (s : str) : str_eqb s s = true.
Proof. induction s as [|c s IH]; [reflexivity|]. simpl. now rewrite N.eqb_refl. Qed.

Lemma str_eqb_eq (a b : str) : str_eqb a b = true <-> a = b.
Proof.
  split; [|intros ->; apply str_eqb_refl].
  revert b. induction a as [|x a IH]; intros [|y b]; simpl; try discriminate; auto.
  intros H. apply andb_prop in H. destruct H as (H1 & H2).
  apply N.eqb_eq in H1. apply IH in H2. congruence.
Qed.

Lemma str_eqb_neq (a b : str) : str_eqb a b = false <-> a <> b.
Proof.
  rewrite <- str_eqb_eq. destruct (str_eqb a b); split; congruence.
Qed.

Lemma fold_utf8_uint (d : Decimal.uint) : forall acc,
  fold_left utf8_step
    (map N_of_ascii (list_ascii_of_string (NilEmpty.string_of_uint d))) acc
  = rev (uint_codes d) ++ acc.
Proof.
  induction d; intros acc; [reflexivity|..];
    cbn [NilEmpty.string_of_uint list_ascii_of_string map fold_left uint_codes rev];
    rewrite <- app_assoc; rewrite <- IHd; reflexivity.
Qed.

Lemma str_of_int_codes (n : N) : str_of_int n = uint_codes (N.to_uint n).
Proof.
  unfold str_of_int, lit. rewrite fold_utf8_uint, app_nil_r. apply rev_involutive.
Qed.

Lemma length_uint_codes (d : Decimal.uint) :
  length (uint_codes d) = Decimal.nb_digits d.
Proof. induction d; simpl; congruence. Qed.

Lemma uint_codes_digits (d : Decimal.uint) :
  Forall (fun c => is_digit c = true) (uint_codes d).
Proof. induction d; simpl; constructor; auto. Qed.

Lemma str_of_int_digits (n : N) : Forall (fun c => is_digit c = true) (str_of_int n).
Proof. rewrite str_of_int_codes. apply uint_codes_digits. Qed.

Lemma to_lu_tenfold_plus (q r : N) :
  (0 < q)%N -> (r < 10)%N ->
  Decimal.nb_digits (DecimalPos.Unsigned.to_lu (10 * q + r))
  = S (Decimal.nb_digits (DecimalPos.Unsigned.to_lu q)).
Proof.
  intros Hq Hr. destruct q as [|p]; [lia|].
  assert (Hc : (r = 0 \/ r = 1 \/ r = 2 \/ r = 3 \/ r = 4 \/ r = 5 \/ r = 6
                \/ r = 7 \/ r = 8 \/ r = 9)%N) by lia.
  assert (H0 := DecimalPos.Unsigned.to_ldec_tenfold p).
  repeat (destruct Hc as [-> | Hc]); [..|subst r].
  - rewrite N.add_0_r, H0. reflexivity.
  - replace (10 * N.pos p + 1)%N with (N.succ (10 * N.pos p)) by lia.
    rewrite !DecimalPos.Unsigned.to_lu_succ, H0. reflexivity.
  - replace (10 * N.pos p + 2)%N with (N.succ (N.succ (10 * N.pos p))) by lia.
    rewrite !DecimalPos.Unsigned.to_lu_succ, H0. reflexivity.
  - replace (10 * N.pos p + 3)%N
      with (N.succ (N.succ (N.succ (10 * N.pos p)))) by lia.
    rewrite !DecimalPos.Unsigned.to_lu_succ, H0. reflexivity.
  - replace (10 * N.pos p + 4)%N
      with (N.succ (N.succ (N.succ (N.succ (10 * N.pos p))))) by lia.
    rewrite !DecimalPos.Unsigned.to_lu_succ, H0. reflexivity.
  - replace (10 * N.pos p + 5)%N
      with (N.succ (N.succ (N.succ (N.succ (N.succ (10 * N.pos p)))))) by lia.
    rewrite !DecimalPos.Unsigned.to_lu_succ, H0. reflexivity.
  - replace (10 * N.pos p + 6)%N
      with (N.succ (N.succ (N.succ (N.succ (N.succ (N.succ (10 * N.pos p)))))))
      by lia.
    rewrite !DecimalPos.Unsigned.to_lu_succ, H0. reflexivity.
  - replace (10 * N.pos p + 7)%N
      with (N.succ (N.succ (N.succ (N.succ (N.succ (N.succ (N.succ
             (10 * N.pos p)))))))) by lia.
    rewrite !DecimalPos.Unsigned.to_lu_succ, H0. reflexivity.
  - replace (10 * N.pos p + 8)%N
      with (N.succ (N.succ (N.succ (N.succ (N.succ (N.succ (N.succ (N.succ
             (10 * N.pos p))))))))) by lia.
    rewrite !DecimalPos.Unsigned.to_lu_succ, H0. reflexivity.
  - replace (10 * N.pos p + 9)%N
      with (N.succ (N.succ (N.succ (N.succ (N.succ (N.succ (N.succ (N.succ
             (N.succ (10 * N.pos p)))))))))) by lia.
    rewrite !DecimalPos.Unsigned.to_lu_succ, H0. reflexivity.
Qed.

Lemma nb_digits_to_lu (k : nat) : forall n,
  (10 ^ N.of_nat k <= n < 10 ^ N.of_nat (S k))%N ->
  Decimal.nb_digits (DecimalPos.Unsigned.to_lu n) = S k.
Proof.
  induction k as [|k IH]; intros n Hn.
  - change (10 ^ N.of_nat 0)%N with 1%N in Hn.
    change (10 ^ N.of_nat 1)%N with 10%N in Hn.
    assert (Hc : (n = 1 \/ n = 2 \/ n = 3 \/ n = 4 \/ n = 5 \/ n = 6
                  \/ n = 7 \/ n = 8 \/ n = 9)%N) by lia.
    repeat (destruct Hc as [-> | Hc]); [..|subst n]; reflexivity.
  - rewrite !Nat2N.inj_succ, !N.pow_succ_r' in Hn.
    rewrite Nat2N.inj_succ, N.pow_succ_r' in IH.
    assert (Hdm := N.div_mod n 10 ltac:(discriminate)).
    assert (Hr := N.mod_upper_bound n 10 ltac:(discriminate)).
    assert (Hp : (0 < 10 ^ N.of_nat k)%N) by (apply N.neq_0_lt_0, N.pow_nonzero; discriminate).
    set (q := (n / 10)%N) in *. set (m := (n mod 10)%N) in *.
    set (p := (10 ^ N.of_nat k)%N) in *. clearbody q m p. subst n.
    rewrite to_lu_tenfold_plus; [|lia|exact Hr].
    f_equal. apply IH. lia.
Qed.

Lemma nb_digits_to_uint (n : N) :
  (0 < n)%N ->
  Decimal.nb_digits (N.to_uint n) = Decimal.nb_digits (DecimalPos.Unsigned.to_lu n).
Proof.
  destruct n as [|p]; [lia|]. intros _.
  unfold N.to_uint, Pos.to_uint. now rewrite DecimalFacts.nb_digits_rev.
Qed.

(** [str(n)] has [k+1] characters when [n] lies between [10^k] and
    [10^(k+1)]. *)
Lemma length_str_of_int (k : nat) (n : N) :
  (10 ^ N.of_nat k <= n < 10 ^ N.of_nat (S k))%N ->
  length (str_of_int n) = S k.
Proof.
  intros Hn. rewrite str_of_int_codes, length_uint_codes.
  assert (Hp : (0 < 10 ^ N.of_nat k)%N) by (apply N.neq_0_lt_0, N.pow_nonzero; discriminate).
  rewrite nb_digits_to_uint by lia. now apply nb_digits_to_lu.
Qed.

Lemma length_str_of_int_small (n : N) : (n < 10)%N -> length (str_of_int n) = 1.
Proof.
  intros Hn. destruct (N.eq_dec n 0) as [-> | Hz]; [reflexivity|].
  apply (@length_str_of_int 0). change (10 ^ N.of_nat 0)%N with 1%N.
  change (10 ^ N.of_nat 1)%N with 10%N. lia.
Qed.

(** ** Shapes of the synthesized values *)

Lemma returns_choice_In {A} (seq : list A) :
  seq <> [] -> returns (choice seq) (fun a => In a seq).
Proof. intros Hne. apply returns_choice; [exact Hne|]. now apply Forall_forall. Qed.

Lemma matches_app (p1 p2 : list (char -> bool)) (s2 : str) : forall s1,
  matches p1 s1 = true -> matches p2 s2 = true -> matches (p1 ++ p2) (s1 ++ s2) = true.
Proof.
  induction p1 as [|p p1 IH]; intros [|c s1]; simpl; try discriminate; auto.
  intros H1 H2. apply andb_prop in H1. destruct H1 as (Hc & H1).
  rewrite Hc. now apply IH.
Qed.

Lemma matches_length (p : list (char -> bool)) : forall s,
  matches p s = true -> length s = length p.
Proof.
  induction p as [|x p IH]; intros [|c s]; simpl; try discriminate; auto.
  intros H. apply andb_prop in H. destruct H as (_ & H). f_equal. now apply IH.
Qed.

Lemma matches_repeat (p : char -> bool) (s : str) :
  Forall (fun c => p c = true) s -> matches (repeat p (length s)) s = true.
Proof. induction 1 as [|c s Hc _ IH]; [reflexivity|]. simpl. now rewrite Hc. Qed.

Lemma matches_join_repeat (p : char -> bool) (l : list str) :
  Forall (fun s => matches [p] s = true) l ->
  matches (repeat p (length l)) (join l) = true.
Proof.
  induction 1 as [|s l Hs _ IH]; [reflexivity|].
  change (matches ([p] ++ repeat p (length l)) (s ++ join l) = true).
  now apply matches_app.
Qed.

Lemma str_of_int_one_digit (n : N) :
  (n < 10)%N -> matches [is_digit] (str_of_int n) = true.
Proof.
  intros Hn. change [is_digit] with (repeat is_digit 1).
  rewrite <- (length_str_of_int_small Hn).
  apply matches_repeat, str_of_int_digits.
Qed.

Lemma str_of_int_shape (k : nat) (n : N) :
  (10 ^ N.of_nat k <= n < 10 ^ N.of_nat (S k))%N ->
  matches (repeat is_digit (S k)) (str_of_int n) = true.
Proof.
  intros Hn. rewrite <- (length_str_of_int Hn) at 1.
  apply matches_repeat, str_of_int_digits.
Qed.

Lemma fmt_02d_shape (n : N) :
  (n < 100)%N -> matches [is_digit; is_digit] (fmt_02d n) = true.
Proof.
  intros Hn. unfold fmt_02d. destruct (N.lt_ge_cases n 10) as [Hs | Hb].
  - rewrite (length_str_of_int_small Hs). cbn [Nat.ltb Nat.leb].
    apply (matches_app (p1 := [is_digit]) (p2 := [is_digit]));
      [reflexivity | now apply str_of_int_one_digit].
  - assert (H2 : (10 ^ N.of_nat 1 <= n < 10 ^ N.of_nat 2)%N)
      by (change (10 ^ N.of_nat 1)%N with 10%N; change (10 ^ N.of_nat 2)%N with 100%N; lia).
    rewrite (length_str_of_int H2). cbn [Nat.ltb Nat.leb].
    apply (str_of_int_shape H2).
Qed.

Lemma returns_random_digits (n : nat) :
  returns (random_digits n)
          (fun ds => length ds = n /\ matches (repeat is_digit n) (join ds) = true).
Proof.
  unfold random_digits.
  eapply returns_mono.
  - apply returns_repeatM with (P := fun s => matches [is_digit] s = true).
    eapply returns_bind; [apply returns_randint; lia|].
    intros d Hd. cbv beta in Hd. apply returns_ret. apply str_of_int_one_digit. lia.
  - intros ds (Hl & Hd). split; [exact Hl|]. rewrite <- Hl. now apply matches_join_repeat.
Qed.

(** Evaluate the comparisons of closed strings in the goal. *)
Ltac eval_str_eqb :=
  repeat match goal with
         | |- context [str_eqb (lit ?a) (lit ?b)] =>
             let v := eval vm_compute in (str_eqb (lit a) (lit b)) in
             change (str_eqb (lit a) (lit b)) with v
         end;
  cbv iota.

Lemma id_number_shape :
  returns generate_id_number
    (fun id => matches numeric_shape id || matches date_based_shape id
               || matches alphanumeric_shape id = true).
Proof.
  unfold generate_id_number.
  eapply returns_bind; [apply returns_choice_In; discriminate|].
  intros format_type Hf. simpl in Hf.
  destruct Hf as [<- | [<- | [<- | []]]]; eval_str_eqb.
  - eapply returns_bind; [apply returns_random_digits|].
    intros ds (_ & Hds). apply returns_ret.
    unfold numeric_shape. now rewrite Hds.
  - eapply returns_bind; [apply returns_randint; lia|]. intros year Hy. cbv beta in Hy.
    eapply returns_bind; [apply returns_randint; lia|]. intros month Hm. cbv beta in Hm.
    eapply returns_bind; [apply returns_randint; lia|]. intros day Hd. cbv beta in Hd.
    eapply returns_bind; [apply returns_random_digits|]. intros ds (_ & Hds).
    apply returns_ret.
    assert (E : matches date_based_shape
                  (fmt_02d year ++ fmt_02d month ++ fmt_02d day ++ lit "T" ++ join ds)
                = true).
    { unfold date_based_shape.
      change (repeat is_digit 6)
        with ([is_digit; is_digit] ++ [is_digit; is_digit] ++ [is_digit; is_digit]).
      rewrite <- !app_assoc.
      apply matches_app; [apply fmt_02d_shape; lia|].
      apply matches_app; [apply fmt_02d_shape; lia|].
      apply matches_app; [apply fmt_02d_shape; lia|].
      apply matches_app; [reflexivity | exact Hds]. }
    rewrite E. now rewrite orb_true_r.
  - assert (Hletters : Forall (fun s => matches [is_upper] s = true) letters)
      by (repeat constructor).
    assert (Hnums : Forall (fun s => matches [is_digit] s = true) nums)
      by (repeat constructor).
    eapply returns_bind; [apply (returns_choice (seq := letters)); [discriminate | exact Hletters]|].
    intros a Ha.
    eapply returns_bind; [apply (returns_choice (seq := nums)); [discriminate | exact Hnums]|].
    intros b Hb.
    eapply returns_bind;
      [apply returns_repeatM, (returns_choice (seq := letters)); [discriminate | exact Hletters]|].
    intros c (Hc3 & Hc).
    eapply returns_bind;
      [apply returns_repeatM, (returns_choice (seq := nums)); [discriminate | exact Hnums]|].
    intros d (Hd2 & Hd).
    eapply returns_bind; [apply (returns_choice (seq := letters)); [discriminate | exact Hletters]|].
    intros e He.
    eapply returns_bind; [apply (returns_choice (seq := nums)); [discriminate | exact Hnums]|].
    intros f Hf.
    apply returns_ret.
    assert (E : matches alphanumeric_shape (a ++ b ++ join c ++ join d ++ e ++ f) = true).
    { change alphanumeric_shape
        with ([is_upper] ++ [is_digit] ++ repeat is_upper 3 ++ repeat is_digit 2
              ++ [is_upper] ++ [is_digit]).
      apply matches_app; [exact Ha|].
      apply matches_app; [exact Hb|].
      apply matches_app; [rewrite <- Hc3; now apply matches_join_repeat|].
      apply matches_app; [rewrite <- Hd2; now apply matches_join_repeat|].
      apply matches_app; [exact He|].
      rewrite <- (app_nil_r f), <- (app_nil_r [is_digit]).
      apply matches_app; [exact Hf | reflexivity]. }
    rewrite E. now rewrite orb_true_r.
Qed.

Lemma support_number_shape :
  returns generate_support_number
    (fun s => matches (repeat is_digit 6) s = true).
Proof.
  unfold generate_support_number.
  eapply returns_bind; [apply returns_randint; lia|]. intros n Hn. cbv beta in Hn.
  apply returns_ret. apply (@str_of_int_shape 5).
  change (10 ^ N.of_nat 5)%N with 100000%N.
  change (10 ^ N.of_nat 6)%N with 1000000%N. lia.
Qed.

Lemma height_shape :
  returns generate_height
    (fun h => existsb (fun shape => matches shape h) height_shapes = true /\
              4 <= length h <= 5).
Proof.
  unfold generate_height.
  eapply returns_bind; [apply returns_randint; lia|]. intros meters Hmeters. cbv beta in Hmeters.
  eapply returns_bind; [apply returns_randint; lia|]. intros cm Hcm. cbv beta in Hcm.
  eapply returns_bind; [apply returns_choice_In; discriminate|]. intros separator Hsep.
  eapply returns_bind; [apply returns_choice_In; discriminate|]. intros unit Hunit.
  apply returns_ret.
  assert (Hm : meters = 1%N \/ meters = 2%N) by lia.
  assert (Hc : matches [is_digit; is_digit] (str_of_int cm) = true).
  { apply (@str_of_int_shape 1).
    change (10 ^ N.of_nat 1)%N with 10%N. change (10 ^ N.of_nat 2)%N with 100%N. lia. }
  assert (Hl := matches_length Hc).
  destruct (str_of_int cm) as [|c1 [|c2 [|c3 rest]]]; try discriminate Hl. clear Hl.
  simpl in Hc. apply andb_prop in Hc. destruct Hc as (Hc1 & Hc2).
  apply andb_prop in Hc2. destruct Hc2 as (Hc2 & _).
  simpl in Hsep, Hunit.
  destruct Hm as [-> | ->];
    destruct Hsep as [<- | [<- | []]];
    destruct Hunit as [<- | [<- | []]];
    (split; [|simpl; lia]);
    unfold height_shapes; cbn [existsb];
    change (str_of_int 1) with [49%N]; change (str_of_int 2) with [50%N];
    change (lit " ") with [32%N]; change (lit "m") with [109%N];
    change (lit "M") with [77%N];
    cbn [app matches]; rewrite Hc1, Hc2;
    first [reflexivity | apply orb_true_iff; right; reflexivity].
Qed.


Lemma two_chars (s : str) :
  matches [is_digit; is_digit] s = true -> exists a b, s = [a; b].
Proof.
  intros H. assert (Hl := matches_length H).
  destruct s as [|a [|b [|c rest]]]; try discriminate Hl. now exists a, b.
Qed.

Lemma date_text_shape (sep : string) (c : char) (d m y : N) :
  lit sep = [c] ->
  (d < 100)%N -> (m < 100)%N -> (1000 <= y < 10000)%N ->
  let s := fmt_02d d ++ lit sep ++ fmt_02d m ++ lit sep ++ str_of_int y in
  matches (date_shape sep) s = true /\ slice s 6 10 = str_of_int y.
Proof.
  intros Hsep Hd Hm Hy s.
  assert (H4 : matches (repeat is_digit 4) (str_of_int y) = true).
  { apply (@str_of_int_shape 3).
    change (10 ^ N.of_nat 3)%N with 1000%N. change (10 ^ N.of_nat 4)%N with 10000%N.
    lia. }
  assert (Hsp : matches [is_char sep] (lit sep) = true).
  { rewrite Hsep. unfold matches, is_char. rewrite Hsep, str_eqb_refl. reflexivity. }
  split.
  - subst s.
    change (date_shape sep)
      with ([is_digit; is_digit] ++ [is_char sep] ++ [is_digit; is_digit]
            ++ [is_char sep] ++ repeat is_digit 4).
    apply matches_app; [now apply fmt_02d_shape|].
    apply matches_app; [exact Hsp|].
    apply matches_app; [now apply fmt_02d_shape|].
    apply matches_app; [exact Hsp | exact H4].
  - subst s. rewrite Hsep.
    destruct (two_chars (fmt_02d_shape Hd)) as (a1 & a2 & ->).
    destruct (two_chars (fmt_02d_shape Hm)) as (b1 & b2 & ->).
    unfold slice. cbn [app skipn Nat.sub].
    apply firstn_all2. rewrite (matches_length H4). reflexivity.
Qed.

Lemma expiry_date_shape (birth_year : N) :
  (967 <= birth_year <= 9934)%N ->
  returns (generate_expiry_date birth_year)
    (fun s => matches (date_shape " ") s = true /\
              exists y, (birth_year + 33 <= y <= birth_year + 65)%N /\
                        slice s 6 10 = str_of_int y).
Proof.
  intros Hb. unfold generate_expiry_date.
  eapply returns_bind; [apply returns_randint; lia|]. intros k Hk. cbv beta in Hk.
  eapply returns_bind; [apply returns_randint; lia|]. intros month Hm. cbv beta in Hm.
  eapply returns_bind; [apply returns_randint; lia|]. intros day Hd. cbv beta in Hd.
  apply returns_ret.
  destruct (@date_text_shape " " 32%N day month (birth_year + k + 15))
    as (H1 & H2); [reflexivity | lia | lia | lia |].
  split; [exact H1|]. exists (birth_year + k + 15)%N. split; [lia | exact H2].
Qed.


Section Synthesizers.
Context {RT : Runtime}.

(** X5. With at least one provider, and providers whose dates of birth have
    a day and a month below 100 and a year of four digits,
    [generate_date] returns on every draw ten characters of the shape
    [DD.MM.YYYY] or [DD MM YYYY]. *)
Theorem generate_date_shape (self : FakerIDGenerator) :
  fakers self <> [] ->
  (forall f raw, In f (fakers self) -> plausible_date (date_of_birth f 18 80 raw)) ->
  returns (generate_date self)
    (fun s => matches (date_shape ".") s || matches (date_shape " ") s = true).
Proof.
  intros Hne Hdates. unfold generate_date.
  eapply returns_bind; [apply returns_choice_In; exact Hne|]. intros faker Hf.
  eapply returns_bind; [apply returns_next_raw|]. intros raw _.
  destruct (Hdates faker raw Hf) as (Hd & Hm & Hy).
  eapply returns_bind; [apply returns_choice_In; discriminate|].
  intros format_type Hfmt. simpl in Hfmt.
  destruct Hfmt as [<- | [<- | []]]; eval_str_eqb; apply returns_ret.
  - destruct (@date_text_shape "." 46%N _ _ _ eq_refl Hd Hm Hy) as (H1 & _).
    cbv zeta in H1. now rewrite H1.
  - destruct (@date_text_shape " " 32%N _ _ _ eq_refl Hd Hm Hy) as (H1 & _).
    cbv zeta in H1. rewrite H1. apply orb_true_r.
Qed.

End Synthesizers.

Lemma generate_date_shape_witness :
  returns (generate_date quiet)
    (fun s => matches (date_shape ".") s || matches (date_shape " ") s = true).
Proof.
  apply generate_date_shape; [discriminate|].
  intros f raw [<- | []]. unfold plausible_date. simpl. lia.
Defined.


(** ** What the synthesizers return *)

(** X1. [generate_id_number] returns on every draw, and what it returns has
    one of three shapes: twelve digits; six digits, the letter T and five
    digits (twelve characters again); or nine characters, letters and
    digits in the pattern A1AAA11A1. *)
Theorem generate_id_number_shape (r : rng) :
  exists id r',
    generate_id_number r = Some (id, r') /\
    matches numeric_shape id || matches date_based_shape id
    || matches alphanumeric_shape id = true.
Proof. exact (twp_run (id_number_shape r)). Qed.

(** X2. [generate_support_number] returns on every draw, and what it returns
    is six decimal digits. *)
Theorem generate_support_number_six_digits (r : rng) :
  exists s r',
    generate_support_number r = Some (s, r') /\
    matches (repeat is_digit 6) s = true.
Proof. exact (twp_run (support_number_shape r)). Qed.

(** X3. [generate_height] returns on every draw, and what it returns is the
    digit 1 or 2, two digits of centimetres and the letter m or M, with or
    without a space after the first digit: four or five characters. *)
Theorem generate_height_shape (r : rng) :
  exists h r',
    generate_height r = Some (h, r') /\
    existsb (fun shape => matches shape h) height_shapes = true /\
    4 <= length h <= 5.
Proof. exact (twp_run (height_shape r)). Qed.

(** X4. For a birth year from 967 to 9934, [generate_expiry_date] returns on
    every draw ten characters of the shape [DD MM YYYY], and the year
    written is from 33 to 65 years after the birth year. *)
Theorem generate_expiry_date_shape (birth_year : N) (r : rng) :
  (967 <= birth_year <= 9934)%N ->
  exists s r',
    generate_expiry_date birth_year r = Some (s, r') /\
    matches (date_shape " ") s = true /\
    exists y, (birth_year + 33 <= y <= birth_year + 65)%N /\
              slice s 6 10 = str_of_int y.
Proof. intros Hb. exact (twp_run (expiry_date_shape Hb r)). Qed.

Lemma generate_expiry_date_shape_witness :
  exists s r',
    generate_expiry_date 1980 zero_tape = Some (s, r') /\
    matches (date_shape " ") s = true /\
    exists y, (1980 + 33 <= y <= 1980 + 65)%N /\ slice s 6 10 = str_of_int y.
Proof. apply generate_expiry_date_shape. lia. Defined.

(** ** Further properties of the noise engine *)

Lemma flt_below_one (k : N) (p : Q) : (1 <= p)%Q -> flt (uniform k) p = true.
Proof.
  intros Hp. apply flt_true. destruct (uniform_range k) as (_ & H).
  eapply Qlt_le_trans; eauto.
Qed.

Lemma flt_nonpositive (k : N) (p : Q) : (p <= 0)%Q -> flt (uniform k) p = false.
Proof.
  intros Hp. apply flt_false. destruct (uniform_range k) as (H & _).
  eapply Qle_trans; eauto.
Qed.

Lemma dict_lookup_In {V} (d : dict V) (k : str) (v : V) :
  dict_lookup d k = Some v -> In (k, v) d.
Proof.
  induction d as [|(k' & v') d IH]; simpl; [discriminate|].
  destruct (str_eqb k' k) eqn:E.
  - intros [= ->]. apply str_eqb_eq in E. subst. now left.
  - intros H. right. now apply IH.
Qed.

Lemma contains_refl (s : str) : contains s s = true.
Proof.
  assert (H : starts_with s s = true).
  { rewrite <- (app_nil_r s) at 2. apply starts_with_app. }
  destruct s; simpl in *; [reflexivity|]. now rewrite H.
Qed.

Lemma absent_keys_lookup {V} (d : dict V) (t : str) :
  Forall (fun item => contains (fst item) t = false) d ->
  dict_lookup d t = None /\ find (fun item => contains (fst item) t) d = None.
Proof.
  induction 1 as [|(k & v) d Hk _ (IH1 & IH2)]; [now split|].
  cbn [fst] in Hk. cbn [dict_lookup find fst]. rewrite Hk.
  destruct (str_eqb k t) eqn:E; [|now split].
  apply str_eqb_eq in E. subst. rewrite contains_refl in Hk. discriminate.
Qed.

Lemma find_first_contained {V} (before after : dict V) (original : str) (v : V)
    (t : str) :
  Forall (fun item => contains (fst item) t = false) before ->
  contains original t = true ->
  find (fun item => contains (fst item) t) (before ++ (original, v) :: after)
  = Some (original, v).
Proof.
  induction 1 as [|(k & w) before Hk _ IH]; intros Ho; simpl.
  - now rewrite Ho.
  - cbn [fst] in Hk. rewrite Hk. now apply IH.
Qed.

Section FieldTypoTiers.
Context {RT : Runtime}.

(** C6. [apply_field_typo] resolves a label in three tiers.  A label with an
    exact entry in the field-typo table gets one of that entry's variants,
    drawn by [random.choice] on one draw (the variant at the draw's residue
    modulo their number, so every variant is returned on some draw),
    whatever other keys occur in the label.  A label with no exact entry
    gets, for the first key in table order that occurs in it, every
    occurrence of that key replaced by one variant of the key, drawn on one
    draw.  A label in which no key occurs gets [apply_noise] with noise
    allowed, on the same draws. *)
Theorem apply_field_typo_exact_first
    (self : FakerIDGenerator) (label : str) (r : rng) :
  (forall variants,
     dict_lookup (field_typos self) label = Some variants ->
     apply_field_typo self label r = choice variants r /\
     (variants <> [] ->
      exists v,
        nth_error variants (N.to_nat (r 0 mod N.of_nat (length variants))) = Some v /\
        In v variants /\
        apply_field_typo self label r = Some (v, shift r)) /\
     (forall v, In v variants ->
        exists r0, apply_field_typo self label r0 = Some (v, shift r0))) /\
  (forall before original variants after,
     dict_lookup (field_typos self) label = None ->
     field_typos self = before ++ (original, variants) :: after ->
     Forall (fun item => contains (fst item) label = false) before ->
     contains original label = true ->
     apply_field_typo self label r =
     match choice variants r with
     | Some (v, r1) => Some (replace label original v, r1)
     | None => None
     end) /\
  (Forall (fun item => contains (fst item) label = false) (field_typos self) ->
   apply_field_typo self label r = apply_noise self label true r).
Proof.
  split; [|split].
  - intros variants Hexact.
    assert (Hfirst : forall r0, apply_field_typo self label r0 = choice variants r0).
    { intros r0. unfold apply_field_typo. now rewrite Hexact. }
    assert (Hchoice : forall r0 i v, nth_error variants i = Some v ->
              N.to_nat (r0 0 mod N.of_nat (length variants)) = i ->
              choice variants r0 = Some (v, shift r0)).
    { intros r0 i v Hv Hi. unfold choice. destruct variants as [|x xs]; [now destruct i|].
      unfold bind, next_raw. rewrite Hi, Hv. reflexivity. }
    split; [apply Hfirst|]. split.
    + intros Hne.
      assert (Hlen : (N.of_nat (length variants) <> 0)%N).
      { destruct variants; [congruence | discriminate]. }
      destruct (nth_error variants (N.to_nat (r 0 mod N.of_nat (length variants))))
        as [v|] eqn:Hv.
      * exists v. split; [reflexivity|]. split; [eapply nth_error_In; eauto|].
        rewrite Hfirst. eapply Hchoice; eauto.
      * exfalso. apply nth_error_None in Hv.
        assert (H := N.mod_upper_bound (r 0) _ Hlen). lia.
    + intros v Hin. apply In_nth_error in Hin. destruct Hin as (i & Hi).
      exists (fun _ => N.of_nat i). rewrite Hfirst.
      apply (Hchoice _ i v Hi).
      assert (Hlt : i < length variants) by (apply nth_error_Some; congruence).
      rewrite N.mod_small by lia. apply Nat2N.id.
  - intros before original variants after Hnone Htable Hbefore Hocc.
    unfold apply_field_typo. rewrite Hnone, Htable.
    rewrite (find_first_contained after variants Hbefore Hocc).
    unfold bind. destruct (choice variants r) as [[v r1]|]; reflexivity.
  - intros Habsent. destruct (absent_keys_lookup Habsent) as (H1 & H2).
    unfold apply_field_typo. now rewrite H1, H2.
Qed.

End FieldTypoTiers.

Lemma apply_field_typo_exact_first_witness :
  apply_field_typo (RT := exact_sums) typo_generator (lit " SEXE /Sex ") (tape_of [4%N])
  = choice [lit " SEXE /Sex "; lit " SEXE/Sex "; lit " 5EXE /Sex "] (tape_of [4%N]) /\
  apply_field_typo (RT := exact_sums) typo_generator (lit " SEXE /Sex / Sex") zero_tape
  = Some (lit " SEXE /5ex / 5ex", shift zero_tape) /\
  apply_field_typo (RT := exact_sums) typo_generator (lit "Prénom(s)") zero_tape
  = apply_noise (RT := exact_sums) typo_generator (lit "Prénom(s)") true zero_tape.
Proof.
  split; [|split].
  - apply (proj1 (@apply_field_typo_exact_first exact_sums typo_generator
                    (lit " SEXE /Sex ") (tape_of [4%N]))).
    reflexivity.
  - etransitivity.
    + apply (proj1 (proj2 (@apply_field_typo_exact_first exact_sums typo_generator
                             (lit " SEXE /Sex / Sex") zero_tape))
               [] (lit "Sex") [lit "5ex"]
               [(lit " SEXE /Sex ",
                 [lit " SEXE /Sex "; lit " SEXE/Sex "; lit " 5EXE /Sex "])]).
      * reflexivity.
      * reflexivity.
      * constructor.
      * reflexivity.
    + vm_compute. reflexivity.
  - apply (proj2 (proj2 (@apply_field_typo_exact_first exact_sums typo_generator
                           (lit "Prénom(s)") zero_tape))).
    repeat constructor.
Defined.

(** X7. When the probability of a missing character is 1 or more,
    [_apply_character_noise] deletes every character: it returns the empty
    string for every text, on every draw. *)
Theorem character_noise_deletes_all (self : FakerIDGenerator) (text : str) :
  (1 <= missing_char_prob self)%Q ->
  returns (_apply_character_noise self text) (fun out => out = []).
Proof.
  intros Hp. induction text as [|c text IH]; intros r; [reflexivity|].
  unfold twp. rewrite apply_character_noise_cons.
  unfold char_noise_step at 1, bind at 1. rewrite random_random_eq.
  rewrite (flt_below_one _ Hp). unfold ret at 1.
  specialize (IH (shift r)). unfold twp in IH.
  destruct (_apply_character_noise self text (shift r)) as [[t r2]|]; [|contradiction].
  now subst t.
Qed.

Lemma character_noise_deletes_all_witness :
  returns (_apply_character_noise
             (demo_generator demo_faker true 1 0 0 0 0 1 0 [] [])
             (lit "CARTE"))
          (fun out => out = []).
Proof. apply character_noise_deletes_all. simpl. discriminate. Defined.

(** X8. When the four character probabilities are zero or less,
    [_apply_character_noise] returns every text unchanged, on every draw
    and whatever the substitution table and the pool of extra characters
    hold. *)
Theorem character_noise_unchanged (self : FakerIDGenerator) (text : str) :
  (missing_char_prob self <= 0)%Q -> (char_sub_prob self <= 0)%Q ->
  (double_char_prob self <= 0)%Q -> (extra_char_prob self <= 0)%Q ->
  returns (_apply_character_noise self text) (fun out => out = text).
Proof.
  intros Hm Hs Hd He. induction text as [|c text IH]; intros r; [reflexivity|].
  unfold twp. rewrite apply_character_noise_cons.
  assert (Hstep : exists r1, char_noise_step self c r = Some ([[c]], r1)).
  { unfold char_noise_step, bind. rewrite random_random_eq.
    rewrite (flt_nonpositive _ Hm).
    destruct (dict_lookup (char_subs self) [c]);
      unfold ret; cbv beta iota;
      repeat (rewrite random_random_eq; cbv beta iota);
      rewrite ?(flt_nonpositive _ Hs), ?(flt_nonpositive _ Hd), ?(flt_nonpositive _ He);
      eexists; reflexivity. }
  destruct Hstep as (r1 & ->).
  specialize (IH r1). unfold twp in IH.
  destruct (_apply_character_noise self text r1) as [[t r2]|]; [|contradiction].
  now subst t.
Qed.

Lemma character_noise_unchanged_witness :
  returns (_apply_character_noise enabled_but_zero (lit "NOM")) (fun out => out = lit "NOM").
Proof. apply character_noise_unchanged; simpl; discriminate. Defined.

(** X9. When every substitute and every extra character is at most one
    character long, the text [_apply_character_noise] returns is at most
    three times as long as its input: a character yields at most itself or
    its substitute, one duplicate and one extra character. *)
Theorem character_noise_at_most_triples
    (self : FakerIDGenerator) (text : str) (r : rng) (out : str) (r' : rng) :
  Forall (fun item => length (snd item) <= 1) (char_subs self) ->
  Forall (fun x => length x <= 1) (extra_chars self) ->
  _apply_character_noise self text r = Some (out, r') ->
  length out <= 3 * length text.
Proof.
  intros Hsubs Hextra. revert r out r'.
  assert (Hget : forall c, length (dict_get (char_subs self) [c] [c]) <= 1).
  { intros c. unfold dict_get.
    destruct (dict_lookup (char_subs self) [c]) as [v|] eqn:E; [|simpl; lia].
    apply dict_lookup_In in E. rewrite Forall_forall in Hsubs. apply (Hsubs _ E). }
  assert (Hstep : forall c r outs r1,
            char_noise_step self c r = Some (outs, r1) -> length (join outs) <= 3).
  { intros c r outs r1. unfold char_noise_step, bind.
    rewrite random_random_eq.
    destruct (flt _ (missing_char_prob self)); [intros [= <- _]; simpl; lia|].
    assert (Hx : forall r0 x r2, choice (extra_chars self) r0 = Some (x, r2) ->
                                 length x <= 1).
    { intros r0 x r2 Hc. apply choice_In in Hc.
      rewrite Forall_forall in Hextra. now apply Hextra. }
    specialize (Hget c).
    destruct (dict_lookup (char_subs self) [c]);
      unfold ret; cbv beta iota;
      repeat (rewrite random_random_eq; cbv beta iota);
      repeat match goal with
             | |- context [if flt ?a ?b then _ else _] => destruct (flt a b)
             end;
      try (destruct (choice (extra_chars self) _) as [[x r2]|] eqn:Ex;
           [apply Hx in Ex | discriminate]);
      intros [= <- _]; unfold join; simpl; rewrite ?app_nil_r, ?length_app; simpl; lia. }
  induction text as [|c text IH]; intros r out r'.
  - intros [= <- _]. simpl. lia.
  - rewrite apply_character_noise_cons.
    destruct (char_noise_step self c r) as [[outs r1]|] eqn:E1; [|discriminate].
    destruct (_apply_character_noise self text r1) as [[t r2]|] eqn:E2; [|discriminate].
    intros [= <- _]. apply Hstep in E1. apply IH in E2.
    rewrite length_app. simpl length. lia.
Qed.

Lemma character_noise_at_most_triples_witness :
  length (lit "0O") <= 3 * length (lit "O").
Proof.
  apply (@character_noise_at_most_triples substitute_and_double (lit "O") zero_tape
           (lit "0O") (Nat.iter 3 shift zero_tape)).
  - repeat constructor.
  - repeat constructor.
  - vm_compute. reflexivity.
Defined.

Section NoiseFallbacks.
Context {RT : Runtime}.

(** X10. A table of replacements none of whose keys occurs in a text leaves
    the text unchanged and makes no draw, whatever its variant lists
    hold. *)
Theorem apply_replacements_absent (table : dict (list str)) (text : str) (r : rng) :
  Forall (fun item => contains (fst item) text = false) table ->
  apply_replacements table text r = Some (text, r).
Proof.
  induction 1 as [|(k & vs) table Hk _ IH]; [reflexivity|].
  cbn [fst] in Hk. cbn [apply_replacements]. now rewrite Hk.
Qed.

(** X11. A label that contains no key of the field-typo table gets general
    noise: [apply_field_typo] is then [apply_noise] with noise allowed, on
    the same draws. *)
Theorem apply_field_typo_falls_back
    (self : FakerIDGenerator) (field_text : str) (r : rng) :
  Forall (fun item => contains (fst item) field_text = false) (field_typos self) ->
  apply_field_typo self field_text r = apply_noise self field_text true r.
Proof.
  intros H. destruct (absent_keys_lookup H) as (H1 & H2).
  unfold apply_field_typo. now rewrite H1, H2.
Qed.

End NoiseFallbacks.

Lemma apply_replacements_absent_witness :
  apply_replacements [(lit "NOM", []); (lit "CARTE", [lit "CARIE"])]
                     (lit "Sexe : ") zero_tape
  = Some (lit "Sexe : ", zero_tape).
Proof. apply apply_replacements_absent. repeat constructor. Defined.

Lemma apply_field_typo_falls_back_witness :
  apply_field_typo (RT := exact_sums) typo_generator (lit "Nom : ") zero_tape
  = apply_noise (RT := exact_sums) typo_generator (lit "Nom : ") true zero_tape.
Proof. apply apply_field_typo_falls_back. repeat constructor. Defined.

(** ** The format routines return *)














Section Totality.
Context {RT : Runtime}.








Lemma returns_generate_given_names (self : FakerIDGenerator) (count : option N) :
  fakers self <> [] ->
  returns (generate_given_names self count)
    (fun names =>
       match count with
       | Some c => length names = N.to_nat c
       | None => 1 <= length names <= 3
       end /\
       Forall (fun name => exists f raw,
                 In f (fakers self) /\ name = str_upper (first_name f raw))
              names).
Proof.
  intros Hne. unfold generate_given_names.
  assert (Hone : returns (faker <- choice (fakers self) ;;
                          raw <- next_raw ;;
                          ret (str_upper (first_name faker raw)))
                   (fun name => exists f raw,
                      In f (fakers self) /\ name = str_upper (first_name f raw))).
  { eapply returns_bind; [apply returns_choice_In; exact Hne|]. intros f Hf.
    eapply returns_bind; [apply returns_next_raw|]. intros raw _.
    apply returns_ret. now exists f, raw. }
  destruct count as [c|].
  - apply (returns_bind (P := fun c' => c' = c)); [now apply returns_ret|].
    intros c' ->.
    eapply returns_mono; [apply returns_repeatM, Hone|].
    intros names (Hl & HP). now split.
  - eapply returns_bind; [apply returns_randint; lia|]. intros c Hc. cbv beta in Hc.
    eapply returns_mono; [apply returns_repeatM, Hone|].
    intros names (Hl & HP). split; [lia | exact HP].
Qed.

End Totality.

Section GivenNamesCount.
Context {RT : Runtime}.

(** X6. With at least one provider, [generate_given_names] returns on every
    draw: exactly [count] names when a count is given, from one to three
    when none is, each the upper-cased first name of one of the
    providers. *)
Theorem generate_given_names_count
    (self : FakerIDGenerator) (count : option N) (r : rng) :
  fakers self <> [] ->
  exists names r',
    generate_given_names self count r = Some (names, r') /\
    match count with
    | Some c => length names = N.to_nat c
    | None => 1 <= length names <= 3
    end /\
    Forall (fun name => exists f raw,
              In f (fakers self) /\ name = str_upper (first_name f raw))
           names.
Proof. intros Hne. exact (twp_run (returns_generate_given_names count Hne r)). Qed.

End GivenNamesCount.

Lemma generate_given_names_count_witness :
  exists names r',
    generate_given_names (RT := exact_sums) quiet (Some 2%N) zero_tape
    = Some (names, r') /\
    length names = 2 /\
    Forall (fun name => exists f raw,
              In f (fakers quiet) /\ name = ascii_upper (first_name f raw))
           names.
Proof.
  apply (generate_given_names_count (RT := exact_sums) (Some 2%N) zero_tape).
  discriminate.
Defined.











Section FormatsReturn.
Context {RT : Runtime}.






End FormatsReturn.
(** ** Samples and batches *)

Section Batches.
Context {RT : Runtime}.





End Batches.






(** ** A label with no variant *)

Lemma wp_never {S A} (m : M S A) (s : S) : wp m (fun _ _ => False) s -> m s = None.
Proof. unfold wp. destruct (m s) as [[a s']|]; [contradiction | reflexivity]. Qed.

Lemma call_none {A} (body : Gen A) (r : rng) :
  body (r, {| parts := []; entities := []; pos := 0 |}) = None -> call body r = None.
Proof. unfold call. now intros ->. Qed.

Section NoVariant.
Context {RT : Runtime}.

(** X15. When the field-typo table lists the label [ Nationalité ] with an
    empty list of variants, [generate_simple_format] raises on every draw:
    it returns no sample at all. *)
Theorem simple_format_needs_variants (self : FakerIDGenerator) (r : rng) :
  dict_lookup (field_typos self) (lit " Nationalité ") = Some [] ->
  generate_simple_format self r = None.
Proof.
  intros Hempty. unfold generate_simple_format. apply call_none, wp_never.
  unfold generate_simple_format_body. cbv zeta.
  repeat lazymatch goal with
         | |- wp (bind (rand (apply_field_typo _ _)) _) _ _ => fail
         | _ => gstep
         end.
  apply wp_bind_rand. intros nat_label_noisy rest E.
  unfold apply_field_typo in E. rewrite Hempty in E. discriminate E.
Qed.

End NoVariant.

Lemma simple_format_needs_variants_witness :
  generate_simple_format (RT := exact_sums) no_variant_generator zero_tape = None.
Proof.
  apply simple_format_needs_variants. vm_compute. reflexivity.
Defined.

(** ** The labels of a sample and the values they carry *)

Lemma returns_result {S A} (m : M S A) (P : A -> Prop) s a s' :
  returns m P -> m s = Some (a, s') -> P a.
Proof. intros H E. specialize (H s). unfold twp in H. now rewrite E in H. Qed.

Lemma repeatM_length {A} (m : Rand A) (n : nat) : forall r l r',
  repeatM n m r = Some (l, r') -> length l = n.
Proof.
  induction n as [|n IH]; intros r l r'; cbn [repeatM].
  - now intros [= <- _].
  - unfold bind at 1. destruct (m r) as [[a r1]|]; [|discriminate].
    unfold bind at 1. destruct (repeatM n m r1) as [[l1 r2]|] eqn:E; [|discriminate].
    intros [= <- _]. simpl. f_equal. eapply IH; eauto.
Qed.

Lemma labelled_nil : labelled [] [].
Proof. split; constructor. Qed.

Lemma labelled_snoc (L : list str) (es : list entity) (e : entity) :
  labelled L es -> typed e -> labelled (L ++ [e_label e]) (es ++ [e]).
Proof.
  intros (HL & HT) He. split.
  - rewrite map_app, HL. reflexivity.
  - apply Forall_app. split; [exact HT | now constructor].
Qed.

Lemma labelled_optional_true (L : list str) (es : list entity) (e : entity) (x : string) :
  labelled L es -> typed e -> e_label e = lit x ->
  labelled (L ++ optional true x) (es ++ [e]).
Proof. intros H He Hx. unfold optional. rewrite <- Hx. now apply labelled_snoc. Qed.

Lemma labelled_optional_false (L : list str) (es : list entity) (x : string) :
  labelled L es -> labelled (L ++ optional false x) es.
Proof. intros H. unfold optional. now rewrite app_nil_r. Qed.

Lemma value_ok_surname (x v : str) : value_ok (lit "Surname_" ++ x) v.
Proof. vm_compute. exact I. Qed.

Lemma surname_entities_labels (names : list str) : forall i p,
  map e_label (surname_entities i p names) = surname_labels i (length names).
Proof.
  induction names as [|g rest IH]; intros i p; [reflexivity|].
  cbn [surname_entities map e_label length surname_labels]. now rewrite IH.
Qed.

Lemma surname_entities_typed (names : list str) : forall i p,
  Forall typed (surname_entities i p names).
Proof.
  induction names as [|g rest IH]; intros i p; [constructor|].
  cbn [surname_entities]. constructor; [apply value_ok_surname | apply IH].
Qed.

Lemma labelled_surnames (L : list str) (es : list entity) i p (names : list str) :
  labelled L es ->
  labelled (L ++ surname_labels i (length names)) (es ++ surname_entities i p names).
Proof.
  intros (HL & HT). split.
  - rewrite map_app, HL, surname_entities_labels. reflexivity.
  - apply Forall_app. split; [exact HT | apply surname_entities_typed].
Qed.

Lemma typed_gender s e (v : str) :
  In v [lit "M"; lit "F"] -> typed (Entity s e (lit "Gender") v).
Proof. exact (fun H => H). Qed.

Lemma typed_nationality s e (v : str) :
  In v nationalities -> typed (Entity s e (lit "Nationality") v).
Proof. exact (fun H => H). Qed.

Lemma typed_dni s e (v : str) :
  matches numeric_shape v || matches date_based_shape v
  || matches alphanumeric_shape v = true ->
  typed (Entity s e (lit "DNI") v).
Proof. exact (fun H => H). Qed.

Lemma typed_height s e (v : str) :
  existsb (fun shape => matches shape v) height_shapes = true ->
  typed (Entity s e (lit "Height") v).
Proof. exact (fun H => H). Qed.

Lemma typed_validity_date s e (v : str) :
  matches (date_shape " ") v = true -> typed (Entity s e (lit "Validity_date") v).
Proof. exact (fun H => H). Qed.

Lemma typed_support_number s e (v : str) :
  matches (repeat is_digit 6) v = true -> typed (Entity s e (lit "Support_number") v).
Proof. exact (fun H => H). Qed.

Lemma expiry_1980 : (967 <= 1980 <= 9934)%N.
Proof. lia. Qed.

(** The value of the entity just recorded is what its label says. *)
Ltac typed_solver :=
  lazymatch goal with
  | |- typed (Entity _ _ (lit "Gender") _) =>
      apply typed_gender; eapply choice_In; eassumption
  | |- typed (Entity _ _ (lit "Nationality") (lit _)) =>
      apply typed_nationality; left; reflexivity
  | |- typed (Entity _ _ (lit "Nationality") _) =>
      apply typed_nationality; right; eapply choice_In; eassumption
  | H : generate_id_number _ = Some (?v, _) |- typed (Entity _ _ (lit "DNI") ?v) =>
      apply typed_dni; exact (returns_result id_number_shape H)
  | H : generate_height _ = Some (?v, _) |- typed (Entity _ _ (lit "Height") ?v) =>
      apply typed_height; exact (proj1 (returns_result height_shape H))
  | H : generate_expiry_date _ _ = Some (?v, _)
    |- typed (Entity _ _ (lit "Validity_date") ?v) =>
      apply typed_validity_date;
      exact (proj1 (returns_result (expiry_date_shape expiry_1980) H))
  | H : generate_support_number _ = Some (?v, _)
    |- typed (Entity _ _ (lit "Support_number") ?v) =>
      apply typed_support_number; exact (returns_result support_number_shape H)
  | |- typed (Entity _ _ (lit _) _) => vm_compute; exact I
  end.

(** The entities recorded since the last cut extend what is known of the
    entities before it. *)
Ltac lab_now :=
  cbn [entities pos parts fst snd];
  repeat (apply labelled_snoc; [|typed_solver]);
  eassumption.

Ltac end_group := unfold keeps; lab_now.

(** A group of statements under a condition that records no entity. *)
Ltac plain_group tac :=
  let L := open_constr:(_ : list str) in
  eapply (wp_bind_keeps (I := fun l => labelled L (entities l)));
  [ apply wp_when_keeps; [lab_now | intros _; tac]
  | lazymatch goal with H : labelled _ _ |- _ => clear H end;
    let r := fresh "r" in let l := fresh "l" in let H := fresh "HJ" in
    intros _ r l H ].

(** A group of statements under a condition that records one entity,
    labelled [x]. *)
Ltac optional_group x tac :=
  let L := open_constr:(_ : list str) in
  eapply (wp_bind_keeps
            (I := fun l => exists b, labelled (L ++ optional b x) (entities l)));
  [ lazymatch goal with
    | |- wp (when ?b _) _ _ => destruct b; cbn [when]
    end;
    [ tac;
      (unfold keeps; cbn [entities pos parts fst snd];
       exists true; apply labelled_optional_true;
       [lab_now | typed_solver | reflexivity])
    | unfold wp, ret, keeps; cbn [entities pos parts fst snd];
      exists false; apply labelled_optional_false; lab_now ]
  | lazymatch goal with H : labelled _ _ |- _ => clear H end;
    let r := fresh "r" in let l := fresh "l" in
    let b := fresh "present" in let H := fresh "HJ" in
    intros _ r l (b & H) ].

Ltac to_names :=
  repeat lazymatch goal with
         | |- wp (bind (rand (generate_given_names _ _)) _) _ _ => fail
         | |- wp (bind (rand (randint _ _)) _) _ _ => fail
         | _ => gstep
         end.

Section Labels.
Context {RT : Runtime}.

Lemma given_names_length (self : FakerIDGenerator) (count : option N) r names r' :
  generate_given_names self count r = Some (names, r') ->
  match count with
  | Some c => length names = N.to_nat c
  | None => 1 <= length names <= 3
  end.
Proof.
  unfold generate_given_names. destruct count as [c|].
  - unfold bind at 1, ret at 1. apply repeatM_length.
  - unfold bind at 1.
    destruct (randint 1 3 r) as [[c r1]|] eqn:E; [|discriminate].
    intros H. apply repeatM_length in H.
    assert (Hc := returns_result (returns_randint (a := 1) (b := 3) ltac:(lia)) E).
    cbv beta in Hc. lia.
Qed.

(** Run the given-names loop and go on from the locals it leaves. *)
Ltac labelled_loop :=
  cbn [pos parts entities fst snd];
  lazymatch goal with
  | HJ : labelled _ _ |- wp (bind (given_names_loop ?i ?names) _) _ (?r, ?l) =>
      let l' := fresh "l" in
      let Hrun := fresh "Hrun" in
      let Hents := fresh "Hents" in
      destruct (given_names_loop_run names i r l) as (l' & Hrun & _ & Hents & _);
      apply (wp_bind_run Hrun); clear Hrun;
      cbn [pos parts entities] in Hents;
      let H := fresh "HJ" in
      assert (H : labelled (_ ++ surname_labels i (length names)) (entities l'))
        by (rewrite Hents; apply labelled_surnames; lab_now);
      clear HJ Hents
  end.

Lemma generate_simple_format_body_labelled (self : FakerIDGenerator) (r : rng) :
  wp (generate_simple_format_body self)
     (fun sample _ =>
        exists alt_name n birth_place height,
          1 <= n <= 3 /\
          labelled (simple_labels alt_name n birth_place height) (snd sample))
     (r, {| parts := []; entities := []; pos := 0 |}).
Proof.
  assert (HJ := labelled_nil).
  unfold generate_simple_format_body. cbv zeta.
  to_names. rnd given_names_list.
  assert (Hn := given_names_length Hgiven_names_list). cbv beta iota in Hn.
  gstep.
  plain_group ltac:(destruct given_names_list as [|[|c g] rest];
                    repeat gstep; end_group).
  gstep.
  plain_group ltac:(gstep; apply wp_when_keeps; [lab_now|]; intros _;
                    repeat gstep; end_group).
  repeat gstep.
  optional_group constr:("Alt_name"%string)
    ltac:(repeat gstep;
          lazymatch goal with
          | |- wp (bind (if ?b then _ else _) _) _ _ => destruct b
          end;
          repeat gstep).
  repeat gstep.
  labelled_loop.
  repeat gstep.
  optional_group constr:("Birth_place"%string) ltac:(repeat gstep).
  gstep.
  optional_group constr:("Height"%string) ltac:(repeat gstep).
  gstep.
  plain_group ltac:(repeat gstep; end_group).
  unfold wp, return_sample. cbn [fst snd].
  exists present, (length given_names_list), present0, present1.
  split; [exact Hn|].
  lazymatch goal with H : labelled _ _ |- _ => destruct H as (HL & HT) end.
  split; [|exact HT].
  rewrite HL. unfold simple_labels. rewrite <- !app_assoc. reflexivity.
Qed.

Lemma generate_bilingual_format_body_labelled (self : FakerIDGenerator) (r : rng) :
  wp (generate_bilingual_format_body self)
     (fun sample _ =>
        exists n birth_place alt_name validity_date support_number,
          1 <= n <= 2 /\
          labelled (bilingual_labels n birth_place alt_name validity_date support_number)
                   (snd sample))
     (r, {| parts := []; entities := []; pos := 0 |}).
Proof.
  assert (HJ := labelled_nil).
  unfold generate_bilingual_format_body. cbv zeta.
  to_names. rnd count. rnd given_names_list.
  assert (Hc := returns_result (returns_randint (a := 1) (b := 2) ltac:(lia)) Hcount).
  assert (Hn := given_names_length Hgiven_names_list). cbv beta iota in Hc, Hn.
  labelled_loop.
  repeat gstep.
  optional_group constr:("Birth_place"%string) ltac:(repeat gstep).
  gstep.
  optional_group constr:("Alt_name"%string) ltac:(repeat gstep).
  repeat gstep.
  optional_group constr:("Validity_date"%string) ltac:(repeat gstep).
  gstep.
  optional_group constr:("Support_number"%string)
    ltac:(repeat first
            [ gstep
            | lazymatch goal with
              | |- wp (bind (if ?b then _ else _) _) _ _ => destruct b
              end ]).
  unfold wp, return_sample. cbn [fst snd].
  exists (length given_names_list), present, present0, present1, present2.
  split; [lia|].
  lazymatch goal with H : labelled _ _ |- _ => destruct H as (HL & HT) end.
  split; [|exact HT].
  rewrite HL. unfold bilingual_labels. rewrite <- !app_assoc. reflexivity.
Qed.

End Labels.

Section SampleLabels.
Context {RT : Runtime}.

(** X16. The labels of a sample of [generate_simple_format] are, in this
    order: Country, DOC_TYPE, DNI, Nationality, Name, then Alt_name or
    nothing, then Surname_1 up to Surname_n for an n from 1 to 3, then
    Gender and Date of birthday, then Birth_place or nothing, then Height
    or nothing. *)
Theorem simple_format_labels (self : FakerIDGenerator) (r : rng)
    (text : str) (ents : list entity) (r' : rng) :
  generate_simple_format self r = Some (text, ents, r') ->
  exists alt_name n birth_place height,
    1 <= n <= 3 /\
    map e_label ents = simple_labels alt_name n birth_place height.
Proof.
  intros H.
  assert (Hb := call_spec (generate_simple_format_body_labelled self r) H).
  cbn [snd] in Hb. destruct Hb as (a & n & p & h & Hn & HL & _).
  now exists a, n, p, h.
Qed.

(** X17. The labels of a sample of [generate_bilingual_format] are, in this
    order: Country, DOC_TYPE, Name, then Surname_1 and perhaps Surname_2,
    then Gender, Nationality and Date of birthday, then Birth_place or
    nothing, Alt_name or nothing, then DNI, then Validity_date or nothing,
    then Support_number or nothing. *)
Theorem bilingual_format_labels (self : FakerIDGenerator) (r : rng)
    (text : str) (ents : list entity) (r' : rng) :
  generate_bilingual_format self r = Some (text, ents, r') ->
  exists n birth_place alt_name validity_date support_number,
    1 <= n <= 2 /\
    map e_label ents
    = bilingual_labels n birth_place alt_name validity_date support_number.
Proof.
  intros H.
  assert (Hb := call_spec (generate_bilingual_format_body_labelled self r) H).
  cbn [snd] in Hb. destruct Hb as (n & p & a & v & s & Hn & HL & _).
  now exists n, p, a, v, s.
Qed.

(** X18. In every sample of either format routine, whatever the noise
    configuration, the value of a Gender entity is M or F, the value of a
    Nationality entity is one of the nine the routines write, a DNI value
    has one of the three shapes of an identity number, a Height value the
    shape of a height, a Validity_date value the shape [DD MM YYYY] and a
    Support_number value is six digits: noise never reaches them. *)
Theorem entity_values_typed (self : FakerIDGenerator) (r : rng)
    (text : str) (ents : list entity) (r' : rng) :
  generate_simple_format self r = Some (text, ents, r') \/
  generate_bilingual_format self r = Some (text, ents, r') ->
  Forall (fun e => value_ok (e_label e) (e_value e)) ents.
Proof.
  intros [H | H].
  - assert (Hb := call_spec (generate_simple_format_body_labelled self r) H).
    cbn [snd] in Hb. destruct Hb as (a & n & p & h & _ & _ & HT). exact HT.
  - assert (Hb := call_spec (generate_bilingual_format_body_labelled self r) H).
    cbn [snd] in Hb. destruct Hb as (n & p & a & v & s & _ & _ & HT). exact HT.
Qed.

End SampleLabels.

Lemma simple_format_labels_witness :
  exists text ents r',
    generate_simple_format (RT := exact_sums) medium_like (tape_of [eighths 7])
    = Some (text, ents, r') /\
    exists alt_name n birth_place height,
      1 <= n <= 3 /\
      map e_label ents = simple_labels alt_name n birth_place height.
Proof.
  assert (E : { s | generate_simple_format (RT := exact_sums) medium_like
                      (tape_of [eighths 7]) = Some s })
    by (eexists; vm_compute; reflexivity).
  destruct E as [[[text ents] r'] E].
  exists text, ents, r'. split; [exact E|].
  exact (@simple_format_labels exact_sums medium_like (tape_of [eighths 7])
           text ents r' E).
Defined.

Lemma bilingual_format_labels_witness :
  exists text ents r',
    generate_bilingual_format (RT := exact_sums) medium_like (tape_of [eighths 7])
    = Some (text, ents, r') /\
    exists n birth_place alt_name validity_date support_number,
      1 <= n <= 2 /\
      map e_label ents
      = bilingual_labels n birth_place alt_name validity_date support_number.
Proof.
  assert (E : { s | generate_bilingual_format (RT := exact_sums) medium_like
                      (tape_of [eighths 7]) = Some s })
    by (eexists; vm_compute; reflexivity).
  destruct E as [[[text ents] r'] E].
  exists text, ents, r'. split; [exact E|].
  exact (@bilingual_format_labels exact_sums medium_like (tape_of [eighths 7])
           text ents r' E).
Defined.

Lemma entity_values_typed_witness :
  exists text ents r',
    generate_bilingual_format (RT := exact_sums) quiet zero_tape
    = Some (text, ents, r') /\
    Forall (fun e => value_ok (e_label e) (e_value e)) ents.
Proof.
  assert (E : { s | generate_bilingual_format (RT := exact_sums) quiet zero_tape
                    = Some s })
    by (eexists; vm_compute; reflexivity).
  destruct E as [[[text ents] r'] E].
  exists text, ents, r'. split; [exact E|].
  exact (@entity_values_typed exact_sums quiet zero_tape text ents r' (or_intror E)).
Defined.

(** ** The characters a city name keeps *)

Lemma select_nil (keep : list bool) : select keep [] = [].
Proof. now destruct keep. Qed.

Lemma select_app (ka kb : list bool) (b : str) : forall a,
  length ka = length a -> select (ka ++ kb) (a ++ b) = select ka a ++ select kb b.
Proof.
  induction ka as [|x ka IH]; intros [|c a] Hl; try discriminate Hl.
  - reflexivity.
  - simpl. rewrite IH by (simpl in Hl; lia). now destruct x.
Qed.

Lemma select_all (s : str) : select (repeat true (length s)) s = s.
Proof. induction s as [|c s IH]; simpl; [reflexivity | now rewrite IH]. Qed.

Lemma select_none (n : nat) : forall s, select (repeat false n) s = [].
Proof. induction n as [|n IH]; intros [|c s]; simpl; auto. Qed.

Lemma length_select (keep : list bool) : forall s,
  length keep = length s -> length (select keep s) = count_true keep.
Proof.
  unfold count_true.
  induction keep as [|x keep IH]; intros [|c s] Hl; try discriminate Hl; [reflexivity|].
  simpl. destruct x; simpl; rewrite IH by (simpl in Hl; lia); reflexivity.
Qed.

Lemma select_segment (u v w : str) :
  select (repeat false (length u) ++ repeat true (length v) ++ repeat false (length w))
         (u ++ v ++ w) = v.
Proof.
  rewrite select_app by apply repeat_length.
  rewrite select_app by apply repeat_length.
  rewrite !select_none, select_all. simpl. apply app_nil_r.
Qed.

Lemma length_replace_mask (old : str) : forall s k, length (replace_mask old k s) = length s.
Proof.
  induction s as [|c s IH]; intros k; [reflexivity|].
  cbn [replace_mask]. destruct k; [destruct (starts_with old (c :: s))|]; simpl; now rewrite IH.
Qed.

(** [replace_scan] keeps the characters [replace_mask] marks. *)
Lemma replace_scan_select (old : str) : forall s k,
  replace_scan old [] k s = select (replace_mask old k s) s.
Proof.
  induction s as [|c s IH]; intros k; [reflexivity|].
  cbn [replace_scan replace_mask].
  destruct k; [destruct (starts_with old (c :: s))|]; simpl; now rewrite IH.
Qed.

Lemma starts_with_length (p : str) : forall s, starts_with p s = true -> length p <= length s.
Proof.
  induction p as [|x p IH]; intros [|y s] H; simpl in *; try lia; try discriminate.
  apply andb_true_iff in H. destruct H as (_ & H). apply IH in H. lia.
Qed.

Lemma starts_with_prefix (p rest : str) : forall s,
  length p <= length s -> starts_with p (s ++ rest) = starts_with p s.
Proof.
  induction p as [|x p IH]; intros [|y s] Hl; simpl in *; try lia; try reflexivity.
  f_equal. apply IH. lia.
Qed.

(** The scan of [a ++ rest] is the scan of [a] then the scan of [rest],
    when no match that starts in [a] runs past its end. *)
Lemma replace_mask_app (old rest : str) : forall a k,
  k <= length a ->
  (forall i, i < length a ->
     starts_with old (skipn i (a ++ rest)) = true -> i + length old <= length a) ->
  replace_mask old k (a ++ rest) = replace_mask old k a ++ replace_mask old 0 rest.
Proof.
  induction a as [|c a IH]; intros k Hk Hin.
  - simpl in Hk. replace k with 0 by lia. reflexivity.
  - assert (Hnext : forall i, i < length a ->
              starts_with old (skipn i (a ++ rest)) = true -> i + length old <= length a).
    { intros i Hi Hs.
      assert (S i + length old <= length (c :: a)) by (apply Hin; [simpl; lia | exact Hs]).
      simpl in *. lia. }
    destruct k as [|k].
    + change ((c :: a) ++ rest) with (c :: (a ++ rest)). cbn [replace_mask].
      destruct (starts_with old (c :: (a ++ rest))) eqn:E.
      * assert (Hl : 0 + length old <= length (c :: a))
          by (apply Hin; [simpl; lia | exact E]).
        change (c :: (a ++ rest)) with ((c :: a) ++ rest) in E.
        rewrite starts_with_prefix in E by exact Hl. rewrite E.
        simpl. f_equal. apply IH; [simpl in Hl; lia | exact Hnext].
      * destruct (starts_with old (c :: a)) eqn:E'.
        -- pose proof (starts_with_length E') as Hl.
           change (c :: (a ++ rest)) with ((c :: a) ++ rest) in E.
           rewrite starts_with_prefix in E by exact Hl. congruence.
        -- simpl. f_equal. apply IH; [lia | exact Hnext].
    + simpl. f_equal. apply IH; [simpl in Hk; lia | exact Hnext].
Qed.

Lemma replace_mask_skip (old rest : str) : forall x,
  replace_mask old (length x) (x ++ rest)
  = repeat false (length x) ++ replace_mask old 0 rest.
Proof. induction x as [|c x IH]; [reflexivity|]. simpl. now rewrite IH. Qed.

Lemma replace_mask_none (old : str) : forall s,
  (forall i, i < length s -> starts_with old (skipn i s) = false) ->
  replace_mask old 0 s = repeat true (length s).
Proof.
  induction s as [|c s IH]; intros Hn; [reflexivity|].
  assert (E : starts_with old (c :: s) = false) by exact (Hn 0 (Nat.lt_0_succ _)).
  cbn [replace_mask]. rewrite E. simpl. f_equal.
  apply IH. intros i Hi. apply (Hn (S i)). simpl. lia.
Qed.

Lemma no_overlap_scan (old q a b : str) (i : nat) :
  no_overlap old q -> i < length a ->
  starts_with old (skipn i (a ++ q ++ b)) = true -> i + length old <= length a.
Proof.
  intros Hov Hi Hs.
  destruct (Nat.le_gt_cases (i + length old) (length a)) as [|Hgt]; [assumption|].
  exfalso. rewrite skipn_app in Hs. replace (i - length a) with 0 in Hs by lia.
  change (skipn 0 (q ++ b)) with (q ++ b) in Hs.
  rewrite Hov in Hs; [discriminate| |].
  - intros E. apply (f_equal (@length _)) in E. rewrite length_skipn in E. simpl in E. lia.
  - rewrite length_skipn. lia.
Qed.

(** A pass over a string deletes an occurrence of its own pattern... *)
Lemma replace_mask_own (old a b : str) :
  old <> [] -> no_overlap old old ->
  replace_mask old 0 (a ++ old ++ b)
  = replace_mask old 0 a ++ repeat false (length old) ++ replace_mask old 0 b.
Proof.
  intros Hne Hov. rewrite replace_mask_app.
  - f_equal. destruct old as [|c o]; [congruence|].
    change ((c :: o) ++ b) with (c :: (o ++ b)). cbn [replace_mask].
    change (c :: (o ++ b)) with ((c :: o) ++ b). rewrite starts_with_app.
    replace (length (c :: o) - 1) with (length o) by (simpl; lia).
    rewrite replace_mask_skip. reflexivity.
  - lia.
  - intros i Hi Hs. exact (no_overlap_scan Hov Hi Hs).
Qed.

(** ... and keeps an occurrence of a pattern it cannot meet. *)
Lemma replace_mask_other (old q a b : str) :
  no_overlap old q -> no_start_inside old q ->
  replace_mask old 0 (a ++ q ++ b)
  = replace_mask old 0 a ++ repeat true (length q) ++ replace_mask old 0 b.
Proof.
  intros Hov Hin. rewrite replace_mask_app.
  - f_equal. rewrite replace_mask_app.
    + f_equal. apply replace_mask_none. intros i Hi.
      specialize (Hin i [] Hi). now rewrite app_nil_r in Hin.
    + lia.
    + intros i Hi Hs. rewrite skipn_app in Hs.
      replace (i - length q) with 0 in Hs by lia.
      change (skipn 0 b) with b in Hs.
      rewrite Hin in Hs by exact Hi. discriminate.
  - lia.
  - intros i Hi Hs. exact (no_overlap_scan Hov Hi Hs).
Qed.

Lemma length_compose (k1 : list bool) : forall k2, length (compose k1 k2) = length k1.
Proof. induction k1 as [|[|] k1 IH]; intros [|b k2]; simpl; auto. Qed.

Lemma select_compose (k1 : list bool) : forall k2 s,
  length k1 = length s -> select (compose k1 k2) s = select k2 (select k1 s).
Proof.
  induction k1 as [|[|] k1 IH]; intros k2 [|c s] Hl; try discriminate Hl.
  - now destruct k2.
  - destruct k2 as [|b k2]; simpl; rewrite IH by (simpl in Hl; lia); reflexivity.
  - simpl. apply IH. simpl in Hl. lia.
Qed.

Lemma compose_app (ka kb : list bool) : forall m,
  compose (ka ++ kb) m = compose ka m ++ compose kb (skipn (count_true ka) m).
Proof.
  unfold count_true. induction ka as [|[|] ka IH]; intros m.
  - reflexivity.
  - destruct m as [|b m]; simpl.
    + rewrite IH. now rewrite skipn_nil.
    + now rewrite IH.
  - simpl. now rewrite IH.
Qed.

Lemma compose_none (n : nat) (kb m : list bool) :
  compose (repeat false n ++ kb) m = repeat false n ++ compose kb m.
Proof. induction n as [|n IH]; simpl; [reflexivity | now rewrite IH]. Qed.

Lemma compose_all (kb mb : list bool) : forall ma n,
  length ma = n -> compose (repeat true n ++ kb) (ma ++ mb) = ma ++ compose kb mb.
Proof.
  induction ma as [|b ma IH]; intros n <-; simpl; [reflexivity|].
  now rewrite IH.
Qed.

Lemma deleted_compose (keep m : list bool) (a old : str) :
  deleted keep a old -> deleted (compose keep m) a old.
Proof.
  intros (ka & kb & -> & Hl). rewrite compose_app, compose_none.
  eexists _, _. split; [reflexivity|]. now rewrite length_compose.
Qed.

Lemma length_pass (old : str) (keep : list bool) (s : str) :
  length (pass old keep s) = length keep.
Proof. apply length_compose. Qed.

(** What the marks keep after a pass is what [replace] returns. *)
Lemma select_pass (old : str) (keep : list bool) (s : str) :
  old <> [] -> length keep = length s ->
  select (pass old keep s) s = replace (select keep s) old [].
Proof.
  intros Hne Hl. unfold pass. rewrite select_compose by exact Hl.
  destruct old as [|c o]; [congruence|]. unfold replace.
  now rewrite replace_scan_select.
Qed.

Lemma pass_deleted (old : str) (keep : list bool) (s a q : str) :
  deleted keep a q -> deleted (pass old keep s) a q.
Proof. apply deleted_compose. Qed.

Lemma pass_deletes (old : str) (keep : list bool) (a b : str) :
  old <> [] -> no_overlap old old ->
  intact keep a old b -> deleted (pass old keep (a ++ old ++ b)) a old.
Proof.
  intros Hne Hov (ka & kb & -> & Ha & Hb). unfold pass.
  rewrite select_app by exact Ha.
  rewrite select_app by apply repeat_length.
  rewrite select_all, replace_mask_own by assumption.
  rewrite compose_app, skipn_app, length_replace_mask, length_select by exact Ha.
  rewrite Nat.sub_diag.
  rewrite skipn_all2 by (rewrite length_replace_mask, length_select by exact Ha; lia).
  change (skipn 0 ?l) with l. cbn [app].
  rewrite compose_all by apply repeat_length.
  eexists _, _. split; [reflexivity|]. now rewrite length_compose.
Qed.

Lemma pass_keeps (old q : str) (keep : list bool) (a b : str) :
  no_overlap old q -> no_start_inside old q ->
  intact keep a q b -> intact (pass old keep (a ++ q ++ b)) a q b.
Proof.
  intros Hov Hin (ka & kb & -> & Ha & Hb). unfold pass.
  rewrite select_app by exact Ha.
  rewrite select_app by apply repeat_length.
  rewrite select_all, replace_mask_other by assumption.
  rewrite compose_app, skipn_app, length_replace_mask, length_select by exact Ha.
  rewrite Nat.sub_diag.
  rewrite skipn_all2 by (rewrite length_replace_mask, length_select by exact Ha; lia).
  change (skipn 0 ?l) with l. cbn [app].
  rewrite compose_all by apply repeat_length.
  eexists _, _. split; [reflexivity|]. now rewrite !length_compose.
Qed.

Lemma intact_all (a q b : str) : intact (repeat true (length (a ++ q ++ b))) a q b.
Proof.
  exists (repeat true (length a)), (repeat true (length b)).
  rewrite !length_app, !repeat_app, !repeat_length. auto.
Qed.

(** The three substrings, one against the other. *)
Ltac read_literals :=
  repeat match goal with
         | |- context [lit ?s] =>
             let v := eval vm_compute in (lit s) in change (lit s) with v
         | H : context [lit ?s] |- _ =>
             let v := eval vm_compute in (lit s) in change (lit s) with v in H
         end.

Ltac compare_chars :=
  cbn [app starts_with skipn];
  repeat match goal with
         | |- context [N.eqb ?a ?b] =>
             first [ is_var b; destruct (N.eqb a b)
                   | let v := eval vm_compute in (N.eqb a b) in
                     change (N.eqb a b) with v ]
         end;
  reflexivity.

Ltac no_overlap_cases :=
  let x := fresh "x" in
  let y := fresh "y" in
  let Hx := fresh "Hx" in
  let Hl := fresh "Hl" in
  intros x y Hx Hl; read_literals; cbn [length] in Hl;
  destruct x as [|? [|? [|? [|? [|? ?]]]]];
  [congruence | .. ];
  first [ exfalso; cbn [length] in Hl; lia | compare_chars ].

Ltac no_start_cases :=
  let d := fresh "d" in
  let y := fresh "y" in
  let Hd := fresh "Hd" in
  intros d y Hd; read_literals; cbn [length] in Hd;
  destruct d as [|[|[|[|[|d]]]]];
  first [ exfalso; lia | compare_chars ].

Lemma city_affix_alone (old : str) :
  In old city_affixes -> old <> [] /\ no_overlap old old.
Proof.
  intros [<- | [<- | [<- | []]]]; (split; [discriminate | no_overlap_cases]).
Qed.

Lemma ville_misses_city :
  no_overlap (lit "VILLE") (lit "CITY") /\ no_start_inside (lit "VILLE") (lit "CITY").
Proof. split; [no_overlap_cases | no_start_cases]. Qed.

Lemma ville_misses_san :
  no_overlap (lit "VILLE") (lit "SAN ") /\ no_start_inside (lit "VILLE") (lit "SAN ").
Proof. split; [no_overlap_cases | no_start_cases]. Qed.

Lemma city_misses_san :
  no_overlap (lit "CITY") (lit "SAN ") /\ no_start_inside (lit "CITY") (lit "SAN ").
Proof. split; [no_overlap_cases | no_start_cases]. Qed.

Lemma strip_segment (n : nat) (s : str) : exists u w, s = u ++ firstn n (strip s) ++ w.
Proof.
  unfold strip.
  destruct (lstrip_suffix s) as (u & Hu).
  destruct (rstrip_prefix (lstrip s)) as (w & Hw).
  exists u, (skipn n (rstrip (lstrip s)) ++ w).
  rewrite (app_assoc (firstn n _)), firstn_skipn, <- Hw. exact Hu.
Qed.

(** The clean-up of a city name keeps characters of the name, in their
    order, and none of an occurrence in the name of one of the three
    substrings. *)
Lemma clean_city_marks (name : str) :
  exists keep,
    length keep = length name /\
    firstn 20 (clean_city name) = select keep name /\
    forall a old b, In old city_affixes -> name = a ++ old ++ b -> deleted keep a old.
Proof.
  set (k0 := repeat true (length name)).
  set (k1 := pass (lit "VILLE") k0 name).
  set (k2 := pass (lit "CITY") k1 name).
  set (k3 := pass (lit "SAN ") k2 name).
  assert (L0 : length k0 = length name) by apply repeat_length.
  assert (L1 : length k1 = length name) by (unfold k1; now rewrite length_pass).
  assert (L2 : length k2 = length name) by (unfold k2; now rewrite length_pass).
  assert (L3 : length k3 = length name) by (unfold k3; now rewrite length_pass).
  assert (S3 : select k3 name
               = replace (replace (replace name (lit "VILLE") []) (lit "CITY") [])
                         (lit "SAN ") []).
  { unfold k3. rewrite select_pass by (exact L2 || discriminate).
    unfold k2. rewrite select_pass by (exact L1 || discriminate).
    unfold k1. rewrite select_pass by (exact L0 || discriminate).
    unfold k0. now rewrite select_all. }
  unfold clean_city. rewrite <- S3.
  destruct (strip_segment 20 (select k3 name)) as (u & w & Hseg).
  remember (firstn 20 (strip (select k3 name))) as res eqn:Hres.
  exists (compose k3 (repeat false (length u) ++ repeat true (length res)
                        ++ repeat false (length w))).
  split; [now rewrite length_compose|].
  split.
  - rewrite select_compose by exact L3. rewrite Hseg. symmetry. apply select_segment.
  - intros a old b Hold Hname. apply deleted_compose.
    pose proof (intact_all a old b) as H0. rewrite <- Hname in H0. fold k0 in H0.
    destruct (city_affix_alone Hold) as (Hne & Hown).
    destruct ville_misses_city as (VC1 & VC2).
    destruct ville_misses_san as (VS1 & VS2).
    destruct city_misses_san as (CS1 & CS2).
    unfold k3, k2, k1. rewrite Hname in *.
    destruct Hold as [<- | [<- | [<- | []]]].
    + apply pass_deleted, pass_deleted, pass_deletes; assumption.
    + apply pass_deleted, pass_deletes; try assumption.
      apply pass_keeps; assumption.
    + apply pass_deletes; try assumption.
      apply pass_keeps; try assumption. apply pass_keeps; assumption.
Qed.

Lemma Forall_add_last {A} (P : A -> Prop) (es : list A) (e : A) :
  Forall P es -> P e -> Forall P (es ++ [e]).
Proof. intros Hes He. apply Forall_app. split; [exact Hes | now constructor]. Qed.

Lemma surname_entities_not_cities `{Runtime} (self : FakerIDGenerator) (names : list str) :
  forall i p, Forall (from_city self) (surname_entities i p names).
Proof.
  induction names as [|g rest IH]; intros i p; [constructor|].
  cbn [surname_entities]. constructor; [|apply IH].
  unfold from_city. cbn [e_label]. intros E. vm_compute in E. discriminate E.
Qed.

(** The entity just recorded is a birth place only with a value of
    [generate_city]. *)
Ltac city_solver :=
  lazymatch goal with
  | H : generate_city _ _ = Some (?v, _)
    |- from_city _ (Entity _ _ (lit "Birth_place") ?v) =>
      unfold from_city; cbn [e_value]; intros _; eexists _, _; exact H
  | |- from_city _ (Entity _ _ (lit _) _) =>
      let E := fresh "E" in
      unfold from_city; cbn [e_label]; intros E; vm_compute in E; discriminate E
  end.

Ltac cities_now :=
  cbn [entities pos parts fst snd];
  repeat (apply Forall_add_last; [|city_solver]);
  assumption.

(** A group of statements under a condition. *)
Ltac city_group tac :=
  lazymatch goal with
  | HJ : Forall (from_city ?self) _ |- _ =>
      eapply (wp_bind_keeps (I := fun l => Forall (from_city self) (entities l)));
      [ apply wp_when_keeps; [cities_now | intros _; tac; unfold keeps; cities_now]
      | clear HJ;
        let r := fresh "r" in let l := fresh "l" in let H := fresh "HJ" in
        intros _ r l H ]
  end.

(** Run the given-names loop and go on from the locals it leaves. *)
Ltac city_loop :=
  cbn [pos parts entities fst snd];
  lazymatch goal with
  | HJ : Forall (from_city ?self) _
    |- wp (bind (given_names_loop ?i ?names) _) _ (?r, ?l) =>
      let l' := fresh "l" in
      let Hrun := fresh "Hrun" in
      let Hents := fresh "Hents" in
      destruct (given_names_loop_run names i r l) as (l' & Hrun & _ & Hents & _);
      apply (wp_bind_run Hrun); clear Hrun;
      cbn [pos parts entities] in Hents;
      let H := fresh "HJ" in
      assert (H : Forall (from_city self) (entities l'))
        by (rewrite Hents; apply Forall_app; split;
            [cities_now | apply surname_entities_not_cities]);
      clear HJ Hents
  end.

Section CityShape.
Context {RT : Runtime}.

Lemma generate_city_cleaned (self : FakerIDGenerator) (r : rng) (result : str) (r' : rng) :
  generate_city self r = Some (result, r') -> cleaned_city self result.
Proof.
  intros H. unfold generate_city, bind in H.
  destruct (choice (fakers self) r) as [[faker r1]|] eqn:Hf; [|discriminate].
  assert (Hr : result = firstn 20 (clean_city (str_upper (city faker (r1 0)))))
    by (unfold next_raw, ret in H; congruence).
  clear H.
  destruct (clean_city_marks (str_upper (city faker (r1 0))))
    as (keep & Hlen & Hsel & Hdel).
  unfold cleaned_city. rewrite Hr.
  split; [apply firstn_le_length|].
  split; [apply firstn_no_leading, strip_no_leading|].
  split.
  - intros Hshort. rewrite length_firstn in Hshort.
    rewrite firstn_all2 by lia. unfold clean_city, strip. apply rstrip_no_trailing.
  - exists faker, (r1 0), keep. split; [eapply choice_In; eauto|].
    cbv zeta. split; [exact Hlen|]. split; [exact Hsel | exact Hdel].
Qed.

Lemma generate_city_stripped (self : FakerIDGenerator) (r : rng) (result : str) (r' : rng) :
  generate_city self r = Some (result, r') ->
  exists faker raw,
    In faker (fakers self) /\
    let cleaned := clean_city (str_upper (city faker raw)) in
    result = firstn 20 cleaned /\
    no_leading_space cleaned /\ no_trailing_space cleaned.
Proof.
  intros H. unfold generate_city, bind in H.
  destruct (choice (fakers self) r) as [[faker r1]|] eqn:Hf; [|discriminate].
  exists faker, (r1 0). split; [eapply choice_In; eauto|].
  cbv zeta. split; [unfold next_raw, ret in H; congruence|].
  split; [apply strip_no_leading | apply rstrip_no_trailing].
Qed.

Lemma generate_simple_format_body_cities (self : FakerIDGenerator) (r : rng) :
  wp (generate_simple_format_body self)
     (fun sample _ => Forall (from_city self) (snd sample))
     (r, {| parts := []; entities := []; pos := 0 |}).
Proof.
  assert (HJ : Forall (from_city self) []) by constructor.
  unfold generate_simple_format_body. cbv zeta.
  to_names. rnd given_names_list. gstep.
  city_group ltac:(destruct given_names_list as [|[|c g] rest]; repeat gstep).
  gstep.
  city_group ltac:(gstep; apply wp_when_keeps; [cities_now|]; intros _; repeat gstep).
  repeat gstep.
  city_group ltac:(repeat gstep;
                   lazymatch goal with
                   | |- wp (bind (if ?b then _ else _) _) _ _ => destruct b
                   end;
                   repeat gstep).
  repeat gstep.
  city_loop.
  repeat gstep.
  city_group ltac:(repeat gstep).
  gstep.
  city_group ltac:(repeat gstep).
  gstep.
  city_group ltac:(repeat gstep).
  unfold wp, return_sample. cbn [fst snd]. exact HJ.
Qed.

Lemma generate_bilingual_format_body_cities (self : FakerIDGenerator) (r : rng) :
  wp (generate_bilingual_format_body self)
     (fun sample _ => Forall (from_city self) (snd sample))
     (r, {| parts := []; entities := []; pos := 0 |}).
Proof.
  assert (HJ : Forall (from_city self) []) by constructor.
  unfold generate_bilingual_format_body. cbv zeta.
  to_names. rnd count. rnd given_names_list.
  city_loop.
  repeat gstep.
  city_group ltac:(repeat gstep).
  gstep.
  city_group ltac:(repeat gstep).
  repeat gstep.
  city_group ltac:(repeat gstep).
  gstep.
  city_group ltac:(repeat first
                     [ gstep
                     | lazymatch goal with
                       | |- wp (bind (if ?b then _ else _) _) _ _ => destruct b
                       end ]).
  unfold wp, return_sample. cbn [fst snd]. exact HJ.
Qed.

(** C9.  A city [generate_city] returns, and so the value of every
    Birth_place entity of a sample of either format, has at most 20
    characters and no leading whitespace, and no trailing whitespace unless
    the name was cut at 20 characters; it is made of characters of the
    upper-cased provider name, in their order, and of no character of an
    occurrence in that name of [VILLE], of [CITY] or of [SAN] followed by a
    space: no such occurrence of the provider's name survives.  The city
    is the first 20 characters of the cleaned name, which has neither
    leading nor trailing whitespace: the name is stripped before it is
    cut. *)
Theorem generate_city_shape (self : FakerIDGenerator) :
  (forall r result r',
     generate_city self r = Some (result, r') ->
     cleaned_city self result /\
     exists faker raw,
       In faker (fakers self) /\
       let cleaned := clean_city (str_upper (city faker raw)) in
       result = firstn 20 cleaned /\
       no_leading_space cleaned /\ no_trailing_space cleaned) /\
  (forall r text ents r',
     generate_simple_format self r = Some (text, ents, r') \/
     generate_bilingual_format self r = Some (text, ents, r') ->
     Forall (fun e => e_label e = lit "Birth_place" -> cleaned_city self (e_value e))
            ents).
Proof.
  split.
  { intros r result r' H.
    split; [exact (generate_city_cleaned H) | exact (generate_city_stripped H)]. }
  intros r text ents r' H.
  assert (Hb : Forall (from_city self) ents).
  { destruct H as [H | H].
    - exact (call_spec (generate_simple_format_body_cities self r) H).
    - exact (call_spec (generate_bilingual_format_body_cities self r) H). }
  eapply Forall_impl; [|exact Hb].
  intros e He Hlabel. destruct (He Hlabel) as (r1 & r2 & Hcity).
  exact (generate_city_cleaned Hcity).
Qed.

End CityShape.

Lemma generate_city_shape_witness :
  (exists r', generate_city (RT := exact_sums) medium_like zero_tape
              = Some (lit "SMITH", r')) /\
  cleaned_city (H := exact_sums) medium_like (lit "SMITH") /\
  exists text ents r',
    generate_simple_format (RT := exact_sums) medium_like zero_tape
    = Some (text, ents, r') /\
    Forall (fun e => e_label e = lit "Birth_place" ->
                     cleaned_city (H := exact_sums) medium_like (e_value e)) ents.
Proof.
  assert (E : { r' | generate_city (RT := exact_sums) medium_like zero_tape
                     = Some (lit "SMITH", r') })
    by (eexists; vm_compute; reflexivity).
  assert (G : { s | generate_simple_format (RT := exact_sums) medium_like zero_tape
                    = Some s })
    by (eexists; vm_compute; reflexivity).
  destruct E as [r' E]. destruct G as [[[text ents] r2] G].
  split; [exists r'; exact E|].
  split.
  - exact (proj1 (proj1 (@generate_city_shape exact_sums medium_like) zero_tape _ r' E)).
  - exists text, ents, r2. split; [exact G|].
    exact (proj2 (@generate_city_shape exact_sums medium_like) zero_tape text ents r2
             (or_introl G)).
Defined.

(** What is left around a deleted occurrence is not scanned again: deleting
    [VILLE] from [VILVILLELE] joins [VIL] and [LE], and the city returned
    reads [VILLE], made of characters that were no occurrence in the
    provider's name. *)
Remark city_keeps_a_joined_occurrence :
  option_map fst (generate_city (RT := exact_sums) joining_generator zero_tape)
    = Some (lit "VILLE") /\
  option_map (contains (lit "VILLE"))
    (option_map fst (generate_city (RT := exact_sums) joining_generator zero_tape))
    = Some true.
Proof. split; vm_compute; reflexivity. Qed.

(** ** The verifier *)

Lemma list_sum_cons (a : nat) (l : list nat) : list_sum (a :: l) = a + list_sum l.
Proof. reflexivity. Qed.

Lemma verify_entities_counts (text : str) (ents : list json_entity) :
  forall errors total,
    verify_entities text ents (errors, total)
    = (errors + length (mismatches (text, ents)), total + length ents).
Proof.
  unfold mismatches. cbn [fst snd].
  induction ents as [|[[[start stop] label] expected] ents IH]; intros errors total.
  - simpl. f_equal; lia.
  - cbn [verify_entities filter entity_matches]. rewrite IH.
    destruct (str_eqb (py_slice text start stop) expected); cbn [negb length];
      f_equal; lia.
Qed.

Lemma verify_items_counts (data : list json_item) :
  forall errors total,
    verify_items data (errors, total)
    = (errors + list_sum (map (fun item => length (mismatches item)) data),
       total + total_entities data).
Proof.
  unfold total_entities.
  induction data as [|[text ents] data IH]; intros errors total.
  - simpl. f_equal; lia.
  - cbn [verify_items]. rewrite verify_entities_counts, IH.
    cbn [map fst snd]. rewrite !list_sum_cons. f_equal; lia.
Qed.

Lemma mismatches_le (item : json_item) : length (mismatches item) <= length (snd item).
Proof. apply filter_length_le. Qed.

(** X19. The counters the verifier ends with: [total] is the number of
    entities of all items, the number [main] prints as total entities;
    [errors] is the number of entities whose slice differs from the value
    they carry; so [errors] never exceeds [total]. *)
Theorem verify_positions_counts (data : list json_item) :
  verify_positions data
  = (list_sum (map (fun item => length (mismatches item)) data), total_entities data)
  /\ fst (verify_positions data) <= snd (verify_positions data).
Proof.
  unfold verify_positions. rewrite verify_items_counts. cbn [fst snd plus].
  split; [reflexivity|].
  unfold total_entities. induction data as [|item data IH]; [simpl; lia|].
  cbn [map]. rewrite !list_sum_cons. assert (H := mismatches_le item). lia.
Qed.

Lemma list_sum_zero (l : list nat) : list_sum l = 0 <-> Forall (fun n => n = 0) l.
Proof.
  induction l as [|n l IH]; simpl.
  - split; [constructor | reflexivity].
  - split.
    + intros H. constructor; [lia | apply IH; lia].
    + intros H. inversion H as [|? ? Hn Hl]; subst. apply IH in Hl. lia.
Qed.

Lemma mismatches_nil (item : json_item) :
  length (mismatches item) = 0 <->
  Forall (fun e => entity_matches (fst item) e = true) (snd item).
Proof.
  unfold mismatches. induction (snd item) as [|e es IH]; simpl.
  - split; [constructor | reflexivity].
  - destruct (entity_matches (fst item) e) eqn:E; cbn [negb].
    + rewrite IH. split; [now constructor | now inversion 1].
    + simpl. split; [discriminate|]. inversion 1; congruence.
Qed.

(** X20. The verifier prints its PERFECT message exactly when, in every item,
    every entity's slice [text[start:end]] equals the value the entity
    carries; in particular it prints it for an empty file. *)
Theorem verdict_perfect_iff (data : list json_item) :
  verdict_perfect data = true <->
  Forall (fun item => Forall (fun e => entity_matches (fst item) e = true) (snd item))
         data.
Proof.
  unfold verdict_perfect, verify_positions. rewrite verify_items_counts.
  cbn [fst plus]. rewrite Nat.eqb_eq, list_sum_zero, Forall_map.
  split; intros H; (eapply Forall_impl; [|exact H]); intros item; apply mismatches_nil.
Qed.

Lemma py_slice_in_range (text : str) (s e : nat) :
  s <= e -> e <= length text ->
  py_slice text (Z.of_nat s) (Z.of_nat e) = slice text s e.
Proof.
  intros Hse He. unfold py_slice, adjust_bound.
  destruct (Z.ltb_spec (Z.of_nat s) 0); [lia|].
  destruct (Z.ltb_spec (Z.of_nat e) 0); [lia|].
  rewrite !Z.min_l by lia. now rewrite !Nat2Z.id.
Qed.

Lemma valid_sample_matches (sample : str * list entity) :
  valid_sample sample ->
  Forall (fun e => entity_matches (fst (to_json_item sample)) e = true)
         (snd (to_json_item sample)).
Proof.
  intros (Hok & _). unfold to_json_item. cbn [fst snd].
  rewrite Forall_map. eapply Forall_impl; [|exact Hok].
  intros e (H1 & H2 & H3). unfold entity_matches.
  rewrite py_slice_in_range by assumption. rewrite H3. apply str_eqb_refl.
Qed.

Lemma repeatM_Forall {A} (m : Rand A) (P : A -> Prop) :
  (forall r a r', m r = Some (a, r') -> P a) ->
  forall n r l r', repeatM n m r = Some (l, r') -> Forall P l.
Proof.
  intros Hm. induction n as [|n IH]; intros r l r'; cbn [repeatM].
  - intros [= <- _]. constructor.
  - unfold bind at 1. destruct (m r) as [[a r1]|] eqn:Ea; [|discriminate].
    unfold bind at 1. destruct (repeatM n m r1) as [[l1 r2]|] eqn:El; [|discriminate].
    intros [= <- _]. constructor; [eapply Hm; eauto | eapply IH; eauto].
Qed.

Section RoundTrip.
Context {RT : Runtime}.

Lemma generate_one_valid (self : FakerIDGenerator) r sample r' :
  generate_one self r = Some (sample, r') -> valid_sample sample.
Proof.
  unfold generate_one, bind. rewrite random_random_eq.
  destruct sample as (text & ents).
  destruct (flt _ _); intros H.
  - exact (sample_ok (or_introl H)).
  - exact (sample_ok (or_intror H)).
Qed.

(** X14. A batch [generate_batch] returns has exactly [count] samples (none
    for a negative [count]), and in each of them every entity bounds its
    value in the text and the entities are in text order without
    overlap. *)
Theorem generate_batch_valid (self : FakerIDGenerator) (count : Z) (r : rng)
    (samples : list (str * list entity)) (r' : rng) :
  generate_batch self count r = Some (samples, r') ->
  length samples = Z.to_nat count /\
  Forall valid_sample samples.
Proof.
  intros H. unfold generate_batch in H. split.
  - eapply repeatM_length; eauto.
  - eapply repeatM_Forall; [apply generate_one_valid | exact H].
Qed.

(** X21. Every batch [generate_batch] returns passes the verifier once
    written to a file and read back: the verifier counts no error, and its
    total is the number of entities of the batch. *)
Theorem generated_batch_verifies (self : FakerIDGenerator) (count : Z) (r : rng)
    (samples : list (str * list entity)) (r' : rng) :
  generate_batch self count r = Some (samples, r') ->
  verify_positions (map to_json_item samples) = (0, total_entities samples) /\
  verdict_perfect (map to_json_item samples) = true.
Proof.
  intros H. unfold generate_batch in H.
  assert (Hv : Forall valid_sample samples)
    by (eapply repeatM_Forall; [apply generate_one_valid | exact H]).
  assert (Hm : Forall (fun item =>
                         Forall (fun e => entity_matches (fst item) e = true) (snd item))
                      (map to_json_item samples)).
  { rewrite Forall_map. eapply Forall_impl; [|exact Hv].
    intros sample. apply valid_sample_matches. }
  unfold verdict_perfect, verify_positions. rewrite verify_items_counts.
  cbn [fst plus].
  assert (Hz : list_sum (map (fun item => length (mismatches item))
                             (map to_json_item samples)) = 0).
  { apply list_sum_zero. rewrite Forall_map. eapply Forall_impl; [|exact Hm].
    intros item. apply mismatches_nil. }
  rewrite Hz. split; [|reflexivity].
  f_equal. unfold total_entities. rewrite map_map. f_equal.
  apply map_ext. intros (text & ents). unfold to_json_item. cbn [snd].
  apply length_map.
Qed.

End RoundTrip.

Lemma generate_batch_valid_witness :
  exists samples r',
    generate_batch (RT := exact_sums) quiet 3 zero_tape = Some (samples, r') /\
    length samples = 3 /\
    Forall valid_sample samples.
Proof.
  assert (E : { s | generate_batch (RT := exact_sums) quiet 3 zero_tape = Some s })
    by (eexists; vm_compute; reflexivity).
  destruct E as [[samples r'] E].
  exists samples, r'. split; [exact E|].
  exact (@generate_batch_valid exact_sums quiet 3 zero_tape samples r' E).
Defined.

Lemma generated_batch_verifies_witness :
  exists samples r',
    generate_batch (RT := exact_sums) quiet 2 zero_tape = Some (samples, r') /\
    verify_positions (map to_json_item samples) = (0, total_entities samples) /\
    verdict_perfect (map to_json_item samples) = true.
Proof.
  assert (E : { s | generate_batch (RT := exact_sums) quiet 2 zero_tape = Some s })
    by (eexists; vm_compute; reflexivity).
  destruct E as [[samples r'] E].
  exists samples, r'. split; [exact E|].
  exact (@generated_batch_verifies exact_sums quiet 2 zero_tape samples r' E).
Defined.

(** ** Loading the noise settings *)

Lemma same_tables_refl (a : FakerIDGenerator) : same_tables a a.
Proof. repeat split. Qed.

Lemma same_tables_set_noise (self : FakerIDGenerator) enabled g w s c e m d :
  same_tables (set_noise self enabled g w s c e m d) self.
Proof. repeat split. Qed.

Lemma same_tables_zero (self : FakerIDGenerator) :
  same_tables (_set_zero_noise self) self.
Proof. repeat split. Qed.

Lemma same_tables_first_enabled (self : FakerIDGenerator) (presets : dict Preset) :
  forall self', first_enabled_preset self presets = Some self' -> same_tables self' self.
Proof.
  induction presets as [|(name & settings) presets IH]; intros self'; simpl;
    [discriminate|].
  destruct (opt_get (ps_enabled settings) false); [|apply IH].
  intros [= <-]. destruct (str_eqb name (lit "clean"));
    [apply same_tables_zero | apply same_tables_set_noise].
Qed.

Lemma same_tables_load_from_config (config : Config) (self : FakerIDGenerator) :
  same_tables (_load_from_config config self) self.
Proof.
  unfold _load_from_config. cbv zeta.
  destruct (opt_get (cs_use_custom _) false); [apply same_tables_set_noise|].
  destruct (first_enabled_preset self _) as [self'|] eqn:E.
  - eapply same_tables_first_enabled; eauto.
  - apply same_tables_set_noise.
Qed.

(** X22. Loading the noise settings changes nothing but the eight noise
    settings: the providers, the replacement, substitution and typo tables,
    the pool of extra characters, the field probabilities and the
    signature-noise tables of the generator are what they were, for every
    configuration and every noise level. *)
Theorem load_noise_settings_keeps_tables
    (config : Config) (noise_level : option str) (self : FakerIDGenerator) :
  same_tables (_load_noise_settings config noise_level self) self.
Proof.
  unfold _load_noise_settings. cbv zeta.
  destruct (names_a_preset noise_level); [|apply same_tables_load_from_config].
  destruct (dict_lookup _ _) as [settings|]; [|apply same_tables_load_from_config].
  destruct (str_eqb _ (lit "clean")); repeat split.
Qed.

Lemma first_enabled_none (self : FakerIDGenerator) (presets : dict Preset) :
  Forall (fun item => opt_get (ps_enabled (snd item)) false = false) presets ->
  first_enabled_preset self presets = None.
Proof.
  induction 1 as [|(name & settings) presets Hoff _ IH]; [reflexivity|].
  cbn [snd] in Hoff. cbn [first_enabled_preset]. now rewrite Hoff.
Qed.

(** X23. When the configuration does not use custom settings and none of
    its presets is enabled (or it has no presets at all),
    [_load_from_config] enables noise with the medium defaults 0.15, 0.10,
    0.08, 0.05, 0.02, 0.015 and 0.02: presets that are all switched off do
    not switch noise off. *)
Theorem nothing_enabled_means_medium (config : Config) (self : FakerIDGenerator) :
  uses_custom config = false ->
  Forall (fun item => opt_get (ps_enabled (snd item)) false = false)
         (presets_of config) ->
  _load_from_config config self = default_medium self /\
  noise_enabled (_load_from_config config self) = true.
Proof.
  intros Hcustom Hoff.
  assert (E : _load_from_config config self = default_medium self).
  { unfold _load_from_config. cbv zeta.
    unfold uses_custom in Hcustom. rewrite Hcustom.
    unfold presets_of in Hoff. now rewrite (first_enabled_none self Hoff). }
  split; [exact E | now rewrite E].
Qed.

Lemma nothing_enabled_means_medium_witness :
  _load_from_config light_only quiet = default_medium quiet /\
  noise_enabled (_load_from_config light_only quiet) = true.
Proof.
  apply nothing_enabled_means_medium; [reflexivity|].
  repeat constructor.
Defined.

Lemma first_enabled_without_clean (self : FakerIDGenerator) (presets : dict Preset) :
  dict_lookup presets (lit "clean") = None ->
  forall self', first_enabled_preset self presets = Some self' ->
                noise_enabled self' = true.
Proof.
  induction presets as [|(name & settings) presets IH]; intros Hno self'; simpl;
    [discriminate|].
  simpl in Hno. destruct (str_eqb name (lit "clean")); [discriminate|].
  destruct (opt_get (ps_enabled settings) false); [|now apply IH].
  now intros [= <-].
Qed.

(** X24. Asking for the noise level [clean] of a configuration that has no
    preset of that name, and does not use custom settings, leaves noise
    enabled: the level falls back on [_load_from_config], which can only
    disable noise through a preset named [clean]. *)
Theorem clean_needs_a_preset (config : Config) (self : FakerIDGenerator) :
  dict_lookup (presets_of config) (lit "clean") = None ->
  uses_custom config = false ->
  _load_noise_settings config (Some (lit "clean")) self = _load_from_config config self /\
  noise_enabled (_load_noise_settings config (Some (lit "clean")) self) = true.
Proof.
  intros Hno Hcustom.
  assert (E : _load_noise_settings config (Some (lit "clean")) self
              = _load_from_config config self).
  { unfold _load_noise_settings. cbv zeta.
    change (names_a_preset (Some (lit "clean"))) with true. cbv iota.
    change (opt_get (Some (lit "clean")) []) with (lit "clean").
    unfold presets_of in Hno. now rewrite Hno. }
  split; [exact E|]. rewrite E.
  unfold _load_from_config. cbv zeta.
  unfold uses_custom in Hcustom. rewrite Hcustom.
  destruct (first_enabled_preset self _) as [self'|] eqn:F; [|reflexivity].
  eapply first_enabled_without_clean; eauto.
Qed.

Lemma clean_needs_a_preset_witness :
  _load_noise_settings light_only (Some (lit "clean")) quiet
  = _load_from_config light_only quiet /\
  noise_enabled (_load_noise_settings light_only (Some (lit "clean")) quiet) = true.
Proof. apply clean_needs_a_preset; reflexivity. Defined.

(** ** [__init__]: providers and probability tables *)

Lemma keys_dict_set {V} (d : dict V) (k : str) (v : V) :
  keys (dict_set d k v) = if existsb (str_eqb k) (keys d) then keys d else keys d ++ [k].
Proof.
  induction d as [|(k' & v') d IH]; [reflexivity|].
  cbn [dict_set keys map fst existsb].
  destruct (str_eqb k' k) eqn:E.
  - apply str_eqb_eq in E. subst k'. rewrite str_eqb_refl. reflexivity.
  - assert (E' : str_eqb k k' = false).
    { apply str_eqb_neq. apply str_eqb_neq in E. congruence. }
    rewrite E'. cbn [orb map fst]. fold (keys (dict_set d k v)). rewrite IH.
    fold (keys d). now destruct (existsb (str_eqb k) (keys d)).
Qed.

Lemma existsb_str_eqb (k : str) (l : list str) :
  existsb (str_eqb k) l = true <-> In k l.
Proof.
  rewrite existsb_exists. split.
  - intros (x & Hx & E). apply str_eqb_eq in E. now subst.
  - intros H. exists k. split; [exact H | apply str_eqb_refl].
Qed.

Lemma dict_set_fresh {V} (d : dict V) (k : str) (v : V) :
  ~ In k (keys d) -> dict_set d k v = d ++ [(k, v)].
Proof.
  induction d as [|(k' & v') d IH]; intros Hk; [reflexivity|].
  cbn [dict_set]. destruct (str_eqb k' k) eqn:E.
  - apply str_eqb_eq in E. subst. exfalso. apply Hk. now left.
  - simpl. f_equal. apply IH. intros H. apply Hk. now right.
Qed.

Lemma init_fakers_keys (Faker_ : str -> Faker) (locales : list str) : forall d,
  let d' := fold_left (fun d locale => dict_set d locale (Faker_ locale)) locales d in
  (NoDup (keys d) -> NoDup (keys d')) /\
  (forall locale, In locale (keys d') <-> In locale (keys d) \/ In locale locales).
Proof.
  induction locales as [|x locales IH]; intros d; cbn [fold_left].
  - split; [auto|]. intros locale. simpl. tauto.
  - cbv zeta in IH. destruct (IH (dict_set d x (Faker_ x))) as (IH1 & IH2).
    assert (Hk := keys_dict_set d x (Faker_ x)).
    destruct (existsb (str_eqb x) (keys d)) eqn:E.
    + apply existsb_str_eqb in E. rewrite Hk in IH1, IH2. split; [exact IH1|].
      intros locale. rewrite IH2. simpl.
      split; [tauto|]. intros [H | [<- | H]]; auto.
    + assert (Hx : ~ In x (keys d)).
      { intros H. apply existsb_str_eqb in H. congruence. }
      rewrite Hk in IH1, IH2. split.
      * intros Hd. apply IH1. apply NoDup_app; [exact Hd | repeat constructor; simpl; tauto|].
        intros a Ha [<- | []]. contradiction.
      * intros locale. rewrite IH2, in_app_iff. simpl. tauto.
Qed.

(** X25. Whatever locales [__init__] is given, none, an empty list or a list
    with repetitions, the generator gets at least one provider, exactly one
    for each distinct locale of the list it uses (the five default locales
    when it is given none). *)
Theorem init_fakers_never_empty (Faker_ : str -> Faker) (locales : option (list str)) :
  let fakers := init_fakers Faker_ (init_locales locales) in
  values fakers <> [] /\
  NoDup (keys fakers) /\
  (forall locale, In locale (keys fakers) <-> In locale (init_locales locales)).
Proof.
  cbv zeta. unfold init_fakers.
  destruct (init_fakers_keys Faker_ (init_locales locales) []) as (H1 & H2).
  cbv zeta in H1, H2.
  assert (Hne : init_locales locales <> []).
  { unfold init_locales. destruct locales as [[|x l]|]; discriminate. }
  split; [|split].
  - intros Hv. destruct (init_locales locales) as [|x l] eqn:E; [congruence|].
    assert (Hin : In x (keys (fold_left (fun d locale => dict_set d locale (Faker_ locale))
                                        (x :: l) [])))
      by (apply H2; right; now left).
    unfold keys in Hin. unfold values in Hv.
    apply map_eq_nil in Hv. rewrite Hv in Hin. contradiction.
  - apply H1. constructor.
  - intros locale. rewrite H2. simpl. tauto.
Qed.

Lemma extract_table_fresh (field : str) (table : dict jvalue) : forall acc,
  NoDup (keys acc ++ keys table) ->
  extract_table field table acc
  = acc ++ map (fun item => (fst item, extract_entry field (snd item)))
               (filter not_comment table).
Proof.
  induction table as [|(key & value) table IH]; intros acc Hnd;
    cbn [extract_table filter].
  - now rewrite app_nil_r.
  - change (not_comment (key, value)) with (negb (str_eqb key (lit "comment"))).
    cbn [keys map fst] in Hnd. fold (keys table) in Hnd.
    destruct (str_eqb key (lit "comment")); cbn [negb].
    + apply IH. eapply NoDup_remove_1; eauto.
    + assert (Hkey : ~ In key (keys acc)).
      { apply NoDup_remove_2 in Hnd. intros H. apply Hnd, in_or_app. now left. }
      rewrite (dict_set_fresh _ Hkey), IH.
      * cbn [map fst snd]. now rewrite <- app_assoc.
      * unfold keys at 1. rewrite map_app. cbn [map fst]. fold (keys acc).
        rewrite <- app_assoc. exact Hnd.
Qed.

(** X26. From a table with distinct keys, the loop of [__init__] that fills
    [simple_probs] (and [bilingual_probs]) keeps the entries in their
    order, leaves out the key [comment], and replaces every object that has
    a [probability] by that probability. *)
Theorem extract_table_spec (field : str) (table : dict jvalue) :
  NoDup (keys table) ->
  extract_table field table []
  = map (fun item => (fst item, extract_entry field (snd item)))
        (filter not_comment table) /\
  dict_lookup (extract_table field table []) (lit "comment") = None.
Proof.
  intros Hnd.
  assert (E := @extract_table_fresh field table [] Hnd). cbn [app] in E.
  split; [exact E|]. rewrite E. clear E Hnd.
  induction table as [|(key & value) table IH]; [reflexivity|].
  cbn [filter]. change (not_comment (key, value)) with (negb (str_eqb key (lit "comment"))).
  destruct (str_eqb key (lit "comment")) eqn:C; cbn [negb].
  - exact IH.
  - cbn [map dict_lookup fst]. now rewrite C.
Qed.

Lemma extract_table_spec_witness :
  extract_table (lit "probability") mixed_table []
  = map (fun item => (fst item, extract_entry (lit "probability") (snd item)))
        (filter not_comment mixed_table) /\
  dict_lookup (extract_table (lit "probability") mixed_table []) (lit "comment") = None.
Proof.
  apply extract_table_spec.
  repeat constructor; simpl; intuition discriminate.
Defined.

(** X27. A probability table loads the same in the nested format as in the
    flat one: with numbers as flat entries, wrapping each of them in an
    object that begins with the key [probability], whatever else the object
    holds, changes nothing of what the loop of [__init__] extracts. *)
Theorem nested_format_loads_as_flat
    (field : str) (others : list (str * jvalue)) (table : dict jvalue) :
  Forall (fun item => is_number (snd item)) table ->
  forall acc,
    extract_table field (map (fun item => (fst item, nested field others (snd item)))
                             table) acc
    = extract_table field table acc.
Proof.
  induction 1 as [|(key & value) table Hnum _ IH]; intros acc; [reflexivity|].
  cbn [map extract_table fst snd].
  destruct (str_eqb key (lit "comment")); [apply IH|].
  rewrite IH. f_equal. f_equal.
  cbn [snd] in Hnum. destruct value; try contradiction.
  unfold nested, extract_entry. cbn [dict_lookup]. now rewrite str_eqb_refl.
Qed.

Lemma nested_format_loads_as_flat_witness :
  extract_table (lit "probability")
    (map (fun item => (fst item, nested (lit "probability") [] (snd item)))
         [(lit "height", JNum (3 # 5))]) []
  = extract_table (lit "probability") [(lit "height", JNum (3 # 5))] [].
Proof.
  apply (@nested_format_loads_as_flat (lit "probability") []
           [(lit "height", JNum (3 # 5))]).
  repeat constructor.
Defined.

(** X28. The loop of [__init__] over the signature patterns raises exactly
    when the patterns of some format, under a key other than [comment],
    are not an object; a [comment] may hold anything. *)
Theorem extract_signature_noise_raises (signature_patterns : dict jvalue) :
  forall acc,
    extract_signature_noise signature_patterns acc = None <->
    Exists (fun item => not_comment item = true /\ is_object (snd item) = false)
           signature_patterns.
Proof.
  induction signature_patterns as [|(format_type & patterns) rest IH]; intros acc.
  - simpl. split; [discriminate | inversion 1].
  - cbn [extract_signature_noise]. rewrite Exists_cons.
    change (not_comment (format_type, patterns))
      with (negb (str_eqb format_type (lit "comment"))).
    cbn [snd].
    destruct (str_eqb format_type (lit "comment")); cbn [negb].
    + rewrite IH. split; [auto|]. intros [(H & _) | H]; [discriminate | exact H].
    + destruct patterns as [q | s | items]; cbn [is_object].
      * split; [auto | reflexivity].
      * split; [auto | reflexivity].
      * rewrite IH. split; [auto|]. intros [(_ & H) | H]; [discriminate | exact H].
Qed.

(** X29. The verifier clips offsets as slicing does and checks no bound: an
    entity whose start is at or before minus the length of the text and
    whose end is at or past the length passes exactly when its value is the
    whole text. *)
Theorem verifier_checks_no_bound
    (text : str) (start stop : Z) (label expected : str) :
  (start <= - Z.of_nat (length text))%Z ->
  (Z.of_nat (length text) <= stop)%Z ->
  entity_matches text (start, stop, label, expected) = str_eqb text expected.
Proof.
  intros Hs He. unfold entity_matches, py_slice, adjust_bound, slice.
  assert (E1 : Z.to_nat (if (start <? 0)%Z
                         then Z.max 0 (start + Z.of_nat (length text))
                         else Z.min start (Z.of_nat (length text))) = 0).
  { destruct (Z.ltb_spec start 0); lia. }
  assert (E2 : Z.to_nat (if (stop <? 0)%Z
                         then Z.max 0 (stop + Z.of_nat (length text))
                         else Z.min stop (Z.of_nat (length text))) = length text).
  { destruct (Z.ltb_spec stop 0); lia. }
  rewrite E1, E2. cbn [skipn]. rewrite Nat.sub_0_r, firstn_all. reflexivity.
Qed.

Lemma verifier_checks_no_bound_witness :
  entity_matches (lit "M") ((-5)%Z, 9%Z, lit "Gender", lit "M")
  = str_eqb (lit "M") (lit "M").
Proof. apply verifier_checks_no_bound; simpl; lia. Defined.

